(** * Transcript search: the client-side search engine of [app.py]

    The search engine is the JavaScript program that [generate_html] embeds
    in the page: [parseSearchQuery], [matchesAllTerms], [countMatches],
    [createHighlightRegex], [performSearch], [renderUtterances] and
    [highlightTextInModal].  Each of them is embedded below as a Rocq
    function of the same name.

    Strings are sequences of code units; the development works with the
    code units below 256, written as [ascii].  [while] loops whose exit
    depends on the data take a fuel argument and return [None] when the
    fuel runs out.

    Further parts embed the transcript modal [openTranscriptModal], the
    transcript reader [parse_transcript] of the same file, and the reader
    [load_transcripts] and the selection [find_relevant_transcripts] of
    [assistant_server.py]. *)

From Stdlib Require Import String Ascii List Bool Arith ZArith Lia Sorted.
From Stdlib Require Import Permutation.
Import ListNotations.

Open Scope string_scope.
Open Scope list_scope.

(** ** The string built-ins the program calls *)

Module JS.

(** The double quote, code unit 34, and the backslash, code unit 92. *)
Definition dquote : ascii := "034"%char.
Definition backslash : ascii := "092"%char.

(** [s.length > 0] *)
Definition nonEmpty (s : string) : bool :=
  match s with
  | EmptyString => false
  | String _ _ => true
  end.

(** The white space that [trim] strips, among the code units below 256:
    TAB, LF, VT, FF, CR, SPACE and NBSP. *)
Definition isWhiteSpace (c : ascii) : bool :=
  let n := nat_of_ascii c in
  ((9 <=? n)%nat && (n <=? 13)%nat) || (n =? 32)%nat || (n =? 160)%nat.

Fixpoint trimStart (s : string) : string :=
  match s with
  | EmptyString => EmptyString
  | String c s' => if isWhiteSpace c then trimStart s' else s
  end.

Fixpoint trimEnd (s : string) : string :=
  match s with
  | EmptyString => EmptyString
  | String c s' =>
      match trimEnd s' with
      | EmptyString =>
          if isWhiteSpace c then EmptyString else String c EmptyString
      | r => String c r
      end
  end.

(** [s.trim()] *)
Definition trim (s : string) : string := trimEnd (trimStart s).

(** Lower-casing of one code unit: A-Z, and the Latin-1 capitals
    U+00C0-U+00DE except the multiplication sign U+00D7. *)
Definition lowerChar (c : ascii) : ascii :=
  let n := nat_of_ascii c in
  if ((65 <=? n)%nat && (n <=? 90)%nat) ||
     ((192 <=? n)%nat && (n <=? 222)%nat && negb (n =? 215)%nat)
  then ascii_of_nat (n + 32)
  else c.

(** [s.toLowerCase()] *)
Fixpoint toLowerCase (s : string) : string :=
  match s with
  | EmptyString => EmptyString
  | String c s' => String (lowerChar c) (toLowerCase s')
  end.

(** [s.slice(n)] *)
Fixpoint drop (n : nat) (s : string) : string :=
  match n, s with
  | S n', String _ s' => drop n' s'
  | _, _ => s
  end.

(** [s.startsWith(v)] *)
Definition startsWith (s v : string) : bool := prefix v s.

(** The first index at which [v] occurs in [s], scanning from the start. *)
Fixpoint firstIndex (s v : string) : option nat :=
  if startsWith s v then Some 0
  else match s with
       | EmptyString => None
       | String _ s' => option_map S (firstIndex s' v)
       end.

(** [s.indexOf(v, pos)]: the first index not below [pos] at which [v]
    occurs in [s]; [None] stands for the result -1.  A [pos] beyond the end
    is clamped to the length. *)
Fixpoint indexOf (s v : string) (pos : nat) : option nat :=
  match pos, s with
  | S pos', String _ s' => option_map S (indexOf s' v pos')
  | _, _ => firstIndex s v
  end.

(** [s.includes(v)] *)
Fixpoint includes (s v : string) : bool :=
  startsWith s v ||
  match s with
  | EmptyString => false
  | String _ s' => includes s' v
  end.

(** [s.replace(pat, '')] with a string pattern: the first occurrence of
    [pat] is removed, and [s] is returned as it is when there is none. *)
Fixpoint removeFirst (s pat : string) : string :=
  if startsWith s pat then drop (String.length pat) s
  else match s with
       | EmptyString => EmptyString
       | String c s' => String c (removeFirst s' pat)
       end.

(** [s.split(sep)] for a separator of one code unit. *)
Fixpoint split (sep : ascii) (s : string) : list string :=
  match s with
  | EmptyString => [EmptyString]
  | String c s' =>
      if Ascii.eqb c sep then EmptyString :: split sep s'
      else match split sep s' with
           | piece :: pieces => String c piece :: pieces
           | [] => [String c EmptyString]
           end
  end.

(** [pieces.join(sep)] *)
Definition join (sep : string) (pieces : list string) : string :=
  String.concat sep pieces.

End JS.

Import JS.

(** ** Search terms and the query parser *)

Inductive TermType : Type := phrase | keyword.

Record SearchTerm : Type := { type : TermType; value : string }.

(** The longest run of code units other than the double quote at the start
    of [s], and what follows it: the greedy match of the character class
    of [quoteRegex]. *)
Fixpoint spanNonQuote (s : string) : string * string :=
  match s with
  | EmptyString => (EmptyString, EmptyString)
  | String c s' =>
      if Ascii.eqb c dquote then (EmptyString, s)
      else let (run, rest) := spanNonQuote s' in (String c run, rest)
  end.

(** One call [quoteRegex.exec(query)].  The pattern of [quoteRegex] is: a
    double quote, a captured group of one or more code units other than the
    double quote, a double quote; it has the flag g.  The position
    [lastIndex] that the regular expression keeps between calls is held as
    the part of [query] from [lastIndex] on.  The result is [match[1]] with
    the part of [query] after the match, or [None] for [null].  A match
    starts at the leftmost double quote that is followed by at least one
    code unit other than a double quote and then by a double quote. *)
Fixpoint quoteRegex_exec (unread : string) : option (string * string) :=
  match unread with
  | EmptyString => None
  | String c s' =>
      if Ascii.eqb c dquote then
        match spanNonQuote s' with
        | (String r run, String q rest) =>
            if Ascii.eqb q dquote then Some (String r run, rest)
            else quoteRegex_exec s'
        | _ => quoteRegex_exec s'
        end
      else quoteRegex_exec s'
  end.

(** [match[0]], the matched text with its two quotes. *)
Definition quoted (match1 : string) : string :=
  String dquote (match1 ++ String dquote EmptyString)%string.

(** The loop [while ((match = quoteRegex.exec(query)) !== null)]. *)
Fixpoint extractPhrases (fuel : nat) (unread : string)
    (terms : list SearchTerm) (remaining : string)
    : option (list SearchTerm * string) :=
  match fuel with
  | 0 => None
  | S fuel' =>
      match quoteRegex_exec unread with
      | None => Some (terms, remaining)
      | Some (match1, unread') =>
          extractPhrases fuel' unread'
            (terms ++ [{| type := phrase; value := match1 |}])
            (removeFirst remaining (quoted match1))
      end
  end.

(** [remaining.split(';').map(s => s.trim()).filter(s => s.length > 0)] *)
Definition keywordParts (remaining : string) : list string :=
  filter nonEmpty (map trim (split ";" remaining)).

(** The loop [for (const part of parts)]. *)
Fixpoint pushKeywords (terms : list SearchTerm) (parts : list string)
    : list SearchTerm :=
  match parts with
  | [] => terms
  | part :: parts' =>
      if nonEmpty part
      then pushKeywords (terms ++ [{| type := keyword; value := part |}]) parts'
      else pushKeywords terms parts'
  end.

Definition parseSearchQuery_fuel (fuel : nat) (query : string)
    : option (list SearchTerm) :=
  match extractPhrases fuel query [] query with
  | None => None
  | Some (terms, remaining) =>
      Some (pushKeywords terms (keywordParts remaining))
  end.

(** [parseSearchQuery(query)].  Every match of the quote pattern consumes
    at least three code units of [query], so the first loop ends within
    [length query + 1] rounds ([parseSearchQuery_fuel_enough] below): the
    [None] branch is never taken. *)
Definition parseSearchQuery (query : string) : list SearchTerm :=
  match parseSearchQuery_fuel (S (String.length query)) query with
  | Some terms => terms
  | None => []
  end.

(** ** The term matcher *)

(** The loop [for (const term of terms)] of [matchesAllTerms]. *)
Fixpoint matchesAllTerms_for (searchText : string) (terms : list SearchTerm)
    (isCaseSensitive : bool) : bool :=
  match terms with
  | [] => true
  | term :: terms' =>
      let searchValue :=
        if isCaseSensitive then value term else toLowerCase (value term) in
      if negb (includes searchText searchValue) then false
      else matchesAllTerms_for searchText terms' isCaseSensitive
  end.

Definition matchesAllTerms (text : string) (terms : list SearchTerm)
    (isCaseSensitive : bool) : bool :=
  let searchText := if isCaseSensitive then text else toLowerCase text in
  matchesAllTerms_for searchText terms isCaseSensitive.

(** The loop [while ((pos = searchText.indexOf(searchValue, pos)) !== -1)]
    of [countMatches]; [None] when the fuel runs out. *)
Fixpoint countMatches_while (fuel : nat) (searchText searchValue : string)
    (pos count : nat) : option nat :=
  match fuel with
  | 0 => None
  | S fuel' =>
      match indexOf searchText searchValue pos with
      | None => Some count
      | Some found =>
          countMatches_while fuel' searchText searchValue
            (found + String.length searchValue) (count + 1)
      end
  end.

(** The loop [for (const term of terms)] of [countMatches]. *)
Fixpoint countMatches_for (fuel : nat) (searchText : string)
    (terms : list SearchTerm) (isCaseSensitive : bool) (count : nat)
    : option nat :=
  match terms with
  | [] => Some count
  | term :: terms' =>
      let searchValue :=
        if isCaseSensitive then value term else toLowerCase (value term) in
      match countMatches_while fuel searchText searchValue 0 count with
      | None => None
      | Some count' =>
          countMatches_for fuel searchText terms' isCaseSensitive count'
      end
  end.

Definition countMatches (fuel : nat) (text : string) (terms : list SearchTerm)
    (isCaseSensitive : bool) : option nat :=
  let searchText := if isCaseSensitive then text else toLowerCase text in
  countMatches_for fuel searchText terms isCaseSensitive 0.

(** ** Highlighting *)

(** A regular expression object with the flag g: its source text, and the
    flag i. *)
Record RegExp : Type := { source : string; ignoreCase : bool }.

(** The code units of the class that the escaping step looks for. *)
Definition isRegExpSpecial (c : ascii) : bool :=
  existsb (Ascii.eqb c) (backslash :: list_ascii_of_string ".*+?^${}()|[]").

(** The escaping step [value.replace(special, ...)]: a backslash is put
    before every special code unit. *)
Fixpoint escapeRegExp (s : string) : string :=
  match s with
  | EmptyString => EmptyString
  | String c s' =>
      if isRegExpSpecial c then String backslash (String c (escapeRegExp s'))
      else String c (escapeRegExp s')
  end.

Definition createHighlightRegex (terms : list SearchTerm)
    (isCaseSensitive : bool) : RegExp :=
  let patterns := map (fun term => escapeRegExp (value term)) terms in
  {| source := ("(" ++ join "|" patterns ++ ")")%string;
     ignoreCase := negb isCaseSensitive |}.

Definition consHead (c : ascii) (pieces : list string) : list string :=
  match pieces with
  | piece :: pieces' => String c piece :: pieces'
  | [] => [String c EmptyString]
  end.

(** The alternatives of a group body made of literal code units, escaped
    code units and bars, up to the closing parenthesis of the group. *)
Fixpoint alternativesOf (body : string) : list string :=
  match body with
  | EmptyString => [EmptyString]
  | String c s' =>
      if Ascii.eqb c backslash then
        match s' with
        | String d s'' => consHead d (alternativesOf s'')
        | EmptyString => [EmptyString]
        end
      else if Ascii.eqb c "|" then EmptyString :: alternativesOf s'
      else if Ascii.eqb c ")" then [EmptyString]
      else consHead c (alternativesOf s')
  end.

(** What a source of the form built in this program denotes: one capture
    group around an alternation of literal strings. *)
Definition groupAlternatives (regex : RegExp) : list string :=
  match source regex with
  | String c body => if Ascii.eqb c "(" then alternativesOf body else []
  | EmptyString => []
  end.

Definition sameCodeUnit (ignoringCase : bool) (a b : ascii) : bool :=
  if ignoringCase then Ascii.eqb (lowerChar a) (lowerChar b)
  else Ascii.eqb a b.

(** The text that a literal matches at the start of [s], if it does. *)
Fixpoint matchLiteral (ignoringCase : bool) (literal s : string)
    : option string :=
  match literal with
  | EmptyString => Some EmptyString
  | String a literal' =>
      match s with
      | String b s' =>
          if sameCodeUnit ignoringCase a b
          then option_map (String b) (matchLiteral ignoringCase literal' s')
          else None
      | EmptyString => None
      end
  end.

(** The alternatives are tried from left to right; the first that matches
    is taken. *)
Fixpoint matchAlternatives (ignoringCase : bool) (alternatives : list string)
    (s : string) : option string :=
  match alternatives with
  | [] => None
  | literal :: alternatives' =>
      match matchLiteral ignoringCase literal s with
      | Some matched => Some matched
      | None => matchAlternatives ignoringCase alternatives' s
      end
  end.

(** The replacement text: the mark element around the captured group. *)
Definition mark (matched : string) : string :=
  ("<mark class=" ++ String dquote "highlight" ++ String dquote ">"
   ++ matched ++ "</mark>")%string.

(** The global replacement, from left to right.  [inside] counts the code
    units of [s] that still belong to the last match.  After an empty match
    the scan moves on by one code unit, and a match is also tried at the
    end of the text. *)
Fixpoint replaceMatches (ignoringCase : bool) (alternatives : list string)
    (s : string) (inside : nat) : string :=
  match s with
  | EmptyString =>
      match inside, matchAlternatives ignoringCase alternatives EmptyString with
      | 0, Some matched => mark matched
      | _, _ => EmptyString
      end
  | String c s' =>
      match inside with
      | S inside' => replaceMatches ignoringCase alternatives s' inside'
      | 0 =>
          match matchAlternatives ignoringCase alternatives s with
          | Some matched =>
              match String.length matched with
              | 0 =>
                  (mark matched ++
                   String c
                     (replaceMatches ignoringCase alternatives s' 0))%string
              | S rest =>
                  (mark matched ++
                   replaceMatches ignoringCase alternatives s' rest)%string
              end
          | None => String c (replaceMatches ignoringCase alternatives s' 0)
          end
      end
  end.

(** [text.replace(regex, '<mark class=highlight>$1</mark>')] *)
Definition replaceWithMark (text : string) (regex : RegExp) : string :=
  replaceMatches (ignoreCase regex) (groupAlternatives regex) text 0.

(** The loop [for (const term of searchTerms)] of [highlightTextInModal];
    [caseSensitive] is the global flag. *)
Fixpoint highlightTextInModal_for (caseSensitive : bool) (result : string)
    (searchTerms : list string) : string :=
  match searchTerms with
  | [] => result
  | term :: searchTerms' =>
      if negb (nonEmpty term)
      then highlightTextInModal_for caseSensitive result searchTerms'
      else
        let escaped := escapeRegExp term in
        let regex := {| source := ("(" ++ escaped ++ ")")%string;
                        ignoreCase := negb caseSensitive |} in
        highlightTextInModal_for caseSensitive (replaceWithMark result regex)
          searchTerms'
  end.

Definition highlightTextInModal (caseSensitive : bool) (text : string)
    (searchTerms : list string) : string :=
  match searchTerms with
  | [] => text
  | _ :: _ => highlightTextInModal_for caseSensitive text searchTerms
  end.

(** ** The corpus *)

Record Utterance : Type := {
  speaker : string;
  speaker_type : string;
  start : string;
  end_ : string;
  text : string
}.

Record Transcript : Type := {
  id : string;
  name : string;
  filename : string;
  utterances : list Utterance;
  full_text : string;
  utterance_count : nat
}.

(** An entry of [matchingUtterances]: the utterance with [index] and
    [matchCount] added. *)
Record MatchingUtterance : Type := {
  utterance : Utterance;
  index : nat;
  matchCount : nat
}.

(** An entry of [results]. *)
Record SearchResult : Type := {
  transcript : Transcript;
  matchingUtterances : list MatchingUtterance;
  totalMatches : nat
}.

(** ** The result renderer *)

(** The text that [renderUtterances] builds is kept as the sequence of the
    template instances appended to it. *)
Inductive HtmlPiece : Type :=
  | ContextIndicator
  | UtteranceHtml (badge time_start time_end highlightedText : string).

Fixpoint renderUtterances_for (highlightRegex : RegExp)
    (matching : list MatchingUtterance) (html : list HtmlPiece)
    (prevIndex : Z) : list HtmlPiece :=
  match matching with
  | [] => html
  | u :: matching' =>
      let html1 :=
        if (Z.of_nat (index u) >? prevIndex + 1)%Z && (prevIndex >=? 0)%Z
        then html ++ [ContextIndicator]
        else html in
      let highlightedText :=
        replaceWithMark (text (utterance u)) highlightRegex in
      let html2 :=
        html1 ++ [UtteranceHtml (speaker_type (utterance u))
                    (start (utterance u)) (end_ (utterance u))
                    highlightedText] in
      renderUtterances_for highlightRegex matching' html2 (Z.of_nat (index u))
  end.

Definition renderUtterances (transcript : Transcript)
    (matching : list MatchingUtterance) (highlightRegex : RegExp)
    : list HtmlPiece :=
  renderUtterances_for highlightRegex matching [] (-2)%Z.

(** A transcript card: id, name, match total and the utterance list. *)
Record CardHtml : Type := {
  card_id : string;
  card_name : string;
  card_totalMatches : nat;
  card_utterances : list HtmlPiece
}.

(** What [resultsContainer.innerHTML] is set to. *)
Inductive Page : Type :=
  | StartTyping (transcriptCount : nat)
  | NoMatchesFound
  | Cards (cards : list CardHtml).

Definition renderResults (results : list SearchResult)
    (terms : list SearchTerm) (caseSensitive : bool) : Page :=
  match results with
  | [] => NoMatchesFound
  | _ :: _ =>
      let highlightRegex := createHighlightRegex terms caseSensitive in
      Cards (map (fun result =>
                    {| card_id := id (transcript result);
                       card_name := name (transcript result);
                       card_totalMatches := totalMatches result;
                       card_utterances :=
                         renderUtterances (transcript result)
                           (matchingUtterances result) highlightRegex |})
                 results)
  end.

(** ** The transcript scanner *)

(** The loop [for (let i = 0; i < transcript.utterances.length; i++)],
    entered at index [i] with the utterances from [i] on. *)
Fixpoint scanUtterances (fuel : nat) (terms : list SearchTerm)
    (speakerFilter : string) (caseSensitive : bool)
    (rest : list Utterance) (i : nat)
    (matching : list MatchingUtterance) (transcriptMatches : nat)
    : option (list MatchingUtterance * nat) :=
  match rest with
  | [] => Some (matching, transcriptMatches)
  | u :: rest' =>
      if negb (speakerFilter =? "all")%string
         && negb (speaker_type u =? speakerFilter)%string
      then scanUtterances fuel terms speakerFilter caseSensitive rest' (S i)
             matching transcriptMatches
      else if matchesAllTerms (text u) terms caseSensitive then
        match countMatches fuel (text u) terms caseSensitive with
        | None => None
        | Some count =>
            scanUtterances fuel terms speakerFilter caseSensitive rest' (S i)
              (matching ++
               [{| utterance := u; index := i; matchCount := count |}])
              (transcriptMatches + count)
        end
      else scanUtterances fuel terms speakerFilter caseSensitive rest' (S i)
             matching transcriptMatches
  end.

(** The loop [for (const transcript of TRANSCRIPTS)]. *)
Fixpoint scanTranscripts (fuel : nat) (terms : list SearchTerm)
    (speakerFilter : string) (caseSensitive : bool)
    (rest : list Transcript) (results : list SearchResult) (total : nat)
    : option (list SearchResult * nat) :=
  match rest with
  | [] => Some (results, total)
  | t :: rest' =>
      match scanUtterances fuel terms speakerFilter caseSensitive
              (utterances t) 0 [] 0 with
      | None => None
      | Some (matching, transcriptMatches) =>
          if (0 <? List.length matching)%nat
          then scanTranscripts fuel terms speakerFilter caseSensitive rest'
                 (results ++
                  [{| transcript := t; matchingUtterances := matching;
                      totalMatches := transcriptMatches |}])
                 (total + transcriptMatches)
          else scanTranscripts fuel terms speakerFilter caseSensitive rest'
                 results total
      end
  end.

(** What one run of [performSearch] leaves on the page: either the state
    set by [showEmptyState], or the array [results] with [totalMatches]
    (shown as [resultCount = results.length] and [matchCount]) and the page
    built by [renderResults].  The elapsed time is left out. *)
Inductive SearchView : Type :=
  | ShowEmptyState
  | ShowResults (results : list SearchResult) (total : nat) (html : Page).

(** [performSearch()], with the globals [TRANSCRIPTS], [speakerFilter],
    [caseSensitive] and the input field's value as arguments. *)
Definition performSearch (fuel : nat) (TRANSCRIPTS : list Transcript)
    (speakerFilter : string) (caseSensitive : bool) (searchInput : string)
    : option SearchView :=
  let query := trim searchInput in
  if negb (nonEmpty query) then Some ShowEmptyState
  else
    let terms := parseSearchQuery query in
    if (List.length terms =? 0)%nat then Some ShowEmptyState
    else
      match scanTranscripts fuel terms speakerFilter caseSensitive
              TRANSCRIPTS [] 0 with
      | None => None
      | Some (results, total) =>
          Some (ShowResults results total
                  (renderResults results terms caseSensitive))
      end.

(** ** The scanner on objects whose [text] may be missing

    The corpus that [generate_html] writes gives every utterance a string
    [text], and the records above have it.  The functions below are the
    same source functions read on objects where the property [text] may be
    absent (the value [undefined]); calling a string method on such a value
    raises a [TypeError]. *)

Module Dynamic.

Inductive outcome (A : Type) : Type :=
  | Returns (a : A)
  | TypeError
  | OutOfFuel.

Arguments Returns {A} a.
Arguments TypeError {A}.
Arguments OutOfFuel {A}.

Definition bind {A B : Type} (m : outcome A) (k : A -> outcome B)
    : outcome B :=
  match m with
  | Returns a => k a
  | TypeError => TypeError
  | OutOfFuel => OutOfFuel
  end.

Notation "x <- m ;; k" := (bind m (fun x => k))
  (at level 61, m at next level, right associativity).

Definition ofOption {A : Type} (o : option A) : outcome A :=
  match o with
  | Some a => Returns a
  | None => OutOfFuel
  end.

Record UtteranceObject : Type := {
  o_speaker : string;
  o_speaker_type : string;
  o_start : string;
  o_end : string;
  o_text : option string
}.

Record TranscriptObject : Type := {
  o_id : string;
  o_name : string;
  o_filename : string;
  o_utterances : list UtteranceObject;
  o_full_text : string;
  o_utterance_count : nat
}.

Record MatchingObject : Type := {
  o_utterance : UtteranceObject;
  o_index : nat;
  o_matchCount : nat
}.

Record ResultObject : Type := {
  o_transcript : TranscriptObject;
  o_matchingUtterances : list MatchingObject;
  o_totalMatches : nat
}.

(** [receiver.toLowerCase()] *)
Definition call_toLowerCase (receiver : option string) : outcome string :=
  match receiver with
  | Some s => Returns (toLowerCase s)
  | None => TypeError
  end.

(** [receiver.includes(v)] *)
Definition call_includes (receiver : option string) (v : string)
    : outcome bool :=
  match receiver with
  | Some s => Returns (includes s v)
  | None => TypeError
  end.

(** [receiver.indexOf(v, pos)] *)
Definition call_indexOf (receiver : option string) (v : string) (pos : nat)
    : outcome (option nat) :=
  match receiver with
  | Some s => Returns (indexOf s v pos)
  | None => TypeError
  end.

(** [receiver.replace(regex, mark)] *)
Definition call_replace (receiver : option string) (regex : RegExp)
    : outcome string :=
  match receiver with
  | Some s => Returns (replaceWithMark s regex)
  | None => TypeError
  end.

Fixpoint matchesAllTerms_for (searchText : option string)
    (terms : list SearchTerm) (isCaseSensitive : bool) : outcome bool :=
  match terms with
  | [] => Returns true
  | term :: terms' =>
      let searchValue :=
        if isCaseSensitive then value term else toLowerCase (value term) in
      found <- call_includes searchText searchValue ;;
      if negb found then Returns false
      else matchesAllTerms_for searchText terms' isCaseSensitive
  end.

Definition matchesAllTerms (text : option string) (terms : list SearchTerm)
    (isCaseSensitive : bool) : outcome bool :=
  searchText <- (if isCaseSensitive then Returns text
                 else lowered <- call_toLowerCase text ;;
                      Returns (Some lowered)) ;;
  matchesAllTerms_for searchText terms isCaseSensitive.

Fixpoint countMatches_while (fuel : nat) (searchText : option string)
    (searchValue : string) (pos count : nat) : outcome nat :=
  match fuel with
  | 0 => OutOfFuel
  | S fuel' =>
      found <- call_indexOf searchText searchValue pos ;;
      match found with
      | None => Returns count
      | Some at_ =>
          countMatches_while fuel' searchText searchValue
            (at_ + String.length searchValue) (count + 1)
      end
  end.

Fixpoint countMatches_for (fuel : nat) (searchText : option string)
    (terms : list SearchTerm) (isCaseSensitive : bool) (count : nat)
    : outcome nat :=
  match terms with
  | [] => Returns count
  | term :: terms' =>
      let searchValue :=
        if isCaseSensitive then value term else toLowerCase (value term) in
      count' <- countMatches_while fuel searchText searchValue 0 count ;;
      countMatches_for fuel searchText terms' isCaseSensitive count'
  end.

Definition countMatches (fuel : nat) (text : option string)
    (terms : list SearchTerm) (isCaseSensitive : bool) : outcome nat :=
  searchText <- (if isCaseSensitive then Returns text
                 else lowered <- call_toLowerCase text ;;
                      Returns (Some lowered)) ;;
  countMatches_for fuel searchText terms isCaseSensitive 0.

Fixpoint scanUtterances (fuel : nat) (terms : list SearchTerm)
    (speakerFilter : string) (caseSensitive : bool)
    (rest : list UtteranceObject) (i : nat)
    (matching : list MatchingObject) (transcriptMatches : nat)
    : outcome (list MatchingObject * nat) :=
  match rest with
  | [] => Returns (matching, transcriptMatches)
  | u :: rest' =>
      if negb (speakerFilter =? "all")%string
         && negb (o_speaker_type u =? speakerFilter)%string
      then scanUtterances fuel terms speakerFilter caseSensitive rest' (S i)
             matching transcriptMatches
      else
        matched <- matchesAllTerms (o_text u) terms caseSensitive ;;
        if matched then
          count <- countMatches fuel (o_text u) terms caseSensitive ;;
          scanUtterances fuel terms speakerFilter caseSensitive rest' (S i)
            (matching ++
             [{| o_utterance := u; o_index := i; o_matchCount := count |}])
            (transcriptMatches + count)
        else scanUtterances fuel terms speakerFilter caseSensitive rest' (S i)
               matching transcriptMatches
  end.

Fixpoint scanTranscripts (fuel : nat) (terms : list SearchTerm)
    (speakerFilter : string) (caseSensitive : bool)
    (rest : list TranscriptObject) (results : list ResultObject)
    (total : nat) : outcome (list ResultObject * nat) :=
  match rest with
  | [] => Returns (results, total)
  | t :: rest' =>
      scanned <- scanUtterances fuel terms speakerFilter caseSensitive
                   (o_utterances t) 0 [] 0 ;;
      let (matching, transcriptMatches) := scanned in
      if (0 <? List.length matching)%nat
      then scanTranscripts fuel terms speakerFilter caseSensitive rest'
             (results ++
              [{| o_transcript := t; o_matchingUtterances := matching;
                  o_totalMatches := transcriptMatches |}])
             (total + transcriptMatches)
      else scanTranscripts fuel terms speakerFilter caseSensitive rest'
             results total
  end.

Fixpoint renderUtterances_for (highlightRegex : RegExp)
    (matching : list MatchingObject) (html : list HtmlPiece)
    (prevIndex : Z) : outcome (list HtmlPiece) :=
  match matching with
  | [] => Returns html
  | u :: matching' =>
      let html1 :=
        if (Z.of_nat (o_index u) >? prevIndex + 1)%Z && (prevIndex >=? 0)%Z
        then html ++ [ContextIndicator]
        else html in
      highlightedText <- call_replace (o_text (o_utterance u)) highlightRegex ;;
      let html2 :=
        html1 ++ [UtteranceHtml (o_speaker_type (o_utterance u))
                    (o_start (o_utterance u)) (o_end (o_utterance u))
                    highlightedText] in
      renderUtterances_for highlightRegex matching' html2
        (Z.of_nat (o_index u))
  end.

Definition renderUtterances (transcript : TranscriptObject)
    (matching : list MatchingObject) (highlightRegex : RegExp)
    : outcome (list HtmlPiece) :=
  renderUtterances_for highlightRegex matching [] (-2)%Z.

(** The loop [for (const result of results)] of [renderResults]. *)
Fixpoint renderResults_for (highlightRegex : RegExp)
    (results : list ResultObject) (cards : list CardHtml)
    : outcome (list CardHtml) :=
  match results with
  | [] => Returns cards
  | result :: results' =>
      body <- renderUtterances (o_transcript result)
                (o_matchingUtterances result) highlightRegex ;;
      renderResults_for highlightRegex results'
        (cards ++
         [{| card_id := o_id (o_transcript result);
             card_name := o_name (o_transcript result);
             card_totalMatches := o_totalMatches result;
             card_utterances := body |}])
  end.

Definition renderResults (results : list ResultObject)
    (terms : list SearchTerm) (caseSensitive : bool) : outcome Page :=
  match results with
  | [] => Returns NoMatchesFound
  | _ :: _ =>
      let highlightRegex := createHighlightRegex terms caseSensitive in
      cards <- renderResults_for highlightRegex results [] ;;
      Returns (Cards cards)
  end.

Inductive SearchView : Type :=
  | ShowEmptyState
  | ShowResults (results : list ResultObject) (total : nat) (html : Page).

Definition performSearch (fuel : nat) (TRANSCRIPTS : list TranscriptObject)
    (speakerFilter : string) (caseSensitive : bool) (searchInput : string)
    : outcome SearchView :=
  let query := trim searchInput in
  if negb (nonEmpty query) then Returns ShowEmptyState
  else
    let terms := parseSearchQuery query in
    if (List.length terms =? 0)%nat then Returns ShowEmptyState
    else
      scanned <- scanTranscripts fuel terms speakerFilter caseSensitive
                   TRANSCRIPTS [] 0 ;;
      let (results, total) := scanned in
      html <- renderResults results terms caseSensitive ;;
      Returns (ShowResults results total html).

(** The object that the page holds for a record of the corpus. *)
Definition utteranceObject (u : Utterance) : UtteranceObject :=
  {| o_speaker := speaker u; o_speaker_type := speaker_type u;
     o_start := start u; o_end := end_ u; o_text := Some (text u) |}.

Definition transcriptObject (t : Transcript) : TranscriptObject :=
  {| o_id := id t; o_name := name t; o_filename := filename t;
     o_utterances := map utteranceObject (utterances t);
     o_full_text := full_text t; o_utterance_count := utterance_count t |}.

Definition matchingObject (m : MatchingUtterance) : MatchingObject :=
  {| o_utterance := utteranceObject (utterance m); o_index := index m;
     o_matchCount := matchCount m |}.

Definition resultObject (r : SearchResult) : ResultObject :=
  {| o_transcript := transcriptObject (transcript r);
     o_matchingUtterances := map matchingObject (matchingUtterances r);
     o_totalMatches := totalMatches r |}.

End Dynamic.

Definition viewObject (view : SearchView) : Dynamic.SearchView :=
  match view with
  | ShowEmptyState => Dynamic.ShowEmptyState
  | ShowResults results total html =>
      Dynamic.ShowResults (map Dynamic.resultObject results) total html
  end.

(** ** The notions the properties are stated with *)

(** The text or value as the matcher compares it. *)
Definition folded (caseSensitive : bool) (s : string) : string :=
  if caseSensitive then s else toLowerCase s.

(** [v] is a substring of [s]. *)
Definition Contains (s v : string) : Prop :=
  exists before after, s = (before ++ v ++ after)%string.

(** [v] occurs in [s] at index [p]. *)
Definition OccursAt (s v : string) (p : nat) : Prop :=
  exists before after,
    s = (before ++ v ++ after)%string /\ String.length before = p.

(** No term of the list has the empty string as its value. *)
Definition valuesNonEmpty (terms : list SearchTerm) : Prop :=
  Forall (fun term => value term <> EmptyString) terms.

(** [NonOverlapping s v pos n]: reading [s] from index [pos] on, from left
    to right, and going on right after the end of each occurrence found,
    [v] is found [n] times. *)
Inductive NonOverlapping (s v : string) : nat -> nat -> Prop :=
  | no_more_occurrence : forall pos,
      (forall p, pos <= p -> ~ OccursAt s v p) ->
      NonOverlapping s v pos 0
  | one_more_occurrence : forall pos p n,
      pos <= p ->
      OccursAt s v p ->
      (forall q, pos <= q -> q < p -> ~ OccursAt s v q) ->
      NonOverlapping s v (p + String.length v) n ->
      NonOverlapping s v pos (S n).

(** The utterance passes the speaker filter. *)
Definition passesFilter (speakerFilter : string) (u : Utterance) : Prop :=
  speakerFilter = "all" \/ speaker_type u = speakerFilter.

(** The utterance passes the speaker filter and contains every term. *)
Definition Qualifies (terms : list SearchTerm) (speakerFilter : string)
    (caseSensitive : bool) (u : Utterance) : Prop :=
  passesFilter speakerFilter u /\
  forall term, In term terms ->
    Contains (folded caseSensitive (text u))
             (folded caseSensitive (value term)).

(** Every text of the corpus is shorter than [fuel]. *)
Definition textsShorterThan (fuel : nat) (TRANSCRIPTS : list Transcript)
    : Prop :=
  forall t u, In t TRANSCRIPTS -> In u (utterances t) ->
    String.length (text u) < fuel.

(** The utterance is excluded by the speaker filter. *)
Definition hiddenBy (speakerFilter : string) (u : Utterance) : Prop :=
  speakerFilter <> "all" /\ speaker_type u <> speakerFilter.

(** Two utterances that are the same unless the filter excludes both. *)
Definition sameUnlessHidden (speakerFilter : string) (u u' : Utterance)
    : Prop :=
  u = u' \/ (hiddenBy speakerFilter u /\ hiddenBy speakerFilter u').

(** Two transcripts that differ at most in their excluded utterances. *)
Definition sameVisibleTranscript (speakerFilter : string)
    (t t' : Transcript) : Prop :=
  id t = id t' /\ name t = name t' /\
  Forall2 (sameUnlessHidden speakerFilter) (utterances t) (utterances t').

(** Two results that show the same: same id and name of the transcript,
    same matching utterances, same match total. *)
Definition sameShownResult (r r' : SearchResult) : Prop :=
  id (transcript r) = id (transcript r') /\
  name (transcript r) = name (transcript r') /\
  matchingUtterances r = matchingUtterances r' /\
  totalMatches r = totalMatches r'.

(** What a search shows apart from the transcript records themselves:
    per result the transcript's id, its matching utterances and its match
    total; the global match total; the page. *)
Definition shown (view : option SearchView)
    : option (option (list (string * list MatchingUtterance * nat)
                      * nat * Page)) :=
  match view with
  | None => None
  | Some ShowEmptyState => Some None
  | Some (ShowResults results total html) =>
      Some (Some (map (fun r => (id (transcript r), matchingUtterances r,
                                 totalMatches r)) results,
                  total, html))
  end.

(** The gap rule in the words of the specification: a marker comes before
    a matched utterance when a previous match exists and the index is not
    the previous index plus one. *)
Definition gapBefore (previous : option nat) (current : nat) : bool :=
  match previous with
  | None => false
  | Some prev => negb (current =? prev + 1)%nat
  end.

Definition utteranceHtml (highlightRegex : RegExp) (u : MatchingUtterance)
    : HtmlPiece :=
  UtteranceHtml (speaker_type (utterance u)) (start (utterance u))
    (end_ (utterance u)) (replaceWithMark (text (utterance u)) highlightRegex).

Fixpoint withGapMarkers (highlightRegex : RegExp) (previous : option nat)
    (matching : list MatchingUtterance) : list HtmlPiece :=
  match matching with
  | [] => []
  | u :: matching' =>
      (if gapBefore previous (index u) then [ContextIndicator] else [])
      ++ utteranceHtml highlightRegex u
      :: withGapMarkers highlightRegex (Some (index u)) matching'
  end.

(** The matching utterances come in the order of their indices. *)
Definition inIndexOrder (matching : list MatchingUtterance) : Prop :=
  Sorted (fun a b => index a < index b) matching.

(** ** Inputs of the examples *)

(** The query made of two double quotes. *)
Definition emptyQuotes : string := String dquote (String dquote EmptyString).

(** The query: quoted a b, semicolon, c, semicolon, quoted d. *)
Definition threeTermQuery : string :=
  (quoted "a b" ++ ";c;" ++ quoted "d")%string.

Definition agentHello : Utterance :=
  {| speaker := "Agent"; speaker_type := "agent";
     start := "0:00"; end_ := "0:02"; text := "Hello there" |}.

Definition customerHelp : Utterance :=
  {| speaker := "Customer"; speaker_type := "customer";
     start := "0:03"; end_ := "0:05"; text := "I need help" |}.

Definition customerThanks : Utterance :=
  {| speaker := "Customer"; speaker_type := "customer";
     start := "0:03"; end_ := "0:05"; text := "Thanks, hello to you" |}.

Definition helpCall : Transcript :=
  {| id := "call-1"; name := "call-1"; filename := "call-1.txt";
     utterances := [agentHello; customerHelp];
     full_text := "Agent: Hello there"; utterance_count := 2 |}.

Definition thanksCall : Transcript :=
  {| id := "call-1"; name := "call-1"; filename := "call-1.txt";
     utterances := [agentHello; customerThanks];
     full_text := "Agent: Hello there"; utterance_count := 2 |}.

(** An utterance object without the property [text], and a transcript
    that holds it. *)
Definition noTextObject : Dynamic.UtteranceObject :=
  {| Dynamic.o_speaker := "Agent"; Dynamic.o_speaker_type := "agent";
     Dynamic.o_start := "0:00"; Dynamic.o_end := "0:02";
     Dynamic.o_text := None |}.

Definition brokenCall : Dynamic.TranscriptObject :=
  {| Dynamic.o_id := "call-2"; Dynamic.o_name := "call-2";
     Dynamic.o_filename := "call-2.txt";
     Dynamic.o_utterances :=
       [noTextObject; Dynamic.utteranceObject customerHelp];
     Dynamic.o_full_text := "Customer: I need help";
     Dynamic.o_utterance_count := 2 |}.

(** A matching utterance at a given index. *)
Definition matchedAt (u : Utterance) (i : nat) : MatchingUtterance :=
  {| utterance := u; index := i; matchCount := 1 |}.

(** ** Further notions: the query parser *)

Definition phraseTerm (v : string) : SearchTerm :=
  {| type := phrase; value := v |}.

Definition keywordTerm (v : string) : SearchTerm :=
  {| type := keyword; value := v |}.

(** The code unit [c] is in [s]. *)
Fixpoint occurs (c : ascii) (s : string) : bool :=
  match s with
  | EmptyString => false
  | String d s' => Ascii.eqb d c || occurs c s'
  end.

(** A query written as stretches of text without quotes, each followed by
    a quoted phrase, and a last stretch of text. *)
Fixpoint quotedQuery (segments : list (string * string)) (last : string)
    : string :=
  match segments with
  | [] => last
  | (before, p) :: segments' =>
      (before ++ quoted p ++ quotedQuery segments' last)%string
  end.

(** The same query with the quoted phrases taken out. *)
Fixpoint unquotedText (segments : list (string * string)) (last : string)
    : string :=
  match segments with
  | [] => last
  | (before, _) :: segments' =>
      (before ++ unquotedText segments' last)%string
  end.

(** What a phrase value looks like: not empty, without a double quote. *)
Definition phraseShape (p : string) : Prop :=
  p <> EmptyString /\ occurs dquote p = false.

(** What a keyword value looks like: not empty, without a semicolon, and
    left as it is by [trim]. *)
Definition keywordShape (k : string) : Prop :=
  k <> EmptyString /\ occurs ";" k = false /\ trim k = k.

(** A segment of a [quotedQuery]: text without a double quote, then a
    phrase. *)
Definition segmentShape (segment : string * string) : Prop :=
  occurs dquote (fst segment) = false /\ phraseShape (snd segment).

(** Every code unit of [s] passes the test [f]. *)
Fixpoint allUnits (f : ascii -> bool) (s : string) : bool :=
  match s with
  | EmptyString => true
  | String c s' => f c && allUnits f s'
  end.

(** White space or a semicolon. *)
Definition isSeparator (c : ascii) : bool :=
  isWhiteSpace c || Ascii.eqb c ";".

(** ** Further notions: the term matcher and the scanner *)

(** The sum of two counts, when both loops return. *)
Definition addCounts (a b : option nat) : option nat :=
  match a, b with
  | Some x, Some y => Some (x + y)
  | _, _ => None
  end.

(** The tests of the scanner as boolean functions. *)
Definition passesFilterb (speakerFilter : string) (u : Utterance) : bool :=
  (speakerFilter =? "all")%string
  || (speaker_type u =? speakerFilter)%string.

Definition qualifiesb (terms : list SearchTerm) (speakerFilter : string)
    (caseSensitive : bool) (u : Utterance) : bool :=
  passesFilterb speakerFilter u
  && matchesAllTerms (text u) terms caseSensitive.

(** A result of the search under a speaker filter [r] against the result
    of the search without filter [r0] for the same transcript: the entries
    of [r] are the entries of [r0] whose utterance passes the filter. *)
Definition narrowedFrom (speakerFilter : string) (r r0 : SearchResult)
    : Prop :=
  transcript r0 = transcript r /\
  matchingUtterances r
  = filter (fun e => passesFilterb speakerFilter (utterance e))
      (matchingUtterances r0) /\
  totalMatches r <= totalMatches r0.

(** The piece is an utterance block, not a gap marker. *)
Definition isUtterancePiece (piece : HtmlPiece) : bool :=
  match piece with
  | ContextIndicator => false
  | UtteranceHtml _ _ _ _ => true
  end.

(** ** Further notions: highlighting *)



(** ** The transcript modal *)

(** [s.slice(1, -1)]: [s] without its first and its last code unit. *)
Fixpoint dropLast (s : string) : string :=
  match s with
  | EmptyString => EmptyString
  | String c s' =>
      match s' with
      | EmptyString => EmptyString
      | String _ _ => String c (dropLast s')
      end
  end.

Definition slice_1_m1 (s : string) : string := dropLast (drop 1 s).

(** [currentQuery.match(quotePattern)] with the flag g: the matched texts,
    quotes included, from left to right.  The pattern is the one of
    [quoteRegex] without the capture group, so a match is read with
    [quoteRegex_exec] and given back with its quotes. *)
Fixpoint matchQuoted_fuel (fuel : nat) (unread : string)
    : option (list string) :=
  match fuel with
  | 0 => None
  | S fuel' =>
      match quoteRegex_exec unread with
      | None => Some []
      | Some (match1, unread') =>
          option_map (cons (quoted match1)) (matchQuoted_fuel fuel' unread')
      end
  end.

(** The array [phraseMatches]; the search for matches ends within
    [length query + 1] rounds ([matchQuoted_fuel_enough] below). *)
Definition matchQuoted (query : string) : list string :=
  match matchQuoted_fuel (S (String.length query)) query with
  | Some matches => matches
  | None => []
  end.

(** The term list that [openTranscriptModal] computes from the input. *)
Definition modalSearchTerms (searchInput : string) : list string :=
  let currentQuery := trim searchInput in
  if nonEmpty currentQuery then
    let phraseMatches := matchQuoted currentQuery in
    let phrases := map slice_1_m1 phraseMatches in
    let remaining := fold_left removeFirst phraseMatches currentQuery in
    let parts := filter nonEmpty (map trim (split ";" remaining)) in
    phrases ++ parts
  else [].

(** What the modal is set to: the title, the subtitle (the number of
    utterances and the terms searched for) and the body. *)
Record ModalView : Type := {
  modalTitle : string;
  modalUtterances : nat;
  modalSearching : list string;
  modalBody : list HtmlPiece
}.

(** The loop [for (const utterance of transcript.utterances)] of
    [openTranscriptModal]. *)
Fixpoint modalBody_for (caseSensitive : bool) (searchTerms : list string)
    (rest : list Utterance) (html : list HtmlPiece) : list HtmlPiece :=
  match rest with
  | [] => html
  | u :: rest' =>
      let highlightedText :=
        highlightTextInModal caseSensitive (text u) searchTerms in
      modalBody_for caseSensitive searchTerms rest'
        (html ++ [UtteranceHtml (speaker_type u) (start u) (end_ u)
                    highlightedText])
  end.

(** [openTranscriptModal(transcriptId)]; [None] when the function returns
    without touching the modal. *)
Definition openTranscriptModal (TRANSCRIPTS : list Transcript)
    (caseSensitive : bool) (searchInput : string) (transcriptId : string)
    : option ModalView :=
  match find (fun t => (id t =? transcriptId)%string) TRANSCRIPTS with
  | None => None
  | Some transcript =>
      let searchTerms := modalSearchTerms searchInput in
      Some {| modalTitle := name transcript;
              modalUtterances := List.length (utterances transcript);
              modalSearching := searchTerms;
              modalBody :=
                modalBody_for caseSensitive searchTerms
                  (utterances transcript) [] |}
  end.

(** The text shown in a piece. *)
Definition pieceText (piece : HtmlPiece) : string :=
  match piece with
  | ContextIndicator => EmptyString
  | UtteranceHtml _ _ _ highlightedText => highlightedText
  end.

(** * The transcript reader of [app.py]

    [parse_transcript] turns the text of a transcript file into the record
    that [generate_html] writes into the page as an element of
    [TRANSCRIPTS].  Python strings are sequences of code points; as for the
    search engine, the development works with the code points below 256. *)

(** ** The string built-ins the reader calls *)

Module Py.

(** The line feed, code point 10. *)
Definition LF : ascii := "010"%char.

(** [c.isspace()], among the code points below 256: TAB, LF, VT, FF, CR,
    the separators U+001C-U+001F, SPACE, NEL and NBSP. *)
Definition isspace (c : ascii) : bool :=
  let n := nat_of_ascii c in
  ((9 <=? n)%nat && (n <=? 13)%nat) || ((28 <=? n)%nat && (n <=? 32)%nat)
  || (n =? 133)%nat || (n =? 160)%nat.

(** [c.isdecimal()], among the code points below 256: the digits 0-9. *)
Definition isdecimal (c : ascii) : bool :=
  let n := nat_of_ascii c in (48 <=? n)%nat && (n <=? 57)%nat.

Fixpoint lstrip (s : string) : string :=
  match s with
  | EmptyString => EmptyString
  | String c s' => if isspace c then lstrip s' else s
  end.

Fixpoint rstrip (s : string) : string :=
  match s with
  | EmptyString => EmptyString
  | String c s' =>
      match rstrip s' with
      | EmptyString => if isspace c then EmptyString else String c EmptyString
      | r => String c r
      end
  end.

(** [s.strip()] *)
Definition strip (s : string) : string := rstrip (lstrip s).

(** [s.lower()]: on the code points below 256 it changes A-Z and the
    capitals U+00C0-U+00DE except U+00D7, as [toLowerCase] does. *)
Definition lower (s : string) : string := toLowerCase s.

End Py.

Import Py.

(** ** Regular expressions of the module [re]

    The constructs that the patterns of [parse_transcript] use, matched as
    [re] matches them: alternatives are tried from left to right, a
    repetition takes as much as it can and gives back one code point at a
    time when what follows does not match.  The matcher is written with a
    continuation [k] for what follows; [k] gets the rest of the text. *)

Module Re.

(** The classes \s, \d and the dot (any code point but the line feed). *)
Inductive CharClass : Type := Space | Digit | Dot.

Definition inClass (cl : CharClass) (c : ascii) : bool :=
  match cl with
  | Space => isspace c
  | Digit => isdecimal c
  | Dot => negb (Ascii.eqb c LF)
  end.

Inductive Regex : Type :=
  | Empty
  | Lit (c : ascii)
  | OneOf (cl : CharClass)
  | Cat (r1 r2 : Regex)
  | Or (r1 r2 : Regex)
  | Many (cl : CharClass)
  | EndOfString.

(** A run of literals. *)
Fixpoint word (w : string) : Regex :=
  match w with
  | EmptyString => Empty
  | String c w' => Cat (Lit c) (word w')
  end.

(** The repetition + of a class. *)
Definition oneOrMore (cl : CharClass) : Regex := Cat (OneOf cl) (Many cl).

(** The repetition * of a class, greedy. *)
Fixpoint many {A : Type} (cl : CharClass) (s : string)
    (k : string -> option A) : option A :=
  match s with
  | EmptyString => k s
  | String c s' =>
      if inClass cl c then
        match many cl s' k with
        | Some a => Some a
        | None => k s
        end
      else k s
  end.

(** The end of the string, or the place before a line feed that ends the
    string (the dollar sign without the flag MULTILINE). *)
Definition atEnd (s : string) : bool :=
  match s with
  | EmptyString => true
  | String c EmptyString => Ascii.eqb c LF
  | String _ (String _ _) => false
  end.

Fixpoint matchRe {A : Type} (ignoreCase : bool) (r : Regex) (s : string)
    (k : string -> option A) : option A :=
  match r with
  | Empty => k s
  | Lit c =>
      match s with
      | String d s' => if sameCodeUnit ignoreCase d c then k s' else None
      | EmptyString => None
      end
  | OneOf cl =>
      match s with
      | String d s' => if inClass cl d then k s' else None
      | EmptyString => None
      end
  | Cat r1 r2 =>
      matchRe ignoreCase r1 s (fun s' => matchRe ignoreCase r2 s' k)
  | Or r1 r2 =>
      match matchRe ignoreCase r1 s k with
      | Some a => Some a
      | None => matchRe ignoreCase r2 s k
      end
  | Many cl => many cl s k
  | EndOfString => if atEnd s then k s else None
  end.

(** The part of [s] before its suffix [rest]: what a group has matched
    when the match went from [s] to [rest]. *)
Definition taken (s rest : string) : string :=
  substring 0 (String.length s - String.length rest) s.

(** The length of the match of [r] at the start of [s]. *)
Definition matchLength (ignoreCase : bool) (r : Regex) (s : string)
    : option nat :=
  matchRe ignoreCase r s
    (fun rest => Some (String.length s - String.length rest)).

(** [re.sub(r, '', s)].  [inside] counts the code points of [s] that still
    belong to the last match.  A match is tried at every place from left
    to right; an empty match is replaced by nothing, as any other. *)
Fixpoint sub_empty (ignoreCase : bool) (r : Regex) (s : string)
    (inside : nat) : string :=
  match s with
  | EmptyString => EmptyString
  | String c s' =>
      match inside with
      | S inside' => sub_empty ignoreCase r s' inside'
      | 0 =>
          match matchLength ignoreCase r s with
          | Some (S rest) => sub_empty ignoreCase r s' rest
          | _ => String c (sub_empty ignoreCase r s' 0)
          end
      end
  end.

End Re.

Import Re.

(** ** [parse_transcript] *)

(** The pattern of an utterance line, group by group: the speaker (group
    1), what stands between the speaker and the start time, a time (groups
    2 and 3), what stands between the times, what stands between the end
    time and the text, and the text up to the end of the line (group
    4). *)
Definition speakerPattern : Regex :=
  Or (word "Agent") (Or (word "Customer")
                        (Cat (word "Speaker ") (oneOrMore Digit))).

Definition timePattern : Regex :=
  Cat (oneOrMore Digit) (Cat (Lit ":") (oneOrMore Digit)).

Definition afterSpeaker : Regex :=
  Cat (Many Space) (Cat (word "[starttime:") (Many Space)).

Definition betweenTimes : Regex :=
  Cat (Many Space)
    (Cat (Lit "-") (Cat (Many Space) (Cat (word "endtime:") (Many Space)))).

Definition afterTimes : Regex := Cat (word "]:") (Many Space).

Definition restOfLine : Regex := Many Dot.

(** [re.match(pattern, line, re.IGNORECASE)]: the four groups of the match
    at the start of [line], or [None]. *)
Definition match_pattern (line : string)
    : option (string * string * string * string) :=
  matchRe true speakerPattern line (fun s1 =>
  matchRe true afterSpeaker s1 (fun s2 =>
  matchRe true timePattern s2 (fun s3 =>
  matchRe true betweenTimes s3 (fun s4 =>
  matchRe true timePattern s4 (fun s5 =>
  matchRe true afterTimes s5 (fun s6 =>
  matchRe true restOfLine s6 (fun s7 =>
  matchRe true EndOfString s7 (fun _ =>
    Some (taken line s1, taken s2 s3, taken s4 s5, taken s6 s7))))))))).

(** The loop [for line in content.split(LF)], with the two lists it
    appends to.  For a separator of one code point the method [split] of
    Python gives the pieces that [split] above gives. *)
Fixpoint parse_transcript_for (lines : list string)
    (utterances : list Utterance) (full_text_parts : list string)
    : list Utterance * list string :=
  match lines with
  | [] => (utterances, full_text_parts)
  | line :: lines' =>
      let line := strip line in
      if negb (nonEmpty line) then
        parse_transcript_for lines' utterances full_text_parts
      else
        match match_pattern line with
        | Some (speaker, start_time, end_time, group4) =>
            let text := strip group4 in
            let speaker_type :=
              if (lower speaker =? "agent")%string
                 || (lower speaker =? "speaker 2")%string
              then "agent" else "customer" in
            parse_transcript_for lines'
              (utterances ++
               [{| speaker := speaker; speaker_type := speaker_type;
                   start := start_time; end_ := end_time; text := text |}])
              (full_text_parts ++ [(speaker ++ ": " ++ text)%string])
        | None => parse_transcript_for lines' utterances full_text_parts
        end
  end.

(** The two parts of a path that the reader uses: [filepath.stem] and
    [filepath.name]. *)
Module Path.
Record t : Type := { stem : string; name : string }.
End Path.

(** The first substitution: the pattern is anchored at the start of the
    string and is matched as it is written. *)
Definition without_prefix (filename : string) : string :=
  match matchRe false (word "audio_Call1-") filename Some with
  | Some rest => rest
  | None => filename
  end.

(** The second substitution: the pattern ends at the end of the string
    and is matched without regard to case. *)
Definition without_extension (display_name : string) : string :=
  sub_empty true (Cat (word ".MP3") EndOfString) display_name 0.

(** [parse_transcript(filepath)], for the text [content] read from the
    file. *)
Definition parse_transcript (filepath : Path.t) (content : string)
    : Transcript :=
  let filename := Path.stem filepath in
  let display_name := without_extension (without_prefix filename) in
  let (utterances, full_text_parts) :=
    parse_transcript_for (split LF content) [] [] in
  {| id := filename;
     name := display_name;
     filename := Path.name filepath;
     utterances := utterances;
     full_text := String.concat (String LF EmptyString) full_text_parts;
     utterance_count := List.length utterances |}.

(** ** Notions for the reader *)

(** Every code point of [s] is in the class. *)
Fixpoint allIn (cl : CharClass) (s : string) : bool :=
  match s with
  | EmptyString => true
  | String c s' => inClass cl c && allIn cl s'
  end.

(** One or more digits. *)
Definition isNumber (s : string) : Prop :=
  s <> EmptyString /\ allIn Digit s = true.

(** A speaker label: Agent, Customer, or Speaker with a number, in any
    case. *)
Definition isSpeakerLabel (s : string) : Prop :=
  lower s = "agent" \/ lower s = "customer" \/
  exists w number,
    s = (w ++ number)%string /\ lower w = "speaker " /\ isNumber number.

(** A time: a number, a colon, a number. *)
Definition isTime (s : string) : Prop :=
  exists minutes seconds,
    s = (minutes ++ ":" ++ seconds)%string /\
    isNumber minutes /\ isNumber seconds.

(** A text on one line without white space at its ends. *)
Definition isLineText (s : string) : Prop :=
  strip s = s /\ allIn Dot s = true.

(** The speaker type that goes with a speaker label. *)
Definition speakerTypeOf (speaker : string) : string :=
  if (lower speaker =? "agent")%string
     || (lower speaker =? "speaker 2")%string
  then "agent" else "customer".

Definition WellFormed (u : Utterance) : Prop :=
  isSpeakerLabel (speaker u) /\ isTime (start u) /\ isTime (end_ u) /\
  isLineText (text u) /\ speaker_type u = speakerTypeOf (speaker u).



(** The corpus read from files given by their paths and contents. *)
Definition corpusOf (files : list (Path.t * string)) : list Transcript :=
  map (fun file => parse_transcript (fst file) (snd file)) files.

(** What one line of the file adds to the utterances: the body of the
    loop of [parse_transcript] as a function of the line. *)
Definition utteranceOfLine (line : string) : option Utterance :=
  let line := strip line in
  if negb (nonEmpty line) then None
  else
    match match_pattern line with
    | Some (speaker, start_time, end_time, group4) =>
        Some {| speaker := speaker;
                speaker_type := speakerTypeOf speaker;
                start := start_time; end_ := end_time;
                text := strip group4 |}
    | None => None
    end.

Definition optionToList {A : Type} (o : option A) : list A :=
  match o with
  | Some a => [a]
  | None => []
  end.

(** The entry of [full_text_parts] for an utterance. *)
Definition fullTextPart (u : Utterance) : string :=
  (speaker u ++ ": " ++ text u)%string.

(** [s] is empty or starts with a code point outside the class: a greedy
    repetition of the class stops before [s]. *)
Definition startsOutside (cl : CharClass) (s : string) : Prop :=
  match s with
  | EmptyString => True
  | String c _ => inClass cl c = false
  end.

(** The texts that a pattern matches: [pre] is matched by [r] when [rest]
    follows it. *)
Fixpoint Lang (ignoreCase : bool) (r : Regex) (pre rest : string) : Prop :=
  match r with
  | Empty => pre = EmptyString
  | Lit c =>
      exists d, pre = String d EmptyString /\
                sameCodeUnit ignoreCase d c = true
  | OneOf cl =>
      exists d, pre = String d EmptyString /\ inClass cl d = true
  | Cat r1 r2 =>
      exists p1 p2,
        pre = (p1 ++ p2)%string /\
        Lang ignoreCase r1 p1 (p2 ++ rest)%string /\
        Lang ignoreCase r2 p2 rest
  | Or r1 r2 => Lang ignoreCase r1 pre rest \/ Lang ignoreCase r2 pre rest
  | Many cl => allIn cl pre = true
  | EndOfString => pre = EmptyString /\ atEnd rest = true
  end.

(** What the lines of a file add, line by line. *)
Definition utterancesOfLines (lines : list string) : list Utterance :=
  flat_map (fun line => optionToList (utteranceOfLine line)) lines.

(** ** Notions for the search on a corpus that was read *)

(** Every utterance of the corpus has one of the two speaker types. *)
Definition twoSpeakerTypes (TRANSCRIPTS : list Transcript) : Prop :=
  forall t u, In t TRANSCRIPTS -> In u (utterances t) ->
    speaker_type u = "agent" \/ speaker_type u = "customer".

(** The count [transcriptMatches] that the loop over the utterances of a
    transcript ends with. *)
Definition transcriptTotal (fuel : nat) (terms : list SearchTerm)
    (speakerFilter : string) (caseSensitive : bool) (t : Transcript) : nat :=
  match scanUtterances fuel terms speakerFilter caseSensitive
          (utterances t) 0 [] 0 with
  | Some (_, transcriptMatches) => transcriptMatches
  | None => 0
  end.

(** ** Example inputs for the reader *)

Definition callPath : Path.t :=
  {| Path.stem := "audio_Call1-0001.MP3";
     Path.name := "audio_Call1-0001.MP3.txt" |}.

Definition agentLine : string :=
  "Agent [starttime: 0:00 - endtime: 0:02]: Hello there".

Definition plainNotes : string :=
  ("Call notes" ++ String LF "the customer asked for help")%string.

Definition customerLine : string :=
  "Customer [starttime: 0:03 - endtime: 0:05]: hello, I need help".

Definition exampleFiles : list (Path.t * string) :=
  [(callPath, (agentLine ++ String LF customerLine)%string)].

(** * The assistant server: [assistant_server.py]

    The server reads the same files with the same pattern, keeps a
    condensed text for every transcript, and chooses for a question the
    transcripts that it hands to the language model. *)

(** The dictionaries that [load_transcripts] builds. *)
Module ServerUtterance.
Record t : Type := { speaker : string; text : string }.
End ServerUtterance.

Module ServerTranscript.
Record t : Type := {
  id : string;
  name : string;
  utterances : list ServerUtterance.t;
  text : string;
  char_count : Z
}.
End ServerTranscript.

(** ** [load_transcripts] *)

(** The loop [for line in content.split(LF)]. *)
Fixpoint load_transcripts_lines (lines : list string)
    (utterances : list ServerUtterance.t) : list ServerUtterance.t :=
  match lines with
  | [] => utterances
  | line :: lines' =>
      let line := strip line in
      if negb (nonEmpty line) then load_transcripts_lines lines' utterances
      else
        match match_pattern line with
        | Some (group1, _, _, group4) =>
            load_transcripts_lines lines'
              (utterances ++
               [{| ServerUtterance.speaker := group1;
                   ServerUtterance.text := strip group4 |}])
        | None => load_transcripts_lines lines' utterances
        end
  end.

(** The entry of the condensed text for an utterance. *)
Definition condensedPart (u : ServerUtterance.t) : string :=
  (ServerUtterance.speaker u ++ ": " ++ ServerUtterance.text u)%string.

(** The loop [for filepath in sorted(...)]: the files are given in that
    order, each with the text read from it; a file without utterances adds
    nothing. *)
Fixpoint load_transcripts_for (files : list (Path.t * string))
    (TRANSCRIPTS : list ServerTranscript.t) : list ServerTranscript.t :=
  match files with
  | [] => TRANSCRIPTS
  | (filepath, content) :: files' =>
      let filename := Path.stem filepath in
      let display_name := without_extension (without_prefix filename) in
      let utterances := load_transcripts_lines (split LF content) [] in
      match utterances with
      | [] => load_transcripts_for files' TRANSCRIPTS
      | _ :: _ =>
          let condensed :=
            String.concat (String LF EmptyString)
              (map condensedPart utterances) in
          load_transcripts_for files'
            (TRANSCRIPTS ++
             [{| ServerTranscript.id := filename;
                 ServerTranscript.name := display_name;
                 ServerTranscript.utterances := utterances;
                 ServerTranscript.text := condensed;
                 ServerTranscript.char_count :=
                   Z.of_nat (String.length condensed) |}])
      end
  end.

(** [load_transcripts()]: the list that the global [TRANSCRIPTS] is set
    to. *)
Definition load_transcripts (files : list (Path.t * string))
    : list ServerTranscript.t :=
  load_transcripts_for files [].

(** ** [find_relevant_transcripts] *)

Definition aggregate_keywords : list string :=
  ["main"; "common"; "most"; "overall"; "general"; "typical";
   "usually"; "often"; "frequently"; "issues"; "problems";
   "painpoints"; "pain points"; "challenges"; "complaints";
   "summarize"; "summary"; "patterns"; "trends"].

(** [s.split()]: the words of [s], separated by runs of white space.
    [word] holds the code points of the word that is being read. *)
Fixpoint split_whitespace (s : string) (word : string) : list string :=
  match s with
  | EmptyString => if nonEmpty word then [word] else []
  | String c s' =>
      if isspace c then
        if nonEmpty word then word :: split_whitespace s' EmptyString
        else split_whitespace s' EmptyString
      else split_whitespace s' (word ++ String c EmptyString)
  end.

(** The elements [l[i]] for [i] in [range(0, len(l), step)], for a step
    of at least 1: the first element and then every [step]-th one.  [wait]
    counts the elements to pass over before the next one is taken. *)
Fixpoint everyNth {T : Type} (step wait : nat) (l : list T) : list T :=
  match l with
  | [] => []
  | x :: l' =>
      match wait with
      | 0 => x :: everyNth step (step - 1) l'
      | S wait' => everyNth step wait' l'
      end
  end.

(** The two loops that fill [selected] have the same body: a transcript is
    added while the budget holds, and the loop is left at the first one
    that does not fit. *)
Fixpoint select_within (max_chars : Z) (candidates : list ServerTranscript.t)
    (selected : list ServerTranscript.t) (total_chars : Z)
    : list ServerTranscript.t :=
  match candidates with
  | [] => selected
  | t :: candidates' =>
      if (total_chars + ServerTranscript.char_count t >? max_chars)%Z
      then selected
      else select_within max_chars candidates' (selected ++ [t])
             (total_chars + ServerTranscript.char_count t)
  end.

(** The number of keywords that occur in the text of the transcript. *)
Definition score_of (keywords : list string) (t : ServerTranscript.t)
    : nat :=
  let text_lower := lower (ServerTranscript.text t) in
  List.length (filter (fun kw => includes text_lower kw) keywords).

(** The loop [for t in TRANSCRIPTS] that fills [scored]. *)
Fixpoint score_for (keywords : list string)
    (rest : list ServerTranscript.t) (scored : list (nat * ServerTranscript.t))
    : list (nat * ServerTranscript.t) :=
  match rest with
  | [] => scored
  | t :: rest' =>
      let score := score_of keywords t in
      if (0 <? score)%nat then score_for keywords rest' (scored ++ [(score, t)])
      else score_for keywords rest' scored
  end.

(** [scored.sort(key=...)] with the key minus the score: the pairs by
    descending score, pairs of equal score in the order they had (the sort
    of Python is stable, which fixes its result). *)
Fixpoint insert_by_score (x : nat * ServerTranscript.t)
    (sorted : list (nat * ServerTranscript.t))
    : list (nat * ServerTranscript.t) :=
  match sorted with
  | [] => [x]
  | y :: sorted' =>
      if (fst x <? fst y)%nat then y :: insert_by_score x sorted'
      else x :: sorted
  end.

Definition sort_by_score (scored : list (nat * ServerTranscript.t))
    : list (nat * ServerTranscript.t) :=
  fold_right insert_by_score [] scored.

(** The selection for an aggregate question. *)
Definition sample_evenly (TRANSCRIPTS : list ServerTranscript.t)
    (max_chars : Z) : list ServerTranscript.t :=
  let step := Nat.max 1 (List.length TRANSCRIPTS / 30) in
  select_within max_chars (everyNth step 0 TRANSCRIPTS) [] 0%Z.

(** The selection by keywords for a specific question, before the
    fallback. *)
Definition select_by_keywords (TRANSCRIPTS : list ServerTranscript.t)
    (question_lower : string) (max_chars : Z) : list ServerTranscript.t :=
  let keywords :=
    filter (fun w => (3 <? String.length w)%nat)
      (split_whitespace question_lower EmptyString) in
  let scored := sort_by_score (score_for keywords TRANSCRIPTS []) in
  select_within max_chars (map snd scored) [] 0%Z.

(** [find_relevant_transcripts(question, max_chars)] over the global
    [TRANSCRIPTS].  The function calls itself when a specific question
    selects nothing; [fuel] bounds the depth of the calls. *)
Fixpoint find_relevant_transcripts_fuel (fuel : nat)
    (TRANSCRIPTS : list ServerTranscript.t) (question : string)
    (max_chars : Z) : option (list ServerTranscript.t) :=
  match fuel with
  | 0 => None
  | S fuel' =>
      let question_lower := lower question in
      let is_aggregate :=
        existsb (fun kw => includes question_lower kw) aggregate_keywords in
      if is_aggregate then Some (sample_evenly TRANSCRIPTS max_chars)
      else
        match select_by_keywords TRANSCRIPTS question_lower max_chars with
        | [] =>
            find_relevant_transcripts_fuel fuel' TRANSCRIPTS
              "summarize main issues" max_chars
        | t :: selected => Some (t :: selected)
        end
  end.

(** The inner call is for a question with aggregate keywords, so it
    returns without a further call: two levels are always enough
    ([find_relevant_transcripts_enough] below). *)
Definition find_relevant_transcripts (TRANSCRIPTS : list ServerTranscript.t)
    (question : string) (max_chars : Z) : list ServerTranscript.t :=
  match find_relevant_transcripts_fuel 2 TRANSCRIPTS question max_chars with
  | Some selected => selected
  | None => []
  end.

(** ** Notions for the server *)

Definition is_aggregate_question (question : string) : bool :=
  existsb (fun kw => includes (lower question) kw) aggregate_keywords.

(** The keywords of a question: its words of more than three code points,
    in lower case. *)
Definition keywordsOf (question : string) : list string :=
  filter (fun w => (3 <? String.length w)%nat)
    (split_whitespace (lower question) EmptyString).

(** The sum of the sizes of the transcripts. *)
Definition totalChars (selected : list ServerTranscript.t) : Z :=
  fold_right (fun t sum => (ServerTranscript.char_count t + sum)%Z) 0%Z
    selected.

(** What the page reader and the server keep of a transcript. *)
Definition pageSummary (t : Transcript) : string * string * string :=
  (id t, name t, full_text t).

Definition serverSummary (t : ServerTranscript.t) : string * string * string :=
  (ServerTranscript.id t, ServerTranscript.name t, ServerTranscript.text t).

Definition serverUtterance (u : Utterance) : ServerUtterance.t :=
  {| ServerUtterance.speaker := speaker u;
     ServerUtterance.text := text u |}.

(** ** Example inputs for the server *)

Definition billingEntry : ServerTranscript.t :=
  {| ServerTranscript.id := "0001"; ServerTranscript.name := "0001";
     ServerTranscript.utterances := [];
     ServerTranscript.text := "Customer: my billing statement is wrong";
     ServerTranscript.char_count := 39 |}.

Definition greetingEntry : ServerTranscript.t :=
  {| ServerTranscript.id := "0002"; ServerTranscript.name := "0002";
     ServerTranscript.utterances := [];
     ServerTranscript.text := "Agent: Hello there";
     ServerTranscript.char_count := 18 |}.

(** * Examples *)

Example trim_example : trim "  a b  " = "a b".
Proof. reflexivity. Qed.

Example toLowerCase_example : toLowerCase "Hello, World" = "hello, world".
Proof. reflexivity. Qed.

Example indexOf_example :
  indexOf "abcabc" "bc" 0 = Some 1 /\ indexOf "abcabc" "bc" 2 = Some 4 /\
  indexOf "abcabc" "bc" 5 = None /\ indexOf "abc" EmptyString 7 = Some 3.
Proof. repeat split. Qed.

Example split_example :
  split ";" ";c;" = [EmptyString; "c"; EmptyString].
Proof. reflexivity. Qed.

Example removeFirst_example : removeFirst "xabyab" "ab" = "xyab".
Proof. reflexivity. Qed.

Example parse_keywords_example :
  parseSearchQuery "refund; late  ;; " =
  [{| type := keyword; value := "refund" |};
   {| type := keyword; value := "late" |}].
Proof. reflexivity. Qed.

Example case_insensitive_example :
  matchesAllTerms "Hello" [{| type := keyword; value := "hello" |}] false
  = true /\
  matchesAllTerms "Hello" [{| type := keyword; value := "hello" |}] true
  = false.
Proof. split; reflexivity. Qed.

Example and_semantics_example :
  matchesAllTerms "foo bar"
    [{| type := keyword; value := "foo" |};
     {| type := keyword; value := "baz" |}] false = false.
Proof. reflexivity. Qed.

Example independent_counts_example :
  countMatches 4 "abc"
    [{| type := keyword; value := "ab" |};
     {| type := keyword; value := "bc" |}] true = Some 2.
Proof. reflexivity. Qed.

Example createHighlightRegex_example :
  groupAlternatives
    (createHighlightRegex
       [{| type := phrase; value := "a.b|c" |};
        {| type := keyword; value := "x (y)" |}] false)
  = ["a.b|c"; "x (y)"].
Proof. reflexivity. Qed.

Example end_to_end_example :
  performSearch 20 [helpCall] "all" false "help"
  = Some (ShowResults
            [{| transcript := helpCall;
                matchingUtterances :=
                  [{| utterance := customerHelp; index := 1;
                      matchCount := 1 |}];
                totalMatches := 1 |}]
            1
            (Cards
               [{| card_id := "call-1"; card_name := "call-1";
                   card_totalMatches := 1;
                   card_utterances :=
                     [UtteranceHtml "customer" "0:03" "0:05"
                        ("I need " ++ mark "help")%string] |}])).
Proof. reflexivity. Qed.

Example no_match_example :
  performSearch 20 [helpCall] "agent" false "help"
  = Some (ShowResults [] 0 NoMatchesFound).
Proof. reflexivity. Qed.

(** * Facts about the string built-ins *)

Section StringFacts.

Lemma string_app_nil_r (s : string) : (s ++ EmptyString)%string = s.
Proof. induction s as [|c s IH]; simpl; [reflexivity | now rewrite IH]. Qed.

Lemma string_app_assoc (a b c : string) :
  ((a ++ b) ++ c)%string = (a ++ (b ++ c))%string.
Proof. induction a as [|x a IH]; simpl; [reflexivity | now rewrite IH]. Qed.

Lemma string_length_app (a b : string) :
  String.length (a ++ b) = String.length a + String.length b.
Proof. induction a as [|x a IH]; simpl; [reflexivity | now rewrite IH]. Qed.

Lemma string_length_zero (s : string) : String.length s = 0 -> s = EmptyString.
Proof. destruct s; [reflexivity | discriminate]. Qed.

Lemma nonEmpty_true (s : string) : nonEmpty s = true <-> s <> EmptyString.
Proof. destruct s; simpl; split; congruence. Qed.

Lemma toLowerCase_length (s : string) :
  String.length (toLowerCase s) = String.length s.
Proof. induction s as [|c s IH]; simpl; [reflexivity | now rewrite IH]. Qed.

Lemma folded_length (caseSensitive : bool) (s : string) :
  String.length (folded caseSensitive s) = String.length s.
Proof.
  destruct caseSensitive; simpl; [reflexivity | apply toLowerCase_length].
Qed.

Lemma folded_nonempty (caseSensitive : bool) (s : string) :
  s <> EmptyString -> folded caseSensitive s <> EmptyString.
Proof.
  intros Hs Hf. apply Hs, string_length_zero.
  rewrite <- (folded_length caseSensitive), Hf. reflexivity.
Qed.

Lemma startsWith_spec (s v : string) :
  startsWith s v = true <-> exists after, s = (v ++ after)%string.
Proof.
  unfold startsWith. revert s.
  induction v as [|a v IH]; intros s; simpl.
  - split; [intros _; now exists s | intros _; now destruct s].
  - destruct s as [|b s]; simpl.
    + split; [discriminate | intros [after H]; discriminate].
    + destruct (ascii_dec a b) as [->|Hab].
      * rewrite IH. split; intros [after H]; exists after; congruence.
      * split; [discriminate | intros [after H]; congruence].
Qed.

Lemma OccursAt_zero (s v : string) :
  OccursAt s v 0 <-> startsWith s v = true.
Proof.
  rewrite startsWith_spec. split.
  - intros (before & after & Hs & Hlen).
    apply string_length_zero in Hlen. subst before. now exists after.
  - intros [after Hs]. now exists EmptyString, after.
Qed.

Lemma OccursAt_succ (c : ascii) (s v : string) (p : nat) :
  OccursAt (String c s) v (S p) <-> OccursAt s v p.
Proof.
  split.
  - intros (before & after & Hs & Hlen).
    destruct before as [|b before]; [discriminate|].
    simpl in Hs, Hlen. exists before, after. split; congruence.
  - intros (before & after & Hs & Hlen).
    exists (String c before), after. simpl. split; congruence.
Qed.

Lemma OccursAt_bound (s v : string) (p : nat) :
  OccursAt s v p -> p + String.length v <= String.length s.
Proof.
  intros (before & after & -> & <-).
  rewrite !string_length_app. lia.
Qed.

Lemma Contains_OccursAt (s v : string) :
  Contains s v <-> exists p, OccursAt s v p.
Proof.
  split.
  - intros (before & after & Hs). exists (String.length before).
    now exists before, after.
  - intros (p & before & after & Hs & _). now exists before, after.
Qed.

Lemma firstIndex_eq (s v : string) :
  firstIndex s v =
  if startsWith s v then Some 0
  else match s with
       | EmptyString => None
       | String _ s' => option_map S (firstIndex s' v)
       end.
Proof. destruct s; reflexivity. Qed.

Lemma firstIndex_Some (s v : string) (p : nat) :
  firstIndex s v = Some p ->
  OccursAt s v p /\ forall q, q < p -> ~ OccursAt s v q.
Proof.
  revert p. induction s as [|c s IH]; intros p; rewrite firstIndex_eq;
    destruct (startsWith _ v) eqn:E; intros H.
  - injection H as <-. split; [now apply OccursAt_zero | intros q Hq; lia].
  - discriminate H.
  - injection H as <-. split; [now apply OccursAt_zero | intros q Hq; lia].
  - destruct (firstIndex s v) as [p'|] eqn:F; [|discriminate H].
    injection H as <-. destruct (IH p' eq_refl) as [Hocc Hmin]. split.
    + now apply OccursAt_succ.
    + intros [|q] Hq.
      * rewrite OccursAt_zero. congruence.
      * rewrite OccursAt_succ. apply Hmin. lia.
Qed.

Lemma firstIndex_None (s v : string) :
  firstIndex s v = None -> forall q, ~ OccursAt s v q.
Proof.
  induction s as [|c s IH]; rewrite firstIndex_eq;
    destruct (startsWith _ v) eqn:E; intros H; try discriminate H.
  - intros q Hq. pose proof (OccursAt_bound _ _ _ Hq) as Hb. simpl in Hb.
    assert (q = 0) by lia. subst q. apply OccursAt_zero in Hq. congruence.
  - destruct (firstIndex s v) eqn:F; [discriminate H|].
    intros [|q].
    + rewrite OccursAt_zero. congruence.
    + rewrite OccursAt_succ. now apply IH.
Qed.

Lemma indexOf_Some (s v : string) (pos p : nat) :
  pos <= String.length s ->
  indexOf s v pos = Some p ->
  pos <= p /\ OccursAt s v p /\
  forall q, pos <= q -> q < p -> ~ OccursAt s v q.
Proof.
  revert s p. induction pos as [|pos IH]; intros s p Hpos H.
  - assert (F : firstIndex s v = Some p) by (destruct s; exact H).
    apply firstIndex_Some in F. destruct F as [Hocc Hmin].
    repeat split; [lia | exact Hocc | intros q _ Hq; now apply Hmin].
  - destruct s as [|c s]; [simpl in Hpos; lia|].
    simpl in H, Hpos.
    destruct (indexOf s v pos) as [p'|] eqn:E; [|discriminate].
    injection H as <-.
    destruct (IH s p' ltac:(lia) E) as (Hle & Hocc & Hmin).
    repeat split; [lia | now apply OccursAt_succ |].
    intros [|q] Hq1 Hq2; [lia|].
    rewrite OccursAt_succ. apply Hmin; lia.
Qed.

Lemma indexOf_None (s v : string) (pos : nat) :
  indexOf s v pos = None -> forall q, pos <= q -> ~ OccursAt s v q.
Proof.
  revert s. induction pos as [|pos IH]; intros s H q Hq.
  - assert (F : firstIndex s v = None) by (destruct s; exact H).
    now apply firstIndex_None.
  - destruct s as [|c s].
    + simpl in H. now apply firstIndex_None.
    + simpl in H. destruct (indexOf s v pos) eqn:E; [discriminate|].
      destruct q as [|q]; [lia|].
      rewrite OccursAt_succ. apply (IH s E). lia.
Qed.

Lemma includes_eq (s v : string) :
  includes s v =
  startsWith s v ||
  match s with
  | EmptyString => false
  | String _ s' => includes s' v
  end.
Proof. destruct s; reflexivity. Qed.

Lemma includes_spec (s v : string) :
  includes s v = true <-> Contains s v.
Proof.
  rewrite Contains_OccursAt.
  induction s as [|c s IH]; rewrite includes_eq.
  - rewrite orb_false_r, <- OccursAt_zero. split.
    + intros H. now exists 0.
    + intros [p Hp]. pose proof (OccursAt_bound _ _ _ Hp) as Hb. simpl in Hb.
      now replace p with 0 in Hp by lia.
  - rewrite orb_true_iff, IH, <- OccursAt_zero. split.
    + intros [H | [p Hp]]; [now exists 0|].
      exists (S p). now apply OccursAt_succ.
    + intros [[|p] Hp]; [now left|].
      right. exists p. now apply OccursAt_succ in Hp.
Qed.

End StringFacts.

(** * Facts about the query parser *)

Section ParserFacts.

Lemma spanNonQuote_app (s run rest : string) :
  spanNonQuote s = (run, rest) -> s = (run ++ rest)%string.
Proof.
  revert run rest. induction s as [|c s IH]; intros run rest; simpl.
  - intros [= <- <-]. reflexivity.
  - destruct (Ascii.eqb c dquote).
    + intros [= <- <-]. reflexivity.
    + destruct (spanNonQuote s) as [run' rest'] eqn:E.
      intros [= <- <-]. simpl. f_equal. now apply IH.
Qed.

(** A match yields a captured text that is not empty, and takes at least
    three code units of the unread part. *)
Lemma quoteRegex_exec_Some (unread match1 unread' : string) :
  quoteRegex_exec unread = Some (match1, unread') ->
  match1 <> EmptyString /\
  String.length unread' + 3 <= String.length unread.
Proof.
  induction unread as [|c s IH]; simpl; [discriminate|].
  assert (Hrec : quoteRegex_exec s = Some (match1, unread') ->
                 match1 <> EmptyString /\
                 String.length unread' + 3 <= S (String.length s)).
  { intros H. destruct (IH H). split; [assumption | lia]. }
  destruct (Ascii.eqb c dquote); [|exact Hrec].
  destruct (spanNonQuote s) as [run rest] eqn:E.
  destruct run as [|r run]; [exact Hrec|].
  destruct rest as [|q rest]; [exact Hrec|].
  destruct (Ascii.eqb q dquote); [|exact Hrec].
  intros [= <- <-]. split; [discriminate|].
  apply spanNonQuote_app in E. subst s.
  simpl. rewrite string_length_app. simpl. lia.
Qed.

Lemma extractPhrases_total (fuel : nat) (unread : string)
    (terms : list SearchTerm) (remaining : string) :
  String.length unread < fuel ->
  exists out, extractPhrases fuel unread terms remaining = Some out.
Proof.
  revert unread terms remaining.
  induction fuel as [|fuel IH]; intros unread terms remaining Hlen; [lia|].
  simpl. destruct (quoteRegex_exec unread) as [[match1 unread']|] eqn:E.
  - apply IH. apply quoteRegex_exec_Some in E. lia.
  - eexists. reflexivity.
Qed.

Lemma extractPhrases_more_fuel (fuel fuel' : nat) (unread : string)
    (terms : list SearchTerm) (remaining : string)
    (out : list SearchTerm * string) :
  extractPhrases fuel unread terms remaining = Some out ->
  fuel <= fuel' ->
  extractPhrases fuel' unread terms remaining = Some out.
Proof.
  revert fuel' unread terms remaining.
  induction fuel as [|fuel IH]; intros fuel' unread terms remaining H Hle;
    [discriminate|].
  destruct fuel' as [|fuel']; [lia|].
  simpl in *. destruct (quoteRegex_exec unread) as [[match1 unread']|].
  - apply IH; [exact H | lia].
  - exact H.
Qed.

(** The first loop of the parser always ends, within [length query + 1]
    rounds, and more fuel does not change what it returns. *)
Lemma parseSearchQuery_fuel_enough (fuel : nat) (query : string) :
  String.length query < fuel ->
  parseSearchQuery_fuel fuel query = Some (parseSearchQuery query).
Proof.
  intros Hlen. unfold parseSearchQuery, parseSearchQuery_fuel.
  destruct (extractPhrases_total (S (String.length query)) query [] query
              ltac:(lia)) as [[terms remaining] E].
  rewrite E.
  rewrite (extractPhrases_more_fuel _ fuel _ _ _ _ E) by lia.
  reflexivity.
Qed.

Lemma valuesNonEmpty_snoc (terms : list SearchTerm) (term : SearchTerm) :
  valuesNonEmpty terms -> value term <> EmptyString ->
  valuesNonEmpty (terms ++ [term]).
Proof.
  intros H1 H2. apply Forall_app. split; [exact H1 | now constructor].
Qed.

Lemma extractPhrases_valuesNonEmpty (fuel : nat) (unread : string)
    (terms terms' : list SearchTerm) (remaining remaining' : string) :
  extractPhrases fuel unread terms remaining = Some (terms', remaining') ->
  valuesNonEmpty terms -> valuesNonEmpty terms'.
Proof.
  revert unread terms remaining.
  induction fuel as [|fuel IH]; intros unread terms remaining; simpl;
    [discriminate|].
  destruct (quoteRegex_exec unread) as [[match1 unread']|] eqn:E.
  - intros H Hterms. eapply IH; [exact H|].
    apply valuesNonEmpty_snoc; [exact Hterms|].
    simpl. now apply quoteRegex_exec_Some in E.
  - now intros [= <- <-].
Qed.

Lemma pushKeywords_valuesNonEmpty (parts : list string)
    (terms : list SearchTerm) :
  valuesNonEmpty terms -> valuesNonEmpty (pushKeywords terms parts).
Proof.
  revert terms. induction parts as [|part parts IH]; intros terms Hterms;
    simpl; [exact Hterms|].
  destruct (nonEmpty part) eqn:E; [|now apply IH].
  apply IH, valuesNonEmpty_snoc; [exact Hterms|].
  simpl. now apply nonEmpty_true.
Qed.

Lemma parseSearchQuery_valuesNonEmpty (query : string) :
  valuesNonEmpty (parseSearchQuery query).
Proof.
  unfold parseSearchQuery, parseSearchQuery_fuel.
  destruct (extractPhrases _ query [] query) as [[terms remaining]|] eqn:E;
    [|constructor].
  apply pushKeywords_valuesNonEmpty.
  eapply extractPhrases_valuesNonEmpty; [exact E | constructor].
Qed.

End ParserFacts.

(** * Facts about the term matcher *)

Section MatcherFacts.

Lemma matchesAllTerms_for_spec (searchText : string)
    (terms : list SearchTerm) (caseSensitive : bool) :
  matchesAllTerms_for searchText terms caseSensitive = true <->
  forall term, In term terms ->
    Contains searchText (folded caseSensitive (value term)).
Proof.
  induction terms as [|term terms IH]; simpl.
  - split; [intros _ term [] | reflexivity].
  - fold (folded caseSensitive (value term)).
    destruct (includes searchText (folded caseSensitive (value term))) eqn:E;
      simpl.
    + rewrite IH. apply includes_spec in E. split.
      * intros H t [<- | Hin]; [exact E | now apply H].
      * intros H t Hin. apply H. now right.
    + split; [discriminate|]. intros H.
      assert (C : Contains searchText (folded caseSensitive (value term)))
        by (apply H; now left).
      apply includes_spec in C. congruence.
Qed.

Lemma matchesAllTerms_spec (text : string) (terms : list SearchTerm)
    (caseSensitive : bool) :
  matchesAllTerms text terms caseSensitive = true <->
  forall term, In term terms ->
    Contains (folded caseSensitive text) (folded caseSensitive (value term)).
Proof. apply matchesAllTerms_for_spec. Qed.

Lemma indexOf_empty_value (s : string) (pos : nat) :
  exists p, indexOf s EmptyString pos = Some p.
Proof.
  revert s. induction pos as [|pos IH]; intros s.
  - exists 0. destruct s; reflexivity.
  - destruct s as [|c s]; [now exists 0|].
    destruct (IH s) as [p E]. exists (S p). simpl. now rewrite E.
Qed.

(** With the empty string as the value, the loop of [countMatches] finds
    an occurrence in every round and never moves on. *)
Lemma countMatches_while_empty_value (fuel : nat) (searchText : string)
    (pos count : nat) :
  countMatches_while fuel searchText EmptyString pos count = None.
Proof.
  revert pos count. induction fuel as [|fuel IH]; intros pos count; simpl;
    [reflexivity|].
  destruct (indexOf_empty_value searchText pos) as [p E]. rewrite E.
  apply IH.
Qed.

(** With a value that is not empty, the loop ends within
    [length searchText + 1] rounds and has counted the occurrences met
    from left to right, each search starting where the last occurrence
    ended. *)
Lemma countMatches_while_spec (fuel : nat) (searchText searchValue : string)
    (pos count : nat) :
  searchValue <> EmptyString ->
  pos <= String.length searchText ->
  String.length searchText < pos + fuel ->
  exists n,
    NonOverlapping searchText searchValue pos n /\
    countMatches_while fuel searchText searchValue pos count
    = Some (count + n).
Proof.
  intros Hv. revert pos count.
  induction fuel as [|fuel IH]; intros pos count Hpos Hfuel; [lia|].
  simpl. destruct (indexOf searchText searchValue pos) as [p|] eqn:E.
  - destruct (indexOf_Some _ _ _ _ Hpos E) as (Hle & Hocc & Hmin).
    pose proof (OccursAt_bound _ _ _ Hocc) as Hb.
    assert (Hlen : 0 < String.length searchValue)
      by (destruct searchValue; [congruence | simpl; lia]).
    destruct (IH (p + String.length searchValue) (count + 1)
                ltac:(lia) ltac:(lia)) as (n & Hn & Hrun).
    exists (S n). split.
    + eapply one_more_occurrence; eauto.
    + rewrite Hrun. f_equal. lia.
  - exists 0. split.
    + apply no_more_occurrence. now apply indexOf_None.
    + f_equal. lia.
Qed.

Lemma NonOverlapping_unique (s v : string) (pos n m : nat) :
  NonOverlapping s v pos n -> NonOverlapping s v pos m -> n = m.
Proof.
  intros Hn. revert m.
  induction Hn as [pos Hnone | pos p n Hle Hocc Hmin Hrest IH]; intros m Hm.
  - inversion Hm as [|pos' p' m' Hle' Hocc' Hmin' Hrest']; subst;
      [reflexivity|].
    exfalso. now apply (Hnone p').
  - inversion Hm as [pos' Hnone |pos' p' m' Hle' Hocc' Hmin' Hrest']; subst.
    + exfalso. now apply (Hnone p).
    + assert (p = p').
      { destruct (Nat.lt_trichotomy p p') as [Hlt | [Heq | Hgt]];
          [ exfalso; now apply (Hmin' p) | exact Heq
          | exfalso; now apply (Hmin p') ]. }
      subst p'. f_equal. now apply IH.
Qed.

Lemma countMatches_for_spec (fuel : nat) (searchText : string)
    (terms : list SearchTerm) (caseSensitive : bool) (count : nat) :
  valuesNonEmpty terms ->
  String.length searchText < fuel ->
  exists counts,
    Forall2 (fun term n =>
               NonOverlapping searchText
                 (folded caseSensitive (value term)) 0 n) terms counts /\
    countMatches_for fuel searchText terms caseSensitive count
    = Some (count + list_sum counts).
Proof.
  intros Hterms Hfuel. revert count.
  induction Hterms as [|term terms Hterm Hterms IH]; intros count; simpl.
  - exists []. split; [constructor | simpl; f_equal; lia].
  - fold (folded caseSensitive (value term)).
    destruct (countMatches_while_spec fuel searchText
                (folded caseSensitive (value term)) 0 count
                (folded_nonempty _ _ Hterm) ltac:(lia) ltac:(lia))
      as (n & Hn & Hrun).
    rewrite Hrun. destruct (IH (count + n)) as (counts & Hcounts & Hfor).
    exists (n :: counts). split; [now constructor|].
    rewrite Hfor. simpl. f_equal. lia.
Qed.

Lemma countMatches_total (fuel : nat) (text : string)
    (terms : list SearchTerm) (caseSensitive : bool) :
  valuesNonEmpty terms ->
  String.length text < fuel ->
  exists count, countMatches fuel text terms caseSensitive = Some count.
Proof.
  intros Hterms Hfuel. unfold countMatches.
  fold (folded caseSensitive text).
  destruct (countMatches_for_spec fuel (folded caseSensitive text) terms
              caseSensitive 0 Hterms) as (counts & _ & Hrun).
  - now rewrite folded_length.
  - eexists. exact Hrun.
Qed.

(** Read from left to right, aaa holds aa once: the second a is used up. *)
Example NonOverlapping_aaa : NonOverlapping "aaa" "aa" 0 1.
Proof.
  destruct (countMatches_while_spec 4 "aaa" "aa" 0 0)
    as (n & Hn & Hrun); [discriminate | simpl; lia | simpl; lia |].
  vm_compute in Hrun. injection Hrun as <-. exact Hn.
Qed.

End MatcherFacts.

(** * Facts about the transcript scanner *)

Section ScannerFacts.

Variable fuel : nat.
Variable terms : list SearchTerm.
Variable speakerFilter : string.
Variable caseSensitive : bool.

Lemma filter_test_true (u : Utterance) :
  negb (speakerFilter =? "all")%string
  && negb (speaker_type u =? speakerFilter)%string = true <->
  hiddenBy speakerFilter u.
Proof.
  unfold hiddenBy.
  rewrite andb_true_iff, !negb_true_iff, !String.eqb_neq. reflexivity.
Qed.

Lemma filter_test_false (u : Utterance) :
  negb (speakerFilter =? "all")%string
  && negb (speaker_type u =? speakerFilter)%string = false <->
  passesFilter speakerFilter u.
Proof.
  unfold passesFilter.
  rewrite andb_false_iff, !negb_false_iff, !String.eqb_eq. reflexivity.
Qed.

Lemma hidden_not_passes (u : Utterance) :
  hiddenBy speakerFilter u -> ~ passesFilter speakerFilter u.
Proof. intros [H1 H2] [H | H]; congruence. Qed.

(** The test of the scanner on one utterance. *)
Lemma Qualifies_test (u : Utterance) :
  Qualifies terms speakerFilter caseSensitive u <->
  negb (speakerFilter =? "all")%string
  && negb (speaker_type u =? speakerFilter)%string = false /\
  matchesAllTerms (text u) terms caseSensitive = true.
Proof.
  unfold Qualifies. now rewrite filter_test_false, matchesAllTerms_spec.
Qed.

Lemma scanUtterances_total (rest : list Utterance) (i : nat)
    (matching : list MatchingUtterance) (transcriptMatches : nat) :
  valuesNonEmpty terms ->
  (forall u, In u rest -> String.length (text u) < fuel) ->
  exists out,
    scanUtterances fuel terms speakerFilter caseSensitive rest i
      matching transcriptMatches = Some out.
Proof.
  intros Hterms. revert i matching transcriptMatches.
  induction rest as [|u rest IH]; intros i matching transcriptMatches Hlen;
    simpl.
  - eexists. reflexivity.
  - assert (Hrest : forall u', In u' rest -> String.length (text u') < fuel)
      by (intros u' Hin; apply Hlen; now right).
    destruct (negb _ && negb _); [now apply IH|].
    destruct (matchesAllTerms (text u) terms caseSensitive); [|now apply IH].
    destruct (countMatches_total fuel (text u) terms caseSensitive Hterms)
      as [count E]; [apply Hlen; now left|].
    rewrite E. now apply IH.
Qed.

(** The loop over the utterances of a transcript leaves a list that is not
    empty exactly when the list was not empty before or an utterance of
    the transcript qualifies. *)
Lemma scanUtterances_nonempty (rest : list Utterance) (i : nat)
    (matching matching' : list MatchingUtterance)
    (transcriptMatches transcriptMatches' : nat) :
  scanUtterances fuel terms speakerFilter caseSensitive rest i
    matching transcriptMatches = Some (matching', transcriptMatches') ->
  (matching' <> [] <->
   matching <> [] \/
   exists u, In u rest /\ Qualifies terms speakerFilter caseSensitive u).
Proof.
  revert i matching transcriptMatches.
  induction rest as [|u rest IH]; intros i matching transcriptMatches; simpl.
  - intros [= <- <-]. split; [now left | intros [H | (u & [] & _)]; exact H].
  - pose proof (Qualifies_test u) as Hq.
    destruct (negb _ && negb _) eqn:Efilter.
    + intros H. rewrite (IH _ _ _ H). split.
      * intros [Hm | (u' & Hin & Hu')]; [now left|].
        right. exists u'. split; [now right | exact Hu'].
      * intros [Hm | (u' & [<- | Hin] & Hu')]; [now left | | right; eauto].
        apply Hq in Hu'. destruct Hu'. discriminate.
    + destruct (matchesAllTerms (text u) terms caseSensitive) eqn:Ematch.
      * destruct (countMatches fuel (text u) terms caseSensitive)
          as [count|]; [|discriminate].
        intros H. rewrite (IH _ _ _ H). split.
        -- intros _. right. exists u. split; [now left | apply Hq; now split].
        -- intros _. left. now destruct matching.
      * intros H. rewrite (IH _ _ _ H). split.
        -- intros [Hm | (u' & Hin & Hu')]; [now left|].
           right. exists u'. split; [now right | exact Hu'].
        -- intros [Hm | (u' & [<- | Hin] & Hu')]; [now left | | right; eauto].
           apply Hq in Hu'. destruct Hu'. discriminate.
Qed.

(** Every entry that the loop adds is an utterance that qualifies, and the
    running total grows by the counts of the entries added. *)
Lemma scanUtterances_entries (rest : list Utterance) (i : nat)
    (matching matching' : list MatchingUtterance)
    (transcriptMatches transcriptMatches' : nat) :
  scanUtterances fuel terms speakerFilter caseSensitive rest i
    matching transcriptMatches = Some (matching', transcriptMatches') ->
  exists added,
    matching' = matching ++ added /\
    transcriptMatches' = transcriptMatches + list_sum (map matchCount added) /\
    Forall (fun m => In (utterance m) rest /\
                     Qualifies terms speakerFilter caseSensitive (utterance m))
           added.
Proof.
  revert i matching transcriptMatches.
  induction rest as [|u rest IH]; intros i matching transcriptMatches; simpl.
  - intros [= <- <-]. exists []. rewrite app_nil_r. simpl.
    repeat split; [lia | constructor].
  - assert (Hskip :
      scanUtterances fuel terms speakerFilter caseSensitive rest (S i)
        matching transcriptMatches = Some (matching', transcriptMatches') ->
      exists added,
        matching' = matching ++ added /\
        transcriptMatches'
        = transcriptMatches + list_sum (map matchCount added) /\
        Forall (fun m => In (utterance m) (u :: rest) /\
                  Qualifies terms speakerFilter caseSensitive (utterance m))
               added).
    { intros H. destruct (IH _ _ _ H) as (added & H1 & H2 & H3).
      exists added. repeat split; [exact H1 | exact H2 |].
      eapply Forall_impl; [|exact H3]. intros m [Hin Hm]. split;
        [now right | exact Hm]. }
    pose proof (Qualifies_test u) as Hq.
    destruct (negb _ && negb _) eqn:Efilter; [exact Hskip|].
    destruct (matchesAllTerms (text u) terms caseSensitive) eqn:Ematch;
      [|exact Hskip].
    destruct (countMatches fuel (text u) terms caseSensitive) as [count|];
      [|discriminate].
    intros H. destruct (IH _ _ _ H) as (added & H1 & H2 & H3).
    exists ({| utterance := u; index := i; matchCount := count |} :: added).
    repeat split.
    + now rewrite H1, <- app_assoc.
    + rewrite H2. simpl. lia.
    + constructor; [simpl; split; [now left | apply Hq; now split]|].
      eapply Forall_impl; [|exact H3]. intros m [Hin Hm]. split;
        [now right | exact Hm].
Qed.

Lemma Sorted_snoc {A : Type} (R : A -> A -> Prop) (l : list A) (a : A) :
  Sorted R l -> (forall x, In x l -> R x a) -> Sorted R (l ++ [a]).
Proof.
  induction l as [|x l IH]; intros Hs Hall; simpl.
  - repeat constructor.
  - apply Sorted_inv in Hs. destruct Hs as [Hs Hhd].
    constructor.
    + apply IH; [exact Hs | intros y Hy; apply Hall; now right].
    + destruct l as [|y l]; simpl.
      * constructor. apply Hall. now left.
      * constructor. now inversion Hhd.
Qed.

(** The entries are left in the order of their indices. *)
Lemma scanUtterances_inIndexOrder (rest : list Utterance) (i : nat)
    (matching matching' : list MatchingUtterance)
    (transcriptMatches transcriptMatches' : nat) :
  scanUtterances fuel terms speakerFilter caseSensitive rest i
    matching transcriptMatches = Some (matching', transcriptMatches') ->
  inIndexOrder matching ->
  (forall m, In m matching -> index m < i) ->
  inIndexOrder matching'.
Proof.
  revert i matching transcriptMatches.
  induction rest as [|u rest IH]; intros i matching transcriptMatches; simpl.
  - now intros [= <- <-].
  - assert (Hskip :
      scanUtterances fuel terms speakerFilter caseSensitive rest (S i)
        matching transcriptMatches = Some (matching', transcriptMatches') ->
      inIndexOrder matching -> (forall m, In m matching -> index m < i) ->
      inIndexOrder matching').
    { intros H Hs Hlt. apply (IH _ _ _ H Hs).
      intros m Hm. specialize (Hlt m Hm). lia. }
    destruct (negb _ && negb _); [exact Hskip|].
    destruct (matchesAllTerms (text u) terms caseSensitive); [|exact Hskip].
    destruct (countMatches fuel (text u) terms caseSensitive) as [count|];
      [|discriminate].
    intros H Hs Hlt. apply (IH _ _ _ H).
    + apply Sorted_snoc; [exact Hs | intros x Hx; simpl; now apply Hlt].
    + intros m Hm. apply in_app_or in Hm.
      destruct Hm as [Hm | [<- | []]]; [|simpl; lia].
      specialize (Hlt m Hm). lia.
Qed.

(** An utterance that the filter excludes may be replaced by any other
    excluded utterance: the loop goes the same way. *)
Lemma scanUtterances_sameUnlessHidden (rest rest' : list Utterance) (i : nat)
    (matching : list MatchingUtterance) (transcriptMatches : nat) :
  Forall2 (sameUnlessHidden speakerFilter) rest rest' ->
  scanUtterances fuel terms speakerFilter caseSensitive rest i
    matching transcriptMatches =
  scanUtterances fuel terms speakerFilter caseSensitive rest' i
    matching transcriptMatches.
Proof.
  intros Hrel. revert i matching transcriptMatches.
  induction Hrel as [|u u' rest rest' Hu Hrel IH];
    intros i matching transcriptMatches; simpl; [reflexivity|].
  destruct Hu as [<- | [Hh Hh']].
  - destruct (negb _ && negb _); [apply IH|].
    destruct (matchesAllTerms (text u) terms caseSensitive); [|apply IH].
    destruct (countMatches fuel (text u) terms caseSensitive); [apply IH|].
    reflexivity.
  - apply filter_test_true in Hh, Hh'. rewrite Hh, Hh'. apply IH.
Qed.

End ScannerFacts.

Section TranscriptScanFacts.

Variable fuel : nat.
Variable terms : list SearchTerm.
Variable speakerFilter : string.
Variable caseSensitive : bool.

Lemma scanTranscripts_total (rest : list Transcript)
    (results : list SearchResult) (total : nat) :
  valuesNonEmpty terms ->
  textsShorterThan fuel rest ->
  exists out,
    scanTranscripts fuel terms speakerFilter caseSensitive rest results total
    = Some out.
Proof.
  intros Hterms. revert results total.
  induction rest as [|t rest IH]; intros results total Hlen; simpl.
  - eexists. reflexivity.
  - assert (Hrest : textsShorterThan fuel rest)
      by (intros t' u Ht' Hu; apply (Hlen t' u); [now right | exact Hu]).
    destruct (scanUtterances_total fuel terms speakerFilter caseSensitive
                (utterances t) 0 [] 0 Hterms) as [[matching tm] E].
    { intros u Hu. apply (Hlen t u); [now left | exact Hu]. }
    rewrite E. destruct (0 <? List.length matching)%nat; now apply IH.
Qed.

(** The loop over the transcripts appends one result for each transcript
    whose own loop left a list that is not empty, and adds its total. *)
Lemma scanTranscripts_added (rest : list Transcript)
    (results results' : list SearchResult) (total total' : nat) :
  scanTranscripts fuel terms speakerFilter caseSensitive rest results total
  = Some (results', total') ->
  exists added,
    results' = results ++ added /\
    total' = total + list_sum (map totalMatches added) /\
    Forall (fun r =>
              In (transcript r) rest /\
              matchingUtterances r <> [] /\
              scanUtterances fuel terms speakerFilter caseSensitive
                (utterances (transcript r)) 0 [] 0
              = Some (matchingUtterances r, totalMatches r)) added /\
    forall t, In t rest ->
      exists matching tm,
        scanUtterances fuel terms speakerFilter caseSensitive
          (utterances t) 0 [] 0 = Some (matching, tm) /\
        (matching <> [] -> In t (map transcript added)).
Proof.
  revert results total.
  induction rest as [|t rest IH]; intros results total; simpl.
  - intros [= <- <-]. exists []. rewrite app_nil_r. simpl.
    repeat split; [lia | constructor | intros t []].
  - destruct (scanUtterances fuel terms speakerFilter caseSensitive
                (utterances t) 0 [] 0) as [[matching tm]|] eqn:E;
      [|discriminate].
    destruct (0 <? List.length matching)%nat eqn:Elen; intros H;
      destruct (IH _ _ H) as (added & H1 & H2 & H3 & H4).
    + exists ({| transcript := t; matchingUtterances := matching;
                 totalMatches := tm |} :: added).
      repeat split.
      * now rewrite H1, <- app_assoc.
      * rewrite H2. simpl. lia.
      * constructor.
        -- simpl. repeat split; [now left | | exact E].
           apply Nat.ltb_lt in Elen. now destruct matching.
        -- eapply Forall_impl; [|exact H3].
           intros r (Hin & Hne & Hscan). repeat split; [now right | easy..].
      * intros t' [<- | Hin].
        -- exists matching, tm. split; [exact E | intros _; now left].
        -- destruct (H4 t' Hin) as (m' & tm' & E' & Hm').
           exists m', tm'. split; [exact E' | intros Hne; right; auto].
    + exists added. repeat split; [exact H1 | exact H2 | |].
      * eapply Forall_impl; [|exact H3].
        intros r (Hin & Hne & Hscan). repeat split; [now right | easy..].
      * intros t' [<- | Hin].
        -- exists matching, tm. split; [exact E|].
           apply Nat.ltb_ge in Elen.
           destruct matching; [easy | simpl in Elen; lia].
        -- destruct (H4 t' Hin) as (m' & tm' & E' & Hm').
           exists m', tm'. split; [exact E' | exact Hm'].
Qed.

(** Transcripts that differ at most in excluded utterances give results
    that show the same. *)
Lemma scanTranscripts_sameVisible (rest rest' : list Transcript)
    (results results0 : list SearchResult) (total : nat) :
  Forall2 (sameVisibleTranscript speakerFilter) rest rest' ->
  Forall2 sameShownResult results results0 ->
  match scanTranscripts fuel terms speakerFilter caseSensitive rest
          results total,
        scanTranscripts fuel terms speakerFilter caseSensitive rest'
          results0 total with
  | Some (out, n), Some (out', n') => Forall2 sameShownResult out out' /\ n = n'
  | None, None => True
  | _, _ => False
  end.
Proof.
  intros Hrel. revert results results0 total.
  induction Hrel as [|t t' rest rest' Ht Hrel IH];
    intros results results0 total Hres; simpl.
  - now split.
  - destruct Ht as (Hid & Hname & Hus).
    rewrite <- (scanUtterances_sameUnlessHidden fuel terms speakerFilter
                  caseSensitive _ _ 0 [] 0 Hus).
    destruct (scanUtterances fuel terms speakerFilter caseSensitive
                (utterances t) 0 [] 0) as [[matching tm]|]; [|exact I].
    destruct (0 <? List.length matching)%nat; apply IH; [|exact Hres].
    apply Forall2_app; [exact Hres|].
    constructor; [|constructor]. now repeat split.
Qed.

End TranscriptScanFacts.

(** Some fuel is more than every text of the corpus is long. *)
Lemma textsShorterThan_more (fuel fuel' : nat) (TRANSCRIPTS : list Transcript) :
  textsShorterThan fuel TRANSCRIPTS -> fuel <= fuel' ->
  textsShorterThan fuel' TRANSCRIPTS.
Proof.
  intros H Hle t u Ht Hu. specialize (H t u Ht Hu). lia.
Qed.

Lemma utterances_shorter_than (us : list Utterance) :
  exists fuel, forall u, In u us -> String.length (text u) < fuel.
Proof.
  induction us as [|u us [fuel IH]].
  - exists 0. intros u [].
  - exists (Nat.max (S (String.length (text u))) fuel).
    intros u' [<- | Hin]; [lia|]. specialize (IH u' Hin). lia.
Qed.

Lemma textsShorterThan_exists (TRANSCRIPTS : list Transcript) :
  exists fuel, textsShorterThan fuel TRANSCRIPTS.
Proof.
  induction TRANSCRIPTS as [|t ts [fuel IH]].
  - exists 0. intros t u [].
  - destruct (utterances_shorter_than (utterances t)) as [fuel' Ht].
    exists (Nat.max fuel fuel'). intros t' u [<- | Hin] Hu.
    + specialize (Ht u Hu). lia.
    + specialize (IH t' u Hin Hu). lia.
Qed.

(** * Facts about [performSearch] and the renderer *)

Section SearchFacts.

Lemma performSearch_no_terms (fuel : nat) (TRANSCRIPTS : list Transcript)
    (speakerFilter : string) (caseSensitive : bool) (searchInput : string) :
  parseSearchQuery (trim searchInput) = [] ->
  performSearch fuel TRANSCRIPTS speakerFilter caseSensitive searchInput
  = Some ShowEmptyState.
Proof.
  intros H. unfold performSearch.
  destruct (negb (nonEmpty (trim searchInput))); [reflexivity|].
  now rewrite H.
Qed.

Lemma performSearch_with_terms (fuel : nat) (TRANSCRIPTS : list Transcript)
    (speakerFilter : string) (caseSensitive : bool) (searchInput : string) :
  parseSearchQuery (trim searchInput) <> [] ->
  performSearch fuel TRANSCRIPTS speakerFilter caseSensitive searchInput =
  match scanTranscripts fuel (parseSearchQuery (trim searchInput))
          speakerFilter caseSensitive TRANSCRIPTS [] 0 with
  | None => None
  | Some (results, total) =>
      Some (ShowResults results total
              (renderResults results (parseSearchQuery (trim searchInput))
                 caseSensitive))
  end.
Proof.
  intros H. unfold performSearch.
  destruct (trim searchInput) as [|c query] eqn:E.
  - exfalso. apply H. reflexivity.
  - simpl negb. cbv iota.
    destruct (parseSearchQuery (String c query)); [congruence | reflexivity].
Qed.

Lemma renderResults_sameShown (results results' : list SearchResult)
    (terms : list SearchTerm) (caseSensitive : bool) :
  Forall2 sameShownResult results results' ->
  renderResults results terms caseSensitive
  = renderResults results' terms caseSensitive.
Proof.
  intros H. destruct H as [|r r' results results' Hr H]; [reflexivity|].
  unfold renderResults. f_equal.
  assert (Hall : Forall2 sameShownResult (r :: results) (r' :: results'))
    by now constructor.
  clear Hr H. induction Hall as [|a b l l' (Hid & Hname & Hm & Ht) _ IH];
    [reflexivity|].
  simpl. rewrite IH, Hid, Hname, Hm, Ht. reflexivity.
Qed.

Lemma shownResults_sameShown (results results' : list SearchResult) :
  Forall2 sameShownResult results results' ->
  map (fun r => (id (transcript r), matchingUtterances r, totalMatches r))
      results
  = map (fun r => (id (transcript r), matchingUtterances r, totalMatches r))
      results'.
Proof.
  induction 1 as [|a b l l' (Hid & Hname & Hm & Ht) _ IH]; [reflexivity|].
  simpl. now rewrite IH, Hid, Hm, Ht.
Qed.

(** The loop of [renderUtterances], entered after a previous match or at
    the start, appends what the gap rule says. *)
Lemma renderUtterances_for_gaps (highlightRegex : RegExp)
    (matching : list MatchingUtterance) (html : list HtmlPiece)
    (previous : option nat) :
  inIndexOrder matching ->
  (forall p u, previous = Some p -> In u (firstn 1 matching) ->
     p < index u) ->
  renderUtterances_for highlightRegex matching html
    (match previous with Some p => Z.of_nat p | None => (-2)%Z end)
  = html ++ withGapMarkers highlightRegex previous matching.
Proof.
  revert html previous.
  induction matching as [|u matching IH]; intros html previous Hs Hprev.
  - simpl. now rewrite app_nil_r.
  - apply Sorted_inv in Hs. destruct Hs as [Hs Hhd].
    cbn [renderUtterances_for withGapMarkers].
    rewrite (IH _ (Some (index u)) Hs).
    2:{ intros p m [= <-] Hm. destruct matching as [|m' matching'];
          [destruct Hm|].
        destruct Hm as [<- | []]. now inversion Hhd. }
    fold (utteranceHtml highlightRegex u).
    assert (Hgap :
      ((Z.of_nat (index u) >?
        match previous with Some p => Z.of_nat p | None => (-2)%Z end + 1)%Z
       && (match previous with Some p => Z.of_nat p | None => (-2)%Z end
           >=? 0)%Z)
      = gapBefore previous (index u)).
    { destruct previous as [p|]; simpl gapBefore.
      - assert (Hlt : p < index u)
          by (apply (Hprev p u eq_refl); now left).
        destruct (Nat.eqb_spec (index u) (p + 1)) as [Heq | Hne]; simpl.
        + apply andb_false_iff. left. rewrite Z.gtb_ltb. apply Z.ltb_ge. lia.
        + apply andb_true_iff. split.
          * rewrite Z.gtb_ltb. apply Z.ltb_lt. lia.
          * apply Z.geb_le. lia.
      - apply andb_false_iff. right. reflexivity. }
    rewrite Hgap.
    destruct (gapBefore previous (index u)); simpl;
      now rewrite <- !app_assoc.
Qed.

(** Every search ends: with fuel beyond the length of the longest text,
    [performSearch] returns. *)
Lemma performSearch_returns (fuel : nat) (TRANSCRIPTS : list Transcript)
    (speakerFilter : string) (caseSensitive : bool) (searchInput : string) :
  textsShorterThan fuel TRANSCRIPTS ->
  exists view,
    performSearch fuel TRANSCRIPTS speakerFilter caseSensitive searchInput
    = Some view.
Proof.
  intros Hfuel.
  destruct (parseSearchQuery (trim searchInput)) as [|term terms] eqn:E.
  - exists ShowEmptyState. now apply performSearch_no_terms.
  - assert (Hne : parseSearchQuery (trim searchInput) <> [])
      by (rewrite E; discriminate).
    rewrite (performSearch_with_terms _ _ _ _ _ Hne).
    destruct (scanTranscripts_total fuel
                (parseSearchQuery (trim searchInput)) speakerFilter
                caseSensitive TRANSCRIPTS [] 0
                (parseSearchQuery_valuesNonEmpty _) Hfuel)
      as [[results total] Hscan].
    rewrite Hscan. eexists. reflexivity.
Qed.

(** The matching utterances of every result that [performSearch] renders
    are in the order of their indices. *)
Lemma performSearch_inIndexOrder (fuel : nat) (TRANSCRIPTS : list Transcript)
    (speakerFilter : string) (caseSensitive : bool) (searchInput : string)
    (results : list SearchResult) (total : nat) (html : Page) :
  performSearch fuel TRANSCRIPTS speakerFilter caseSensitive searchInput
  = Some (ShowResults results total html) ->
  forall r, In r results -> inIndexOrder (matchingUtterances r).
Proof.
  intros H r Hr.
  destruct (parseSearchQuery (trim searchInput)) as [|term terms] eqn:E.
  - rewrite performSearch_no_terms in H by exact E. discriminate.
  - assert (Hne : parseSearchQuery (trim searchInput) <> [])
      by (rewrite E; discriminate).
    rewrite (performSearch_with_terms _ _ _ _ _ Hne) in H.
    destruct (scanTranscripts _ _ _ _ _ _ _) as [[results0 total0]|] eqn:Hscan;
      [|discriminate].
    injection H as <- <- <-.
    destruct (scanTranscripts_added _ _ _ _ _ _ _ _ _ Hscan)
      as (added & Hadd & _ & Hadded & _).
    simpl in Hadd. subst added. rewrite Forall_forall in Hadded.
    destruct (Hadded r Hr) as (_ & _ & Hr_scan).
    apply (scanUtterances_inIndexOrder _ _ _ _ _ _ _ _ _ _ Hr_scan).
    + constructor.
    + intros m [].
Qed.

End SearchFacts.

(** * The scanner on objects agrees with the scanner on records *)

Section DynamicFacts.

Variable fuel : nat.
Variable terms : list SearchTerm.
Variable speakerFilter : string.
Variable caseSensitive : bool.

Lemma dynamic_matchesAllTerms_for (searchText : string)
    (ts : list SearchTerm) (sensitive : bool) :
  Dynamic.matchesAllTerms_for (Some searchText) ts sensitive
  = Dynamic.Returns (matchesAllTerms_for searchText ts sensitive).
Proof.
  induction ts as [|term ts IH]; simpl; [reflexivity|].
  destruct (negb (includes searchText _)); [reflexivity | exact IH].
Qed.

Lemma dynamic_matchesAllTerms (s : string) :
  Dynamic.matchesAllTerms (Some s) terms caseSensitive
  = Dynamic.Returns (matchesAllTerms s terms caseSensitive).
Proof.
  unfold Dynamic.matchesAllTerms, matchesAllTerms.
  destruct caseSensitive; simpl; apply dynamic_matchesAllTerms_for.
Qed.

Lemma dynamic_countMatches_while (searchText searchValue : string)
    (pos count : nat) :
  Dynamic.countMatches_while fuel (Some searchText) searchValue pos count
  = Dynamic.ofOption
      (countMatches_while fuel searchText searchValue pos count).
Proof.
  revert pos count. induction fuel as [|n IH]; intros pos count; simpl;
    [reflexivity|].
  destruct (indexOf searchText searchValue pos); [apply IH | reflexivity].
Qed.

Lemma dynamic_countMatches_for (searchText : string) (ts : list SearchTerm)
    (sensitive : bool) (count : nat) :
  Dynamic.countMatches_for fuel (Some searchText) ts sensitive count
  = Dynamic.ofOption
      (countMatches_for fuel searchText ts sensitive count).
Proof.
  revert count. induction ts as [|term ts IH]; intros count; simpl;
    [reflexivity|].
  rewrite dynamic_countMatches_while.
  destruct (countMatches_while fuel searchText _ 0 count); simpl;
    [apply IH | reflexivity].
Qed.

Lemma dynamic_countMatches (s : string) :
  Dynamic.countMatches fuel (Some s) terms caseSensitive
  = Dynamic.ofOption (countMatches fuel s terms caseSensitive).
Proof.
  unfold Dynamic.countMatches, countMatches.
  destruct caseSensitive; simpl; apply dynamic_countMatches_for.
Qed.

Lemma dynamic_scanUtterances (rest : list Utterance) (i : nat)
    (matching : list MatchingUtterance) (transcriptMatches : nat) :
  Dynamic.scanUtterances fuel terms speakerFilter caseSensitive
    (map Dynamic.utteranceObject rest) i
    (map Dynamic.matchingObject matching) transcriptMatches
  = Dynamic.ofOption
      (option_map
         (fun out => (map Dynamic.matchingObject (fst out), snd out))
         (scanUtterances fuel terms speakerFilter caseSensitive rest i
            matching transcriptMatches)).
Proof.
  revert i matching transcriptMatches.
  induction rest as [|u rest IH]; intros i matching transcriptMatches;
    [reflexivity|].
  cbn [map Dynamic.scanUtterances scanUtterances].
  cbn [Dynamic.utteranceObject Dynamic.o_speaker_type Dynamic.o_text].
  destruct (negb _ && negb _); [apply IH|].
  rewrite dynamic_matchesAllTerms. cbn [Dynamic.bind].
  destruct (matchesAllTerms (text u) terms caseSensitive); [|apply IH].
  rewrite dynamic_countMatches.
  destruct (countMatches fuel (text u) terms caseSensitive) as [count|];
    [|reflexivity].
  cbn [Dynamic.ofOption Dynamic.bind]. rewrite <- IH.
  now rewrite map_app.
Qed.

End DynamicFacts.

Section DynamicSearchFacts.

Variable fuel : nat.
Variable terms : list SearchTerm.
Variable speakerFilter : string.
Variable caseSensitive : bool.

Lemma dynamic_scanTranscripts (rest : list Transcript)
    (results : list SearchResult) (total : nat) :
  Dynamic.scanTranscripts fuel terms speakerFilter caseSensitive
    (map Dynamic.transcriptObject rest)
    (map Dynamic.resultObject results) total
  = Dynamic.ofOption
      (option_map
         (fun out => (map Dynamic.resultObject (fst out), snd out))
         (scanTranscripts fuel terms speakerFilter caseSensitive rest
            results total)).
Proof.
  revert results total.
  induction rest as [|t rest IH]; intros results total; [reflexivity|].
  cbn [map Dynamic.scanTranscripts scanTranscripts].
  cbn [Dynamic.transcriptObject Dynamic.o_utterances].
  pose proof (dynamic_scanUtterances fuel terms speakerFilter caseSensitive
                (utterances t) 0 [] 0) as Hscan.
  cbn [map] in Hscan. rewrite Hscan.
  destruct (scanUtterances fuel terms speakerFilter caseSensitive
              (utterances t) 0 [] 0) as [[matching tm]|]; [|reflexivity].
  cbn [option_map Dynamic.ofOption Dynamic.bind fst snd].
  rewrite length_map.
  destruct (0 <? List.length matching)%nat; [|apply IH].
  rewrite <- IH. now rewrite map_app.
Qed.

Lemma dynamic_renderUtterances_for (highlightRegex : RegExp)
    (matching : list MatchingUtterance) (html : list HtmlPiece)
    (prevIndex : Z) :
  Dynamic.renderUtterances_for highlightRegex
    (map Dynamic.matchingObject matching) html prevIndex
  = Dynamic.Returns
      (renderUtterances_for highlightRegex matching html prevIndex).
Proof.
  revert html prevIndex.
  induction matching as [|u matching IH]; intros html prevIndex;
    [reflexivity|].
  cbn [map Dynamic.renderUtterances_for renderUtterances_for].
  cbn. apply IH.
Qed.

Lemma dynamic_renderResults_for (highlightRegex : RegExp)
    (results : list SearchResult) (cards : list CardHtml) :
  Dynamic.renderResults_for highlightRegex
    (map Dynamic.resultObject results) cards
  = Dynamic.Returns
      (cards ++
       map (fun result =>
              {| card_id := id (transcript result);
                 card_name := name (transcript result);
                 card_totalMatches := totalMatches result;
                 card_utterances :=
                   renderUtterances (transcript result)
                     (matchingUtterances result) highlightRegex |})
           results).
Proof.
  revert cards. induction results as [|r results IH]; intros cards.
  - simpl. now rewrite app_nil_r.
  - cbn [map Dynamic.renderResults_for].
    unfold Dynamic.renderUtterances at 1.
    cbn [Dynamic.resultObject Dynamic.o_matchingUtterances].
    rewrite dynamic_renderUtterances_for. cbn [Dynamic.bind].
    rewrite IH. cbn. now rewrite <- app_assoc.
Qed.

Lemma dynamic_renderResults (results : list SearchResult) :
  Dynamic.renderResults (map Dynamic.resultObject results) terms
    caseSensitive
  = Dynamic.Returns (renderResults results terms caseSensitive).
Proof.
  destruct results as [|r results]; [reflexivity|].
  unfold Dynamic.renderResults, renderResults.
  cbn [map].
  change (Dynamic.resultObject r :: map Dynamic.resultObject results)
    with (map Dynamic.resultObject (r :: results)).
  now rewrite dynamic_renderResults_for.
Qed.

End DynamicSearchFacts.

(** On a corpus of records, the search on the objects is the search on
    the records: no [TypeError]. *)
Lemma dynamic_performSearch (fuel : nat) (TRANSCRIPTS : list Transcript)
    (speakerFilter : string) (caseSensitive : bool) (searchInput : string) :
  Dynamic.performSearch fuel (map Dynamic.transcriptObject TRANSCRIPTS)
    speakerFilter caseSensitive searchInput
  = Dynamic.ofOption
      (option_map viewObject
         (performSearch fuel TRANSCRIPTS speakerFilter caseSensitive
            searchInput)).
Proof.
  unfold Dynamic.performSearch, performSearch.
  destruct (negb (nonEmpty (trim searchInput))); [reflexivity|].
  destruct (List.length (parseSearchQuery (trim searchInput)) =? 0)%nat;
    [reflexivity|].
  pose proof (dynamic_scanTranscripts fuel
                (parseSearchQuery (trim searchInput)) speakerFilter
                caseSensitive TRANSCRIPTS [] 0) as Hscan.
  cbn [map] in Hscan. rewrite Hscan.
  destruct (scanTranscripts fuel (parseSearchQuery (trim searchInput))
              speakerFilter caseSensitive TRANSCRIPTS [] 0)
    as [[results total]|]; [|reflexivity].
  cbn [option_map Dynamic.ofOption Dynamic.bind fst snd].
  now rewrite dynamic_renderResults.
Qed.

Lemma matchesAllTerms_empty_text (terms : list SearchTerm)
    (caseSensitive : bool) :
  terms <> [] -> valuesNonEmpty terms ->
  matchesAllTerms EmptyString terms caseSensitive = false.
Proof.
  intros Hne Hterms. destruct terms as [|term terms]; [congruence|].
  inversion Hterms as [|t ts Hterm _]; subst.
  unfold matchesAllTerms. replace (if caseSensitive then _ else _)
    with EmptyString by (now destruct caseSensitive).
  simpl. fold (folded caseSensitive (value term)).
  pose proof (folded_nonempty caseSensitive _ Hterm) as Hv.
  now destruct (folded caseSensitive (value term)).
Qed.

(** * The properties *)

(** C1.  For every corpus, every input whose query parses to a term list
    that is not empty, every speaker filter and every case flag, the
    search shows results, and a transcript of the corpus is among them if
    and only if one of its utterances passes the speaker filter and
    contains every parsed term (both folded to lower case unless the
    search is case sensitive).  Every result is a transcript of the
    corpus, its list of matching utterances is not empty, and every entry
    of it is such an utterance of that transcript: a transcript without one
    is left out. *)
Theorem results_iff_qualifying_utterance
    (fuel : nat) (TRANSCRIPTS : list Transcript) (speakerFilter : string)
    (caseSensitive : bool) (searchInput : string) :
  parseSearchQuery (trim searchInput) <> [] ->
  textsShorterThan fuel TRANSCRIPTS ->
  exists results total html,
    performSearch fuel TRANSCRIPTS speakerFilter caseSensitive searchInput
    = Some (ShowResults results total html) /\
    (forall t, In t TRANSCRIPTS ->
       (In t (map transcript results) <->
        exists u, In u (utterances t) /\
                  Qualifies (parseSearchQuery (trim searchInput))
                    speakerFilter caseSensitive u)) /\
    (forall r, In r results ->
       In (transcript r) TRANSCRIPTS /\
       matchingUtterances r <> [] /\
       Forall (fun m =>
                 In (utterance m) (utterances (transcript r)) /\
                 Qualifies (parseSearchQuery (trim searchInput))
                   speakerFilter caseSensitive (utterance m))
              (matchingUtterances r)).
Proof.
  intros Hterms Hfuel.
  rewrite (performSearch_with_terms _ _ _ _ _ Hterms).
  set (terms := parseSearchQuery (trim searchInput)) in *.
  destruct (scanTranscripts_total fuel terms speakerFilter caseSensitive
              TRANSCRIPTS [] 0 (parseSearchQuery_valuesNonEmpty _) Hfuel)
    as [[results total] Hscan].
  rewrite Hscan.
  exists results, total, (renderResults results terms caseSensitive).
  split; [reflexivity|].
  destruct (scanTranscripts_added _ _ _ _ _ _ _ _ _ Hscan)
    as (added & Hres & _ & Hadded & Hall).
  simpl in Hres. subst added. rewrite Forall_forall in Hadded. split.
  - intros t Ht. split.
    + intros Hin. apply in_map_iff in Hin. destruct Hin as (r & <- & Hr).
      destruct (Hadded r Hr) as (_ & Hne & Hr_scan).
      apply (scanUtterances_nonempty _ _ _ _ _ _ _ _ _ _ Hr_scan) in Hne.
      destruct Hne as [Hne | Hex]; [congruence | exact Hex].
    + intros Hex. destruct (Hall t Ht) as (matching & tm & Ht_scan & Hin).
      apply Hin.
      apply (scanUtterances_nonempty _ _ _ _ _ _ _ _ _ _ Ht_scan).
      now right.
  - intros r Hr. destruct (Hadded r Hr) as (Hin & Hne & Hr_scan).
    repeat split; [exact Hin | exact Hne |].
    destruct (scanUtterances_entries _ _ _ _ _ _ _ _ _ _ Hr_scan)
      as (entries & Hentries & _ & Hq).
    simpl in Hentries. now rewrite Hentries.
Qed.

Lemma results_iff_qualifying_utterance_witness :
  parseSearchQuery (trim "help") <> [] /\
  textsShorterThan 20 [helpCall] /\
  exists results total html,
    performSearch 20 [helpCall] "all" false "help"
    = Some (ShowResults results total html) /\
    (forall t, In t [helpCall] ->
       (In t (map transcript results) <->
        exists u, In u (utterances t) /\
                  Qualifies (parseSearchQuery (trim "help")) "all" false u)) /\
    (forall r, In r results ->
       In (transcript r) [helpCall] /\
       matchingUtterances r <> [] /\
       Forall (fun m =>
                 In (utterance m) (utterances (transcript r)) /\
                 Qualifies (parseSearchQuery (trim "help")) "all" false
                   (utterance m))
              (matchingUtterances r)).
Proof.
  assert (H1 : parseSearchQuery (trim "help") <> [])
    by (vm_compute; discriminate).
  assert (H2 : textsShorterThan 20 [helpCall]).
  { intros t u [<- | []] [<- | [<- | []]]; simpl; lia. }
  split; [exact H1|]. split; [exact H2|].
  exact (results_iff_qualifying_utterance 20 [helpCall] "all" false "help"
           H1 H2).
Defined.

(** C2 (as the code has it).  For every text and every case flag,
    [matchesAllTerms] applied to the empty term list returns true: the loop
    body never runs.  The search does not reach it with an empty list:
    when the query parses to no term, [performSearch] shows the empty
    state before any utterance is read. *)
Theorem matchesAllTerms_no_terms :
  (forall text caseSensitive, matchesAllTerms text [] caseSensitive = true) /\
  (forall fuel TRANSCRIPTS speakerFilter caseSensitive searchInput,
     parseSearchQuery (trim searchInput) = [] ->
     performSearch fuel TRANSCRIPTS speakerFilter caseSensitive searchInput
     = Some ShowEmptyState).
Proof.
  split; [reflexivity | exact performSearch_no_terms].
Qed.

Lemma matchesAllTerms_no_terms_witness :
  matchesAllTerms "Hello there" [] false = true /\
  parseSearchQuery (trim " ; ") = [] /\
  performSearch 20 [helpCall] "all" false " ; " = Some ShowEmptyState.
Proof.
  destruct matchesAllTerms_no_terms as [H1 H2].
  split; [apply H1|].
  assert (H : parseSearchQuery (trim " ; ") = []) by reflexivity.
  split; [exact H | apply H2; exact H].
Defined.

(** C2 as the specification words it does not hold: on the empty term
    list the matcher does not return false. *)
Lemma matchesAllTerms_no_terms_is_not_false :
  matchesAllTerms "Hello there" [] false <> false.
Proof. vm_compute. discriminate. Qed.

(** C3 (as the code has it).  Parsing the query made of two double quotes
    yields no phrase term, the quote pattern asking for at least one code
    unit between the quotes; the two quotes stay in the remainder and
    come out as one keyword term, whose value is the two quotes. *)
Theorem parse_empty_quotes :
  parseSearchQuery emptyQuotes = [{| type := keyword; value := emptyQuotes |}].
Proof. reflexivity. Qed.

(** C3 as the specification words it does not hold: the parser yields a
    term. *)
Lemma parse_empty_quotes_has_a_term :
  parseSearchQuery emptyQuotes <> [].
Proof. vm_compute. discriminate. Qed.

(** C4 (as the code has it).  Parsing the query of a quoted a b, c and a
    quoted d, separated by semicolons, yields exactly three terms, the
    phrases first in their order and then the keyword: phrase a b, phrase
    d, keyword c; the quotes are stripped. *)
Theorem parse_three_terms_phrases_first :
  parseSearchQuery threeTermQuery
  = [{| type := phrase; value := "a b" |};
     {| type := phrase; value := "d" |};
     {| type := keyword; value := "c" |}].
Proof. reflexivity. Qed.

(** C4 as the specification words it does not hold: the terms do not come
    in the order phrase a b, keyword c, phrase d. *)
Lemma parse_three_terms_not_in_query_order :
  parseSearchQuery threeTermQuery
  <> [{| type := phrase; value := "a b" |};
      {| type := keyword; value := "c" |};
      {| type := phrase; value := "d" |}].
Proof. vm_compute. discriminate. Qed.

(** C5 (as the code has it).  For every text, every term list whose values
    are not empty and every case flag, [countMatches] returns, and what it
    returns is the sum over the terms of the number of occurrences of the
    term's value in the text found from left to right, the search going
    on right after the end of each occurrence found (text and value
    folded to lower case unless the search is case sensitive).  In
    particular the count of aa in aaa is 1. *)
Theorem countMatches_nonoverlapping :
  (forall fuel text terms caseSensitive,
     valuesNonEmpty terms ->
     String.length text < fuel ->
     exists counts,
       Forall2 (fun term n =>
                  NonOverlapping (folded caseSensitive text)
                    (folded caseSensitive (value term)) 0 n) terms counts /\
       countMatches fuel text terms caseSensitive = Some (list_sum counts)) /\
  (forall fuel,
     3 < fuel ->
     countMatches fuel "aaa" [{| type := keyword; value := "aa" |}] false
     = Some 1).
Proof.
  split.
  - intros fuel text terms caseSensitive Hterms Hfuel.
    unfold countMatches. fold (folded caseSensitive text).
    destruct (countMatches_for_spec fuel (folded caseSensitive text) terms
                caseSensitive 0 Hterms) as (counts & Hcounts & Hrun).
    + now rewrite folded_length.
    + exists counts. split; [exact Hcounts | exact Hrun].
  - intros fuel Hfuel.
    destruct fuel as [|[|fuel]]; [lia | lia | reflexivity].
Qed.

Lemma countMatches_nonoverlapping_witness :
  valuesNonEmpty [{| type := keyword; value := "ab" |};
                  {| type := phrase; value := "b" |}] /\
  String.length "abcab" < 6 /\
  (exists counts,
     Forall2 (fun term n =>
                NonOverlapping (folded true "abcab")
                  (folded true (value term)) 0 n)
       [{| type := keyword; value := "ab" |};
        {| type := phrase; value := "b" |}] counts /\
     countMatches 6 "abcab"
       [{| type := keyword; value := "ab" |};
        {| type := phrase; value := "b" |}] true = Some (list_sum counts)) /\
  countMatches 4 "aaa" [{| type := keyword; value := "aa" |}] false = Some 1.
Proof.
  destruct countMatches_nonoverlapping as [H1 H2].
  assert (Hv : valuesNonEmpty [{| type := keyword; value := "ab" |};
                               {| type := phrase; value := "b" |}])
    by (repeat constructor; discriminate).
  assert (Hl : String.length "abcab" < 6) by (simpl; lia).
  split; [exact Hv|]. split; [exact Hl|]. split.
  - exact (H1 6 "abcab" _ true Hv Hl).
  - apply H2. lia.
Defined.

(** C5 as the specification words it does not hold: for a term list that
    is not empty but holds the empty string as a value, [countMatches]
    never returns. *)
Lemma countMatches_empty_value_never_returns :
  ~ exists fuel n,
      countMatches fuel "a" [{| type := keyword; value := EmptyString |}] false
      = Some n.
Proof.
  intros (fuel & n & H). unfold countMatches in H. simpl in H.
  now rewrite countMatches_while_empty_value in H.
Qed.

(** C6.  For every query and every corpus, an utterance that the speaker
    filter excludes (the filter is not all and differs from the
    utterance's speaker type: a customer utterance under the filter agent,
    an agent utterance under the filter customer) is skipped before
    matching.  Replacing excluded utterances by other excluded utterances
    changes nothing of what the search shows: the matching utterances of
    every result, its match total, the global match total and the page are
    the same.  No excluded utterance is in a list of matching utterances,
    the match total of a result is the sum of the counts of its entries,
    and the global total is the sum of the totals of the results. *)
Theorem speaker_filter_exclusive
    (fuel : nat) (TRANSCRIPTS TRANSCRIPTS' : list Transcript)
    (speakerFilter : string) (caseSensitive : bool) (searchInput : string) :
  Forall2 (sameVisibleTranscript speakerFilter) TRANSCRIPTS TRANSCRIPTS' ->
  shown (performSearch fuel TRANSCRIPTS speakerFilter caseSensitive
           searchInput)
  = shown (performSearch fuel TRANSCRIPTS' speakerFilter caseSensitive
             searchInput) /\
  forall results total html,
    performSearch fuel TRANSCRIPTS speakerFilter caseSensitive searchInput
    = Some (ShowResults results total html) ->
    (forall r m, In r results -> In m (matchingUtterances r) ->
       ~ hiddenBy speakerFilter (utterance m)) /\
    (forall r, In r results ->
       totalMatches r = list_sum (map matchCount (matchingUtterances r))) /\
    total = list_sum (map totalMatches results).
Proof.
  intros Hrel.
  destruct (parseSearchQuery (trim searchInput)) as [|term terms] eqn:Eterms.
  { rewrite !performSearch_no_terms by exact Eterms.
    split; [reflexivity | discriminate]. }
  assert (Hne : parseSearchQuery (trim searchInput) <> [])
    by (rewrite Eterms; discriminate).
  rewrite !(performSearch_with_terms _ _ _ _ _ Hne).
  set (ts := parseSearchQuery (trim searchInput)) in *.
  pose proof (scanTranscripts_sameVisible fuel ts speakerFilter
                caseSensitive _ _ [] [] 0 Hrel (Forall2_nil _)) as Hsame.
  destruct (scanTranscripts fuel ts speakerFilter caseSensitive
              TRANSCRIPTS [] 0) as [[results total]|] eqn:Hscan;
    destruct (scanTranscripts fuel ts speakerFilter caseSensitive
                TRANSCRIPTS' [] 0) as [[results' total']|];
    try contradiction.
  - destruct Hsame as [Hres <-]. split.
    + simpl. rewrite (shownResults_sameShown _ _ Hres).
      now rewrite (renderResults_sameShown _ _ ts caseSensitive Hres).
    + intros results0 total0 html0 [= <- <- <-].
      destruct (scanTranscripts_added _ _ _ _ _ _ _ _ _ Hscan)
        as (added & Hadd & Htotal & Hadded & _).
      simpl in Hadd, Htotal. subst added. rewrite Forall_forall in Hadded.
      assert (Hentries : forall r, In r results ->
                exists entries,
                  matchingUtterances r = entries /\
                  totalMatches r = list_sum (map matchCount entries) /\
                  Forall (fun m => Qualifies ts speakerFilter caseSensitive
                                     (utterance m)) entries).
      { intros r Hr. destruct (Hadded r Hr) as (_ & _ & Hr_scan).
        destruct (scanUtterances_entries _ _ _ _ _ _ _ _ _ _ Hr_scan)
          as (entries & He & Hsum & Hq).
        exists entries. repeat split; [exact He | exact Hsum |].
        eapply Forall_impl; [|exact Hq]. now intros m [_ Hm]. }
      repeat split.
      * intros r m Hr Hm. destruct (Hentries r Hr) as (entries & He & _ & Hq).
        rewrite He in Hm. rewrite Forall_forall in Hq.
        destruct (Hq m Hm) as [Hpass _].
        intros Hhid. exact (hidden_not_passes _ _ Hhid Hpass).
      * intros r Hr. destruct (Hentries r Hr) as (entries & He & Hsum & _).
        now rewrite He.
      * exact Htotal.
  - split; [reflexivity | discriminate].
Qed.

Lemma speaker_filter_exclusive_witness :
  Forall2 (sameVisibleTranscript "agent") [helpCall] [thanksCall] /\
  shown (performSearch 30 [helpCall] "agent" false "hello")
  = shown (performSearch 30 [thanksCall] "agent" false "hello") /\
  forall results total html,
    performSearch 30 [helpCall] "agent" false "hello"
    = Some (ShowResults results total html) ->
    (forall r m, In r results -> In m (matchingUtterances r) ->
       ~ hiddenBy "agent" (utterance m)) /\
    (forall r, In r results ->
       totalMatches r = list_sum (map matchCount (matchingUtterances r))) /\
    total = list_sum (map totalMatches results).
Proof.
  assert (H : Forall2 (sameVisibleTranscript "agent") [helpCall] [thanksCall]).
  { constructor; [|constructor].
    repeat split; simpl.
    constructor; [now left|].
    constructor; [|constructor].
    right. split; split; simpl; discriminate. }
  split; [exact H|].
  exact (speaker_filter_exclusive 30 [helpCall] [thanksCall] "agent" false
           "hello" H).
Defined.

(** C7.  For every list of matched utterances in the order of their
    original indices, the renderer puts a gap marker before a matched
    utterance exactly when a previous match exists and the utterance's
    index is not the previous index plus one; never before the first
    match.  For matched indices 2, 3 and 7 exactly one gap marker is put,
    between the utterance of index 3 and the utterance of index 7. *)
Theorem gap_marker_rule :
  (forall transcript matching highlightRegex,
     inIndexOrder matching ->
     renderUtterances transcript matching highlightRegex
     = withGapMarkers highlightRegex None matching) /\
  (forall transcript highlightRegex a b c ca cb cc,
     renderUtterances transcript
       [{| utterance := a; index := 2; matchCount := ca |};
        {| utterance := b; index := 3; matchCount := cb |};
        {| utterance := c; index := 7; matchCount := cc |}] highlightRegex
     = [utteranceHtml highlightRegex
          {| utterance := a; index := 2; matchCount := ca |};
        utteranceHtml highlightRegex
          {| utterance := b; index := 3; matchCount := cb |};
        ContextIndicator;
        utteranceHtml highlightRegex
          {| utterance := c; index := 7; matchCount := cc |}]).
Proof.
  split.
  - intros transcript matching highlightRegex Hs.
    unfold renderUtterances.
    apply (renderUtterances_for_gaps highlightRegex matching [] None Hs).
    discriminate.
  - reflexivity.
Qed.

Lemma gap_marker_rule_witness :
  inIndexOrder [matchedAt agentHello 0; matchedAt customerHelp 1;
                matchedAt agentHello 4] /\
  renderUtterances helpCall
    [matchedAt agentHello 0; matchedAt customerHelp 1;
     matchedAt agentHello 4]
    (createHighlightRegex [{| type := keyword; value := "he" |}] false)
  = withGapMarkers
      (createHighlightRegex [{| type := keyword; value := "he" |}] false)
      None
      [matchedAt agentHello 0; matchedAt customerHelp 1;
       matchedAt agentHello 4].
Proof.
  assert (H : inIndexOrder [matchedAt agentHello 0; matchedAt customerHelp 1;
                            matchedAt agentHello 4]).
  { repeat constructor. }
  split; [exact H|].
  exact (proj1 gap_marker_rule helpCall _ _ H).
Defined.

(** C8 (as the code has it).  For every corpus whose utterances all have a
    string [text], as the corpus written into the page has, running a
    search raises no error, and the scan of all utterances and transcripts
    runs to its end; an utterance whose text is the empty string matches
    no parsed term list.  A missing text is not taken as the empty
    string. *)
Theorem search_on_string_texts
    (fuel : nat) (TRANSCRIPTS : list Transcript) (speakerFilter : string)
    (caseSensitive : bool) (searchInput : string) :
  Dynamic.performSearch fuel (map Dynamic.transcriptObject TRANSCRIPTS)
    speakerFilter caseSensitive searchInput <> Dynamic.TypeError /\
  (textsShorterThan fuel TRANSCRIPTS ->
   exists view,
     performSearch fuel TRANSCRIPTS speakerFilter caseSensitive searchInput
     = Some view /\
     Dynamic.performSearch fuel (map Dynamic.transcriptObject TRANSCRIPTS)
       speakerFilter caseSensitive searchInput
     = Dynamic.Returns (viewObject view)) /\
  (parseSearchQuery (trim searchInput) <> [] ->
   matchesAllTerms EmptyString (parseSearchQuery (trim searchInput))
     caseSensitive = false).
Proof.
  rewrite dynamic_performSearch. repeat split.
  - now destruct (performSearch fuel TRANSCRIPTS speakerFilter caseSensitive
                    searchInput).
  - intros Hfuel.
    destruct (performSearch_returns fuel TRANSCRIPTS speakerFilter
                caseSensitive searchInput Hfuel) as [view Hview].
    exists view. rewrite Hview. now split.
  - intros Hne. apply matchesAllTerms_empty_text; [exact Hne|].
    apply parseSearchQuery_valuesNonEmpty.
Qed.

Lemma search_on_string_texts_witness :
  textsShorterThan 20 [helpCall] /\
  parseSearchQuery (trim "help") <> [] /\
  Dynamic.performSearch 20 (map Dynamic.transcriptObject [helpCall])
    "all" false "help" <> Dynamic.TypeError /\
  (exists view,
     performSearch 20 [helpCall] "all" false "help" = Some view /\
     Dynamic.performSearch 20 (map Dynamic.transcriptObject [helpCall])
       "all" false "help" = Dynamic.Returns (viewObject view)) /\
  matchesAllTerms EmptyString (parseSearchQuery (trim "help")) false = false.
Proof.
  assert (H1 : textsShorterThan 20 [helpCall]).
  { intros t u [<- | []] [<- | [<- | []]]; simpl; lia. }
  assert (H2 : parseSearchQuery (trim "help") <> [])
    by (vm_compute; discriminate).
  destruct (search_on_string_texts 20 [helpCall] "all" false "help")
    as (Ha & Hb & Hc).
  split; [exact H1|]. split; [exact H2|]. split; [exact Ha|].
  split; [exact (Hb H1) | exact (Hc H2)].
Defined.

(** C8 as the specification words it does not hold: with an utterance
    whose text is missing, the search raises a [TypeError], and the
    customer utterance after it, which contains the term, is never read. *)
Lemma search_raises_on_missing_text :
  Dynamic.performSearch 20 [brokenCall] "all" false "help"
  = Dynamic.TypeError.
Proof. reflexivity. Qed.

(** C9 (as the code has it).  For every text and every case flag,
    [highlightTextInModal] with an empty term list returns the text as it
    is.  The highlighting of the result cards, by the pattern of
    [createHighlightRegex], has no such case; it only runs with a term list
    that is not empty: whenever [performSearch] renders results, the
    parsed term list is not empty. *)
Theorem highlight_no_terms :
  (forall caseSensitive text,
     highlightTextInModal caseSensitive text [] = text) /\
  (forall fuel TRANSCRIPTS speakerFilter caseSensitive searchInput
          results total html,
     performSearch fuel TRANSCRIPTS speakerFilter caseSensitive searchInput
     = Some (ShowResults results total html) ->
     parseSearchQuery (trim searchInput) <> [] /\
     html = renderResults results (parseSearchQuery (trim searchInput))
              caseSensitive).
Proof.
  split; [reflexivity|].
  intros fuel TRANSCRIPTS speakerFilter caseSensitive searchInput
    results total html H.
  destruct (parseSearchQuery (trim searchInput)) as [|term terms] eqn:E.
  - rewrite performSearch_no_terms in H by exact E. discriminate.
  - assert (Hne : parseSearchQuery (trim searchInput) <> [])
      by (rewrite E; discriminate).
    rewrite (performSearch_with_terms _ _ _ _ _ Hne) in H.
    destruct (scanTranscripts _ _ _ _ _ _ _) as [[results0 total0]|];
      [|discriminate].
    injection H as <- <- <-. rewrite E. split; [discriminate | reflexivity].
Qed.

Lemma highlight_no_terms_witness :
  highlightTextInModal false "I need help" [] = "I need help" /\
  exists results total html,
    performSearch 20 [helpCall] "all" false "help"
    = Some (ShowResults results total html) /\
    parseSearchQuery (trim "help") <> [] /\
    html = renderResults results (parseSearchQuery (trim "help")) false.
Proof.
  destruct highlight_no_terms as [H1 H2].
  split; [apply H1|].
  assert (E : exists results total html,
             performSearch 20 [helpCall] "all" false "help"
             = Some (ShowResults results total html))
    by (vm_compute; eexists _, _, _; reflexivity).
  destruct E as (results & total & html & E).
  exists results, total, html. split; [exact E|].
  exact (H2 _ _ _ _ _ _ _ _ E).
Defined.

(** C9 as the specification words it does not hold: the replacement with
    the pattern that [createHighlightRegex] builds from the empty term list
    puts an empty mark at every position of the text. *)
Lemma card_highlight_no_terms_changes_text :
  replaceWithMark "ab" (createHighlightRegex [] false) <> "ab".
Proof. vm_compute. discriminate. Qed.

(** C10.  For every query string, every term that the parser yields has a
    value that is not empty.  So [countMatches] on the parsed terms always
    returns, for every text and case flag; with the empty string as the
    value of a term its scan from left to right would never end. *)
Theorem parsed_terms_have_values :
  (forall query, valuesNonEmpty (parseSearchQuery query)) /\
  (forall query fuel text caseSensitive,
     String.length text < fuel ->
     exists count,
       countMatches fuel text (parseSearchQuery query) caseSensitive
       = Some count) /\
  (forall fuel text kind caseSensitive,
     countMatches fuel text [{| type := kind; value := EmptyString |}]
       caseSensitive = None).
Proof.
  repeat split.
  - exact parseSearchQuery_valuesNonEmpty.
  - intros query fuel text caseSensitive Hfuel.
    apply countMatches_total; [|exact Hfuel].
    apply parseSearchQuery_valuesNonEmpty.
  - intros fuel text kind caseSensitive. unfold countMatches. simpl.
    replace (if caseSensitive then EmptyString else EmptyString)
      with EmptyString by (now destruct caseSensitive).
    now rewrite countMatches_while_empty_value.
Qed.

Lemma parsed_terms_have_values_witness :
  valuesNonEmpty (parseSearchQuery threeTermQuery) /\
  String.length "a b c d" < 8 /\
  exists count,
    countMatches 8 "a b c d" (parseSearchQuery threeTermQuery) false
    = Some count.
Proof.
  destruct parsed_terms_have_values as (H1 & H2 & _).
  assert (Hl : String.length "a b c d" < 8) by (simpl; lia).
  split; [apply H1|]. split; [exact Hl|].
  exact (H2 threeTermQuery 8 "a b c d" false Hl).
Defined.

(** * Further properties of the query parser *)

Section ParserShape.

Lemma pushKeywords_app (parts : list string) (terms : list SearchTerm) :
  pushKeywords terms parts
  = terms ++ map keywordTerm (filter nonEmpty parts).
Proof.
  revert terms. induction parts as [|part parts IH]; intros terms; simpl.
  - now rewrite app_nil_r.
  - destruct (nonEmpty part); [|apply IH].
    rewrite IH, <- app_assoc. reflexivity.
Qed.

Lemma filter_idempotent {A : Type} (f : A -> bool) (l : list A) :
  filter f (filter f l) = filter f l.
Proof.
  induction l as [|a l IH]; simpl; [reflexivity|].
  destruct (f a) eqn:E; simpl; [rewrite E, IH|]; easy.
Qed.

Lemma pushKeywords_keywordParts (terms : list SearchTerm)
    (remaining : string) :
  pushKeywords terms (keywordParts remaining)
  = terms ++ map keywordTerm (keywordParts remaining).
Proof.
  rewrite pushKeywords_app. unfold keywordParts.
  now rewrite filter_idempotent.
Qed.

Lemma spanNonQuote_run (s run rest : string) :
  spanNonQuote s = (run, rest) -> occurs dquote run = false.
Proof.
  revert run rest. induction s as [|c s IH]; intros run rest; simpl.
  - now intros [= <- <-].
  - destruct (Ascii.eqb c dquote) eqn:E.
    + now intros [= <- <-].
    + destruct (spanNonQuote s) as [run' rest'].
      intros [= <- <-]. simpl. rewrite E. now apply (IH run' rest').
Qed.

Lemma quoteRegex_exec_no_quote (unread match1 unread' : string) :
  quoteRegex_exec unread = Some (match1, unread') ->
  occurs dquote match1 = false.
Proof.
  induction unread as [|c s IH]; simpl; [discriminate|].
  destruct (Ascii.eqb c dquote); [|exact IH].
  destruct (spanNonQuote s) as [run rest] eqn:E.
  destruct run as [|r run]; [exact IH|].
  destruct rest as [|q rest]; [exact IH|].
  destruct (Ascii.eqb q dquote); [|exact IH].
  intros [= <- <-]. now apply spanNonQuote_run in E.
Qed.

Lemma extractPhrases_phrases (fuel : nat) (unread : string)
    (terms terms' : list SearchTerm) (remaining remaining' : string) :
  extractPhrases fuel unread terms remaining = Some (terms', remaining') ->
  exists phrases,
    terms' = terms ++ map phraseTerm phrases /\ Forall phraseShape phrases.
Proof.
  revert unread terms remaining.
  induction fuel as [|fuel IH]; intros unread terms remaining; simpl;
    [discriminate|].
  destruct (quoteRegex_exec unread) as [[match1 unread']|] eqn:E.
  - intros H. destruct (IH _ _ _ H) as (phrases & Hterms & Hshape).
    exists (match1 :: phrases). split.
    + rewrite Hterms, <- app_assoc. reflexivity.
    + constructor; [|exact Hshape]. split.
      * now apply quoteRegex_exec_Some in E.
      * now apply quoteRegex_exec_no_quote in E.
  - intros [= <- <-]. exists []. split; [now rewrite app_nil_r | constructor].
Qed.

Lemma parseSearchQuery_structure (query : string) :
  exists phrases remaining,
    parseSearchQuery query
    = map phraseTerm phrases ++ map keywordTerm (keywordParts remaining) /\
    Forall phraseShape phrases.
Proof.
  unfold parseSearchQuery, parseSearchQuery_fuel.
  destruct (extractPhrases_total (S (String.length query)) query [] query
              ltac:(lia)) as [[terms remaining] E].
  rewrite E. destruct (extractPhrases_phrases _ _ _ _ _ _ E)
    as (phrases & Hterms & Hshape).
  exists phrases, remaining. split; [|exact Hshape].
  rewrite pushKeywords_keywordParts, Hterms. reflexivity.
Qed.

Lemma split_no_separator (sep : ascii) (s piece : string) :
  In piece (split sep s) -> occurs sep piece = false.
Proof.
  revert piece. induction s as [|c s IH]; intros piece; simpl.
  - now intros [<- | []].
  - destruct (Ascii.eqb c sep) eqn:E.
    + intros [<- | Hin]; [reflexivity | now apply IH].
    + destruct (split sep s) as [|first pieces] eqn:Es.
      * intros [<- | []]. simpl. now rewrite E.
      * intros [<- | Hin].
        -- simpl. rewrite E. apply IH. now left.
        -- apply IH. now right.
Qed.

Lemma trimStart_occurs (c : ascii) (s : string) :
  occurs c s = false -> occurs c (trimStart s) = false.
Proof.
  induction s as [|d s IH]; simpl; [easy|].
  intros H. apply orb_false_iff in H. destruct H as [H1 H2].
  destruct (isWhiteSpace d); [now apply IH|].
  simpl. now rewrite H1, H2.
Qed.

Lemma trimEnd_occurs (c : ascii) (s : string) :
  occurs c s = false -> occurs c (trimEnd s) = false.
Proof.
  induction s as [|d s IH]; simpl; [easy|].
  intros H. apply orb_false_iff in H. destruct H as [H1 H2].
  specialize (IH H2).
  destruct (trimEnd s) as [|e r].
  - destruct (isWhiteSpace d); simpl; [reflexivity | now rewrite H1].
  - simpl. rewrite H1. exact IH.
Qed.

Lemma trimEnd_idempotent (s : string) : trimEnd (trimEnd s) = trimEnd s.
Proof.
  induction s as [|c s IH]; simpl; [reflexivity|].
  destruct (trimEnd s) as [|e r] eqn:E.
  - destruct (isWhiteSpace c) eqn:W; simpl; [reflexivity | now rewrite W].
  - simpl in IH |- *. now rewrite IH.
Qed.

(** What [trimEnd] leaves starts like its argument. *)
Lemma trimEnd_first (c : ascii) (s : string) :
  isWhiteSpace c = false ->
  exists r, trimEnd (String c s) = String c r.
Proof.
  intros W. simpl. destruct (trimEnd s) as [|e r].
  - rewrite W. now exists EmptyString.
  - now exists (String e r).
Qed.

Lemma trimStart_fixed (s : string) :
  match s with
  | EmptyString => True
  | String c _ => isWhiteSpace c = false
  end ->
  trimStart s = s.
Proof. destruct s as [|c s]; simpl; [easy | now intros ->]. Qed.

Lemma trimStart_first (s : string) :
  match trimStart s with
  | EmptyString => True
  | String c _ => isWhiteSpace c = false
  end.
Proof.
  induction s as [|c s IH]; simpl; [exact I|].
  destruct (isWhiteSpace c) eqn:W; [exact IH | exact W].
Qed.

Lemma trim_idempotent (s : string) : trim (trim s) = trim s.
Proof.
  unfold trim. pose proof (trimStart_first s) as Hfirst.
  destruct (trimStart s) as [|c t] eqn:E; [reflexivity|].
  destruct (trimEnd_first c t Hfirst) as [r Hr]. rewrite Hr.
  rewrite trimStart_fixed by exact Hfirst.
  rewrite <- Hr. apply trimEnd_idempotent.
Qed.

Lemma keywordParts_shape (remaining : string) :
  Forall keywordShape (keywordParts remaining).
Proof.
  apply Forall_forall. intros k Hk. unfold keywordParts in Hk.
  apply filter_In in Hk. destruct Hk as [Hin Hne].
  apply in_map_iff in Hin. destruct Hin as (piece & <- & Hpiece).
  repeat split.
  - now apply nonEmpty_true.
  - apply trimEnd_occurs, trimStart_occurs.
    now apply (split_no_separator _ remaining).
  - apply trim_idempotent.
Qed.

Lemma occurs_app (c : ascii) (a b : string) :
  occurs c (a ++ b) = occurs c a || occurs c b.
Proof.
  induction a as [|d a IH]; simpl; [reflexivity|].
  now rewrite IH, orb_assoc.
Qed.

Lemma quoteRegex_exec_skip (before rest : string) :
  occurs dquote before = false ->
  quoteRegex_exec (before ++ rest) = quoteRegex_exec rest.
Proof.
  induction before as [|c before IH]; simpl; [reflexivity|].
  intros H. apply orb_false_iff in H. destruct H as [H1 H2].
  rewrite H1. now apply IH.
Qed.

Lemma quoteRegex_exec_none (s : string) :
  occurs dquote s = false -> quoteRegex_exec s = None.
Proof.
  intros H. rewrite <- (string_app_nil_r s).
  now rewrite quoteRegex_exec_skip.
Qed.

Lemma spanNonQuote_app_quote (p rest : string) :
  occurs dquote p = false ->
  spanNonQuote (p ++ String dquote rest) = (p, String dquote rest).
Proof.
  induction p as [|c p IH]; simpl.
  - intros _. reflexivity.
  - intros H. apply orb_false_iff in H. destruct H as [H1 H2].
    rewrite H1, IH by exact H2. reflexivity.
Qed.

Lemma quoted_app (p rest : string) :
  (quoted p ++ rest)%string = String dquote (p ++ String dquote rest).
Proof.
  unfold quoted. simpl. now rewrite string_app_assoc.
Qed.

Lemma quoteRegex_exec_quoted (p rest : string) :
  phraseShape p ->
  quoteRegex_exec (quoted p ++ rest) = Some (p, rest).
Proof.
  intros [Hne Hq]. rewrite quoted_app.
  cbn [quoteRegex_exec]. change (Ascii.eqb dquote dquote) with true.
  cbv iota. rewrite spanNonQuote_app_quote by exact Hq.
  destruct p as [|c p]; [congruence | reflexivity].
Qed.

Lemma startsWith_app (v rest : string) : startsWith (v ++ rest) v = true.
Proof. apply startsWith_spec. now exists rest. Qed.

Lemma drop_app_length (v rest : string) :
  drop (String.length v) (v ++ rest) = rest.
Proof. induction v as [|c v IH]; simpl; [now destruct rest | exact IH]. Qed.

Lemma removeFirst_eq (s pat : string) :
  removeFirst s pat =
  if startsWith s pat then drop (String.length pat) s
  else match s with
       | EmptyString => EmptyString
       | String c s' => String c (removeFirst s' pat)
       end.
Proof. destruct s; reflexivity. Qed.

Lemma removeFirst_quoted (done p rest : string) :
  occurs dquote done = false ->
  removeFirst (done ++ quoted p ++ rest) (quoted p) = (done ++ rest)%string.
Proof.
  induction done as [|c done IH]; intros H.
  - cbn [append]. rewrite removeFirst_eq, startsWith_app.
    apply drop_app_length.
  - simpl in H. apply orb_false_iff in H. destruct H as [H1 H2].
    cbn [append]. rewrite removeFirst_eq.
    assert (Hs : startsWith (String c (done ++ quoted p ++ rest)) (quoted p)
                 = false).
    { destruct (startsWith _ (quoted p)) eqn:E; [|reflexivity].
      apply startsWith_spec in E. destruct E as [after E].
      rewrite quoted_app in E. injection E as -> _.
      now rewrite Ascii.eqb_refl in H1. }
    rewrite Hs. now rewrite IH.
Qed.

Lemma extractPhrases_quotedQuery (segments : list (string * string))
    (last done : string) (terms : list SearchTerm) (fuel : nat) :
  Forall segmentShape segments ->
  occurs dquote last = false ->
  occurs dquote done = false ->
  List.length segments < fuel ->
  extractPhrases fuel (quotedQuery segments last) terms
    (done ++ quotedQuery segments last)
  = Some (terms ++ map phraseTerm (map snd segments),
          (done ++ unquotedText segments last)%string).
Proof.
  intros Hsegs Hlast. revert done terms fuel.
  induction Hsegs as [|[before p] segments [Hbefore Hp] Hsegs IH];
    intros done terms fuel Hdone Hfuel;
    (destruct fuel as [|fuel]; [simpl in Hfuel; lia|]).
  - cbn [quotedQuery unquotedText extractPhrases map].
    rewrite quoteRegex_exec_none by exact Hlast. now rewrite app_nil_r.
  - cbn [quotedQuery unquotedText extractPhrases map snd].
    simpl in Hbefore, Hp, Hfuel.
    rewrite quoteRegex_exec_skip by exact Hbefore.
    rewrite quoteRegex_exec_quoted by exact Hp.
    rewrite <- (string_app_assoc done before).
    rewrite removeFirst_quoted
      by (rewrite occurs_app, Hdone, Hbefore; reflexivity).
    rewrite IH; [|rewrite occurs_app, Hdone, Hbefore; reflexivity | lia].
    rewrite <- app_assoc, string_app_assoc. reflexivity.
Qed.

Lemma quotedQuery_length (segments : list (string * string)) (last : string) :
  List.length segments <= String.length (quotedQuery segments last).
Proof.
  induction segments as [|[before p] segments IH]; simpl; [lia|].
  rewrite string_length_app. simpl. rewrite string_length_app. lia.
Qed.

Lemma parseSearchQuery_quotedQuery (segments : list (string * string))
    (last : string) :
  Forall segmentShape segments ->
  occurs dquote last = false ->
  parseSearchQuery (quotedQuery segments last)
  = map phraseTerm (map snd segments)
    ++ map keywordTerm (keywordParts (unquotedText segments last)).
Proof.
  intros Hsegs Hlast. unfold parseSearchQuery, parseSearchQuery_fuel.
  pose proof (extractPhrases_quotedQuery segments last EmptyString []
                (S (String.length (quotedQuery segments last)))
                Hsegs Hlast eq_refl) as H.
  cbn [append app] in H. rewrite H.
  - apply pushKeywords_keywordParts.
  - pose proof (quotedQuery_length segments last). lia.
Qed.

Lemma allUnits_impl (f g : ascii -> bool) (s : string) :
  (forall c, f c = true -> g c = true) ->
  allUnits f s = true -> allUnits g s = true.
Proof.
  intros Hfg. induction s as [|c s IH]; simpl; [easy|].
  rewrite !andb_true_iff. intros [H1 H2]. split; [now apply Hfg | now apply IH].
Qed.

Lemma allUnits_occurs (f : ascii -> bool) (c : ascii) (s : string) :
  f c = false -> allUnits f s = true -> occurs c s = false.
Proof.
  intros Hc. induction s as [|d s IH]; simpl; [easy|].
  rewrite andb_true_iff. intros [H1 H2]. rewrite IH by exact H2.
  destruct (Ascii.eqb_spec d c) as [-> | _]; [congruence | reflexivity].
Qed.

Lemma trimStart_allUnits (f : ascii -> bool) (s : string) :
  allUnits f s = true -> allUnits f (trimStart s) = true.
Proof.
  induction s as [|c s IH]; simpl; [easy|].
  rewrite andb_true_iff. intros [H1 H2].
  destruct (isWhiteSpace c); [now apply IH|].
  simpl. now rewrite H1, H2.
Qed.

Lemma trimEnd_allUnits (f : ascii -> bool) (s : string) :
  allUnits f s = true -> allUnits f (trimEnd s) = true.
Proof.
  induction s as [|c s IH]; simpl; [easy|].
  rewrite andb_true_iff. intros [H1 H2]. specialize (IH H2).
  destruct (trimEnd s) as [|e r].
  - destruct (isWhiteSpace c); simpl; [reflexivity | now rewrite H1].
  - simpl in IH |- *. now rewrite H1, IH.
Qed.

Lemma trimStart_white (s : string) :
  allUnits isWhiteSpace s = true -> trimStart s = EmptyString.
Proof.
  induction s as [|c s IH]; simpl; [easy|].
  rewrite andb_true_iff. intros [-> H2]. now apply IH.
Qed.

Lemma split_allUnits (f : ascii -> bool) (sep : ascii) (s piece : string) :
  allUnits f s = true -> In piece (split sep s) ->
  allUnits f piece = true.
Proof.
  revert piece. induction s as [|c s IH]; intros piece; simpl.
  - now intros _ [<- | []].
  - rewrite andb_true_iff. intros [H1 H2].
    destruct (Ascii.eqb c sep).
    + intros [<- | Hin]; [reflexivity | now apply IH].
    + destruct (split sep s) as [|first pieces] eqn:Es.
      * intros [<- | []]. simpl. now rewrite H1.
      * intros [<- | Hin].
        -- simpl. rewrite H1. apply IH; [exact H2 | now left].
        -- apply IH; [exact H2 | now right].
Qed.

Lemma allUnits_white (piece : string) :
  allUnits isSeparator piece = true -> occurs ";" piece = false ->
  allUnits isWhiteSpace piece = true.
Proof.
  induction piece as [|c piece IH]; simpl; [easy|].
  rewrite andb_true_iff, orb_false_iff. intros [H1 H2] [H3 H4].
  unfold isSeparator in H1. rewrite H3, orb_false_r in H1.
  now rewrite H1, IH.
Qed.

Lemma keywordParts_separators (s : string) :
  allUnits isSeparator s = true -> keywordParts s = [].
Proof.
  intros H. unfold keywordParts.
  assert (Hall : forall piece, In piece (split ";" s) ->
                   trim piece = EmptyString).
  { intros piece Hin. unfold trim.
    rewrite trimStart_white; [reflexivity|].
    apply allUnits_white.
    - now apply (split_allUnits _ ";" s).
    - now apply (split_no_separator _ s). }
  induction (split ";" s) as [|piece pieces IH]; [reflexivity|].
  simpl. rewrite (Hall piece) by now left. simpl.
  apply IH. intros p Hp. apply Hall. now right.
Qed.

Lemma parseSearchQuery_separators (s : string) :
  allUnits isSeparator s = true -> parseSearchQuery s = [].
Proof.
  intros H.
  assert (Hq : occurs dquote s = false)
    by (apply (allUnits_occurs isSeparator); [reflexivity | exact H]).
  pose proof (parseSearchQuery_quotedQuery [] s (Forall_nil _) Hq) as Hp.
  cbn [quotedQuery unquotedText map app] in Hp.
  now rewrite Hp, keywordParts_separators.
Qed.

End ParserShape.

(** X1.  For every query, the parsed term list is a list of phrase terms
    followed by a list of keyword terms: no keyword comes before a
    phrase, wherever the phrases stand in the query. *)
Theorem parse_phrases_before_keywords (query : string) :
  exists phrases keywords,
    parseSearchQuery query
    = map phraseTerm phrases ++ map keywordTerm keywords.
Proof.
  destruct (parseSearchQuery_structure query)
    as (phrases & remaining & H & _).
  now exists phrases, (keywordParts remaining).
Qed.

(** X2.  For every query, a parsed phrase term has a value that is not
    empty and holds no double quote; a parsed keyword term has a value
    that is not empty, holds no semicolon, and has no white space at
    either end ([trim] leaves it as it is). *)
Theorem parse_value_shapes (query : string) (term : SearchTerm) :
  In term (parseSearchQuery query) ->
  match type term with
  | phrase => phraseShape (value term)
  | keyword => keywordShape (value term)
  end.
Proof.
  destruct (parseSearchQuery_structure query)
    as (phrases & remaining & -> & Hphrases).
  intros Hin. apply in_app_or in Hin. destruct Hin as [Hin | Hin];
    apply in_map_iff in Hin; destruct Hin as (v & <- & Hv); simpl.
  - rewrite Forall_forall in Hphrases. now apply Hphrases.
  - pose proof (keywordParts_shape remaining) as Hk.
    rewrite Forall_forall in Hk. now apply Hk.
Qed.

Lemma parse_value_shapes_witness :
  In (keywordTerm "c") (parseSearchQuery threeTermQuery) /\
  keywordShape "c".
Proof.
  assert (H : In (keywordTerm "c") (parseSearchQuery threeTermQuery))
    by (vm_compute; auto).
  split; [exact H|].
  exact (parse_value_shapes threeTermQuery (keywordTerm "c") H).
Defined.

(** X3.  For a query written as stretches of text without double quotes,
    each followed by a phrase in double quotes (not empty, without a
    double quote inside), and a last stretch without double quotes, the
    parser yields the phrases in their order and then the keywords of the
    text that is left when the quoted phrases are cut out: the text before
    and after a quoted phrase is joined. *)
Theorem parse_quoted_query (segments : list (string * string))
    (last : string) :
  Forall segmentShape segments ->
  occurs dquote last = false ->
  parseSearchQuery (quotedQuery segments last)
  = map phraseTerm (map snd segments)
    ++ map keywordTerm
         (filter nonEmpty
            (map trim (split ";" (unquotedText segments last)))).
Proof. exact (parseSearchQuery_quotedQuery segments last). Qed.

Lemma parse_quoted_query_witness :
  Forall segmentShape [("refund; late", "late fee"); ("r; ", "call back")] /\
  occurs dquote " ;agent" = false /\
  parseSearchQuery
    (quotedQuery [("refund; late", "late fee"); ("r; ", "call back")]
       " ;agent")
  = [phraseTerm "late fee"; phraseTerm "call back";
     keywordTerm "refund"; keywordTerm "later"; keywordTerm "agent"].
Proof.
  assert (H1 : Forall segmentShape
                 [("refund; late", "late fee"); ("r; ", "call back")]).
  { repeat constructor; discriminate. }
  assert (H2 : occurs dquote " ;agent" = false) by reflexivity.
  split; [exact H1|]. split; [exact H2|].
  exact (parse_quoted_query _ _ H1 H2).
Defined.

(** X4.  An input made only of white space and semicolons is no query:
    [performSearch] shows the empty state, whatever the corpus, the
    speaker filter, the case flag and the fuel. *)
Theorem separators_only_is_empty_state
    (fuel : nat) (TRANSCRIPTS : list Transcript) (speakerFilter : string)
    (caseSensitive : bool) (searchInput : string) :
  allUnits isSeparator searchInput = true ->
  performSearch fuel TRANSCRIPTS speakerFilter caseSensitive searchInput
  = Some ShowEmptyState.
Proof.
  intros H. apply performSearch_no_terms, parseSearchQuery_separators.
  unfold trim. now apply trimEnd_allUnits, trimStart_allUnits.
Qed.

Lemma separators_only_is_empty_state_witness :
  allUnits isSeparator " ; ;; " = true /\
  performSearch 0 [helpCall] "agent" true " ; ;; " = Some ShowEmptyState.
Proof.
  assert (H : allUnits isSeparator " ; ;; " = true) by reflexivity.
  split; [exact H|].
  exact (separators_only_is_empty_state 0 [helpCall] "agent" true _ H).
Defined.

(** * Further properties of the term matcher *)

Section MatcherAlgebra.

Lemma matchesAllTerms_for_app (searchText : string)
    (a b : list SearchTerm) (caseSensitive : bool) :
  matchesAllTerms_for searchText (a ++ b) caseSensitive
  = matchesAllTerms_for searchText a caseSensitive
    && matchesAllTerms_for searchText b caseSensitive.
Proof.
  induction a as [|term a IH]; simpl; [reflexivity|].
  destruct (negb (includes searchText _)); [reflexivity | exact IH].
Qed.

Lemma countMatches_while_shift (fuel : nat) (searchText searchValue : string)
    (pos count : nat) :
  countMatches_while fuel searchText searchValue pos count
  = option_map (Nat.add count)
      (countMatches_while fuel searchText searchValue pos 0).
Proof.
  revert pos count. induction fuel as [|fuel IH]; intros pos count; simpl;
    [reflexivity|].
  destruct (indexOf searchText searchValue pos) as [found|].
  - rewrite IH, (IH _ (0 + 1)).
    destruct (countMatches_while fuel searchText searchValue _ 0); simpl;
      [f_equal; lia | reflexivity].
  - simpl. f_equal. lia.
Qed.

Lemma countMatches_for_shift (fuel : nat) (searchText : string)
    (terms : list SearchTerm) (caseSensitive : bool) (count : nat) :
  countMatches_for fuel searchText terms caseSensitive count
  = option_map (Nat.add count)
      (countMatches_for fuel searchText terms caseSensitive 0).
Proof.
  revert count. induction terms as [|term terms IH]; intros count; simpl.
  - f_equal. lia.
  - rewrite countMatches_while_shift.
    destruct (countMatches_while fuel searchText _ 0 0) as [n|]; simpl;
      [|reflexivity].
    rewrite IH, (IH n).
    destruct (countMatches_for fuel searchText terms caseSensitive 0);
      simpl; [f_equal; lia | reflexivity].
Qed.

Lemma countMatches_for_cons (fuel : nat) (searchText : string)
    (term : SearchTerm) (terms : list SearchTerm) (caseSensitive : bool) :
  countMatches_for fuel searchText (term :: terms) caseSensitive 0
  = addCounts
      (countMatches_while fuel searchText
         (folded caseSensitive (value term)) 0 0)
      (countMatches_for fuel searchText terms caseSensitive 0).
Proof.
  simpl. fold (folded caseSensitive (value term)).
  destruct (countMatches_while fuel searchText _ 0 0) as [n|]; simpl;
    [|reflexivity].
  rewrite countMatches_for_shift.
  now destruct (countMatches_for fuel searchText terms caseSensitive 0).
Qed.

Lemma addCounts_assoc (a b c : option nat) :
  addCounts a (addCounts b c) = addCounts (addCounts a b) c.
Proof.
  destruct a, b, c; simpl; try reflexivity. f_equal. lia.
Qed.

Lemma addCounts_comm (a b : option nat) : addCounts a b = addCounts b a.
Proof. destruct a, b; simpl; try reflexivity. f_equal. lia. Qed.

Lemma countMatches_for_app (fuel : nat) (searchText : string)
    (a b : list SearchTerm) (caseSensitive : bool) :
  countMatches_for fuel searchText (a ++ b) caseSensitive 0
  = addCounts (countMatches_for fuel searchText a caseSensitive 0)
      (countMatches_for fuel searchText b caseSensitive 0).
Proof.
  induction a as [|term a IH].
  - simpl. now destruct (countMatches_for fuel searchText b caseSensitive 0).
  - rewrite <- app_comm_cons, !countMatches_for_cons, IH.
    apply addCounts_assoc.
Qed.

Lemma countMatches_for_Permutation (fuel : nat) (searchText : string)
    (terms terms' : list SearchTerm) (caseSensitive : bool) :
  Permutation terms terms' ->
  countMatches_for fuel searchText terms caseSensitive 0
  = countMatches_for fuel searchText terms' caseSensitive 0.
Proof.
  induction 1 as [|term l l' _ IH | x y l | l l' l'' _ IH1 _ IH2].
  - reflexivity.
  - now rewrite !countMatches_for_cons, IH.
  - rewrite !countMatches_for_cons, !addCounts_assoc.
    f_equal. apply addCounts_comm.
  - now rewrite IH1.
Qed.




Lemma NonOverlapping_bound (s v : string) (pos n : nat) :
  NonOverlapping s v pos n ->
  pos <= String.length s ->
  n * String.length v <= String.length s - pos.
Proof.
  induction 1 as [pos _ | pos p n Hle Hocc _ _ IH]; intros Hpos; [simpl; lia|].
  apply OccursAt_bound in Hocc. specialize (IH ltac:(lia)).
  simpl. lia.
Qed.

Lemma NonOverlapping_zero (s v : string) (n : nat) :
  NonOverlapping s v 0 n -> (n = 0 <-> ~ Contains s v).
Proof.
  rewrite Contains_OccursAt.
  intros H. inversion H as [pos Hnone | pos p m Hle Hocc Hmin Hrest]; subst.
  - split; [|reflexivity]. intros _ [p Hp]. apply (Hnone p); [lia | exact Hp].
  - split; [discriminate|]. intros Hno. exfalso. apply Hno. now exists p.
Qed.

(** The counts of the terms, one by one, with their sum. *)
Lemma countMatches_counts (fuel : nat) (text : string)
    (terms : list SearchTerm) (caseSensitive : bool) :
  valuesNonEmpty terms ->
  String.length text < fuel ->
  exists counts,
    Forall2 (fun term n =>
               NonOverlapping (folded caseSensitive text)
                 (folded caseSensitive (value term)) 0 n) terms counts /\
    countMatches fuel text terms caseSensitive = Some (list_sum counts).
Proof.
  intros Hterms Hfuel. unfold countMatches. fold (folded caseSensitive text).
  destruct (countMatches_for_spec fuel (folded caseSensitive text) terms
              caseSensitive 0 Hterms) as (counts & Hcounts & Hrun).
  - now rewrite folded_length.
  - exists counts. split; [exact Hcounts | exact Hrun].
Qed.

Lemma countMatches_bounds (fuel : nat) (text : string)
    (terms : list SearchTerm) (caseSensitive : bool) :
  valuesNonEmpty terms ->
  String.length text < fuel ->
  exists n,
    countMatches fuel text terms caseSensitive = Some n /\
    n <= List.length terms * String.length text /\
    (matchesAllTerms text terms caseSensitive = true ->
     List.length terms <= n) /\
    (n = 0 <->
     forall term, In term terms ->
       ~ Contains (folded caseSensitive text)
           (folded caseSensitive (value term))).
Proof.
  intros Hterms Hfuel.
  destruct (countMatches_counts fuel text terms caseSensitive Hterms Hfuel)
    as (counts & Hcounts & Hrun).
  exists (list_sum counts). split; [exact Hrun|].
  rewrite matchesAllTerms_spec.
  clear Hrun. induction Hcounts as [|term n terms counts Hn Hcounts IH].
  - simpl. split; [lia|]. split; [lia|].
    split; [intros _ term [] | reflexivity].
  - inversion Hterms as [|t ts Hterm Hterms']; subst.
    destruct (IH Hterms') as (Hup & Hlow & Hzero). clear IH.
    pose proof (NonOverlapping_bound _ _ _ _ Hn ltac:(lia)) as Hb.
    rewrite (folded_length caseSensitive text) in Hb.
    pose proof (folded_nonempty caseSensitive _ Hterm) as Hv.
    assert (Hlen : 0 < String.length (folded caseSensitive (value term)))
      by (destruct (folded caseSensitive (value term));
          [congruence | simpl; lia]).
    assert (Hn_le : n <= String.length text) by nia.
    pose proof (NonOverlapping_zero _ _ _ Hn) as Hnz.
    change (list_sum (n :: counts)) with (n + list_sum counts).
    cbn [List.length]. split; [simpl; lia|]. split.
    + intros Hall.
      assert (n <> 0).
      { intros Hn0. apply Hnz in Hn0. apply Hn0, Hall. now left. }
      assert (List.length terms <= list_sum counts)
        by (apply Hlow; intros t Ht; apply Hall; now right).
      lia.
    + split.
      * intros Hsum term' [<- | Hin].
        -- apply Hnz. lia.
        -- apply Hzero; [lia | exact Hin].
      * intros Hnone.
        assert (n = 0) by (apply Hnz, Hnone; now left).
        assert (list_sum counts = 0)
          by (apply Hzero; intros t Ht; apply Hnone; now right).
        lia.
Qed.

End MatcherAlgebra.

(** X5.  The order of the terms does not matter: for two term lists that
    are permutations of each other, [matchesAllTerms] gives the same
    answer and [countMatches] the same count, for every text, case flag
    and fuel. *)
Theorem term_order_is_irrelevant (fuel : nat) (text : string)
    (terms terms' : list SearchTerm) (caseSensitive : bool) :
  Permutation terms terms' ->
  matchesAllTerms text terms caseSensitive
  = matchesAllTerms text terms' caseSensitive /\
  countMatches fuel text terms caseSensitive
  = countMatches fuel text terms' caseSensitive.
Proof.
  intros Hperm. split.
  - destruct (matchesAllTerms text terms' caseSensitive) eqn:E.
    + rewrite matchesAllTerms_spec in *. intros term Hin. apply E.
      now apply (Permutation_in _ Hperm).
    + destruct (matchesAllTerms text terms caseSensitive) eqn:E';
        [|reflexivity].
      rewrite <- E. symmetry. rewrite matchesAllTerms_spec in *.
      intros term Hin. apply E'.
      now apply (Permutation_in _ (Permutation_sym Hperm)).
  - unfold countMatches. now apply countMatches_for_Permutation.
Qed.

Lemma term_order_is_irrelevant_witness :
  Permutation [phraseTerm "need help"; keywordTerm "e"]
              [keywordTerm "e"; phraseTerm "need help"] /\
  matchesAllTerms "I need help" [phraseTerm "need help"; keywordTerm "e"] false
  = matchesAllTerms "I need help" [keywordTerm "e"; phraseTerm "need help"]
      false /\
  countMatches 20 "I need help" [phraseTerm "need help"; keywordTerm "e"] false
  = countMatches 20 "I need help" [keywordTerm "e"; phraseTerm "need help"]
      false.
Proof.
  assert (H : Permutation [phraseTerm "need help"; keywordTerm "e"]
                          [keywordTerm "e"; phraseTerm "need help"])
    by apply perm_swap.
  split; [exact H|].
  exact (term_order_is_irrelevant 20 "I need help" _ _ false H).
Defined.

(** X6.  Term lists compose: a text matches the terms of two lists put
    together exactly when it matches each list, and the count for the
    joined list is the sum of the two counts (and is not returned when
    one of the two is not). *)
Theorem term_lists_compose (fuel : nat) (text : string)
    (a b : list SearchTerm) (caseSensitive : bool) :
  matchesAllTerms text (a ++ b) caseSensitive
  = matchesAllTerms text a caseSensitive
    && matchesAllTerms text b caseSensitive /\
  countMatches fuel text (a ++ b) caseSensitive
  = addCounts (countMatches fuel text a caseSensitive)
      (countMatches fuel text b caseSensitive).
Proof.
  split.
  - apply matchesAllTerms_for_app.
  - apply countMatches_for_app.
Qed.



(** X8.  For term values that are not empty, the count that [countMatches]
    returns is at most the number of terms times the length of the text;
    it is at least the number of terms when the text matches all terms;
    and it is zero exactly when no term occurs in the text. *)
Theorem count_bounds (fuel : nat) (text : string)
    (terms : list SearchTerm) (caseSensitive : bool) :
  valuesNonEmpty terms ->
  String.length text < fuel ->
  exists n,
    countMatches fuel text terms caseSensitive = Some n /\
    n <= List.length terms * String.length text /\
    (matchesAllTerms text terms caseSensitive = true ->
     List.length terms <= n) /\
    (n = 0 <->
     forall term, In term terms ->
       ~ Contains (folded caseSensitive text)
           (folded caseSensitive (value term))).
Proof. apply countMatches_bounds. Qed.

Lemma count_bounds_witness :
  valuesNonEmpty [keywordTerm "hello"; keywordTerm "the"] /\
  String.length "Hello there, hello" < 19 /\
  exists n,
    countMatches 19 "Hello there, hello"
      [keywordTerm "hello"; keywordTerm "the"] false = Some n /\
    n <= 2 * 18 /\
    (matchesAllTerms "Hello there, hello"
       [keywordTerm "hello"; keywordTerm "the"] false = true -> 2 <= n) /\
    (n = 0 <->
     forall term, In term [keywordTerm "hello"; keywordTerm "the"] ->
       ~ Contains (folded false "Hello there, hello")
           (folded false (value term))).
Proof.
  assert (H1 : valuesNonEmpty [keywordTerm "hello"; keywordTerm "the"])
    by (repeat constructor; discriminate).
  assert (H2 : String.length "Hello there, hello" < 19) by (simpl; lia).
  split; [exact H1|]. split; [exact H2|].
  exact (count_bounds 19 "Hello there, hello" _ false H1 H2).
Defined.

(** * Further properties of the transcript scanner *)

Section ScannerExact.

Variable fuel : nat.
Variable terms : list SearchTerm.
Variable caseSensitive : bool.

Lemma filter_test_passesFilterb (speakerFilter : string) (u : Utterance) :
  negb (speakerFilter =? "all")%string
  && negb (speaker_type u =? speakerFilter)%string
  = negb (passesFilterb speakerFilter u).
Proof. unfold passesFilterb. now rewrite negb_orb. Qed.

Lemma qualifiesb_Qualifies (speakerFilter : string) (u : Utterance) :
  qualifiesb terms speakerFilter caseSensitive u = true <->
  Qualifies terms speakerFilter caseSensitive u.
Proof.
  unfold qualifiesb. rewrite andb_true_iff, Qualifies_test.
  rewrite filter_test_passesFilterb, negb_false_iff. reflexivity.
Qed.

(** What the loop over the utterances adds: the utterances that qualify,
    in their order, each with its position and its count. *)
Lemma scanUtterances_exact (speakerFilter : string) (rest : list Utterance)
    (i : nat) (matching matching' : list MatchingUtterance)
    (transcriptMatches transcriptMatches' : nat) :
  scanUtterances fuel terms speakerFilter caseSensitive rest i
    matching transcriptMatches = Some (matching', transcriptMatches') ->
  exists added,
    matching' = matching ++ added /\
    transcriptMatches' = transcriptMatches + list_sum (map matchCount added) /\
    map utterance added
    = filter (qualifiesb terms speakerFilter caseSensitive) rest /\
    Forall (fun m =>
              i <= index m /\
              nth_error rest (index m - i) = Some (utterance m) /\
              countMatches fuel (text (utterance m)) terms caseSensitive
              = Some (matchCount m)) added.
Proof.
  revert i matching transcriptMatches.
  induction rest as [|u rest IH]; intros i matching transcriptMatches.
  - intros [= <- <-]. exists []. rewrite app_nil_r. simpl.
    repeat split; [lia | constructor].
  - cbn [scanUtterances filter]. unfold qualifiesb at 1.
    rewrite filter_test_passesFilterb.
    assert (Hshift : forall added,
      Forall (fun m =>
                S i <= index m /\
                nth_error rest (index m - S i) = Some (utterance m) /\
                countMatches fuel (text (utterance m)) terms caseSensitive
                = Some (matchCount m)) added ->
      Forall (fun m =>
                i <= index m /\
                nth_error (u :: rest) (index m - i) = Some (utterance m) /\
                countMatches fuel (text (utterance m)) terms caseSensitive
                = Some (matchCount m)) added).
    { intros added. apply Forall_impl. intros m (Hle & Hnth & Hcount).
      repeat split; [lia | | exact Hcount].
      replace (index m - i) with (S (index m - S i)) by lia. exact Hnth. }
    destruct (passesFilterb speakerFilter u); cbn [negb andb].
    + destruct (matchesAllTerms (text u) terms caseSensitive).
      * destruct (countMatches fuel (text u) terms caseSensitive)
          as [count|] eqn:Ecount; [|discriminate].
        intros H. destruct (IH _ _ _ H) as (added & H1 & H2 & H3 & H4).
        exists ({| utterance := u; index := i; matchCount := count |}
                  :: added).
        repeat split.
        -- now rewrite H1, <- app_assoc.
        -- rewrite H2. simpl. lia.
        -- simpl. now rewrite H3.
        -- constructor; [|now apply Hshift].
           simpl. repeat split; [lia | | exact Ecount].
           now rewrite Nat.sub_diag.
      * intros H. destruct (IH _ _ _ H) as (added & H1 & H2 & H3 & H4).
        exists added. repeat split; [easy.. | now apply Hshift].
    + intros H. destruct (IH _ _ _ H) as (added & H1 & H2 & H3 & H4).
      exists added. repeat split; [easy.. | now apply Hshift].
Qed.

Lemma filter_nonempty {A : Type} (f : A -> bool) (l : list A) :
  (0 <? List.length (filter f l))%nat = existsb f l.
Proof.
  induction l as [|a l IH]; simpl; [reflexivity|].
  destruct (f a); simpl; [reflexivity | exact IH].
Qed.

(** What the loop over the transcripts adds: the transcripts with an
    utterance that qualifies, in their order. *)
Lemma scanTranscripts_exact (speakerFilter : string)
    (rest : list Transcript) (results results' : list SearchResult)
    (total total' : nat) :
  scanTranscripts fuel terms speakerFilter caseSensitive rest results total
  = Some (results', total') ->
  exists added,
    results' = results ++ added /\
    map transcript added
    = filter (fun t => existsb (qualifiesb terms speakerFilter caseSensitive)
                         (utterances t)) rest.
Proof.
  revert results total.
  induction rest as [|t rest IH]; intros results total.
  - intros [= <- <-]. exists []. now rewrite app_nil_r.
  - cbn [scanTranscripts filter].
    destruct (scanUtterances fuel terms speakerFilter caseSensitive
                (utterances t) 0 [] 0) as [[matching tm]|] eqn:E;
      [|discriminate].
    destruct (scanUtterances_exact _ _ _ _ _ _ _ E)
      as (entries & Hm & _ & Hu & _).
    simpl in Hm. subst entries.
    rewrite <- filter_nonempty, <- Hu, length_map.
    destruct (0 <? List.length matching)%nat; intros H;
      destruct (IH _ _ H) as (added & H1 & H2).
    + exists ({| transcript := t; matchingUtterances := matching;
                 totalMatches := tm |} :: added).
      split; [now rewrite H1, <- app_assoc | simpl; now rewrite H2].
    + now exists added.
Qed.

(** When no utterance qualifies, the loops add nothing, whatever the
    fuel. *)
Lemma scanUtterances_none (speakerFilter : string) (rest : list Utterance)
    (i : nat) (matching : list MatchingUtterance) (transcriptMatches : nat) :
  existsb (qualifiesb terms speakerFilter caseSensitive) rest = false ->
  scanUtterances fuel terms speakerFilter caseSensitive rest i
    matching transcriptMatches = Some (matching, transcriptMatches).
Proof.
  revert i. induction rest as [|u rest IH]; intros i; [reflexivity|].
  cbn [existsb scanUtterances]. unfold qualifiesb at 1.
  rewrite filter_test_passesFilterb, orb_false_iff.
  intros [H1 H2].
  destruct (passesFilterb speakerFilter u); cbn [negb andb] in *;
    [rewrite H1|]; now apply IH.
Qed.

Lemma scanTranscripts_none (speakerFilter : string)
    (rest : list Transcript) (results : list SearchResult) (total : nat) :
  (forall t, In t rest ->
     existsb (qualifiesb terms speakerFilter caseSensitive) (utterances t)
     = false) ->
  scanTranscripts fuel terms speakerFilter caseSensitive rest results total
  = Some (results, total).
Proof.
  induction rest as [|t rest IH]; intros H; [reflexivity|].
  cbn [scanTranscripts].
  rewrite scanUtterances_none by (apply H; now left).
  simpl. apply IH. intros t' Ht'. apply H. now right.
Qed.

End ScannerExact.

Section SearchExact.

Lemma performSearch_shows_results (fuel : nat)
    (TRANSCRIPTS : list Transcript) (speakerFilter : string)
    (caseSensitive : bool) (searchInput : string) :
  parseSearchQuery (trim searchInput) <> [] ->
  textsShorterThan fuel TRANSCRIPTS ->
  exists results total,
    scanTranscripts fuel (parseSearchQuery (trim searchInput)) speakerFilter
      caseSensitive TRANSCRIPTS [] 0 = Some (results, total) /\
    performSearch fuel TRANSCRIPTS speakerFilter caseSensitive searchInput
    = Some (ShowResults results total
              (renderResults results (parseSearchQuery (trim searchInput))
                 caseSensitive)).
Proof.
  intros Hterms Hfuel.
  rewrite (performSearch_with_terms _ _ _ _ _ Hterms).
  destruct (scanTranscripts_total fuel (parseSearchQuery (trim searchInput))
              speakerFilter caseSensitive TRANSCRIPTS [] 0
              (parseSearchQuery_valuesNonEmpty _) Hfuel)
    as [[results total] Hscan].
  exists results, total. now rewrite Hscan.
Qed.

Lemma list_sum_filter_le {A : Type} (g : A -> nat) (p : A -> bool)
    (l : list A) :
  list_sum (map g (filter p l)) <= list_sum (map g l).
Proof.
  induction l as [|a l IH]; simpl; [lia|].
  destruct (p a); simpl; lia.
Qed.

Lemma passesFilterb_all (u : Utterance) : passesFilterb "all" u = true.
Proof. reflexivity. Qed.

(** The loop under a speaker filter adds, of what the loop without filter
    adds, the entries of the utterances that pass the filter. *)
Lemma scanUtterances_narrowed (fuel : nat) (terms : list SearchTerm)
    (caseSensitive : bool) (speakerFilter : string) (rest : list Utterance)
    (i : nat) (m m' m0 m0' : list MatchingUtterance) (t t' t0 t0' : nat) :
  scanUtterances fuel terms speakerFilter caseSensitive rest i m t
  = Some (m', t') ->
  scanUtterances fuel terms "all" caseSensitive rest i m0 t0
  = Some (m0', t0') ->
  exists added added0,
    m' = m ++ added /\ m0' = m0 ++ added0 /\
    added = filter (fun e => passesFilterb speakerFilter (utterance e))
              added0 /\
    t' = t + list_sum (map matchCount added) /\
    t0' = t0 + list_sum (map matchCount added0).
Proof.
  revert i m t m0 t0.
  induction rest as [|u rest IH]; intros i m t m0 t0.
  - intros [= <- <-] [= <- <-]. exists [], []. rewrite !app_nil_r. simpl.
    repeat split; lia.
  - cbn [scanUtterances]. rewrite !filter_test_passesFilterb.
    rewrite passesFilterb_all. cbn [negb andb].
    destruct (matchesAllTerms (text u) terms caseSensitive).
    + destruct (countMatches fuel (text u) terms caseSensitive)
        as [count|]; [|now destruct (passesFilterb speakerFilter u)].
      destruct (passesFilterb speakerFilter u) eqn:Ep; cbn [negb];
        intros H H0; destruct (IH _ _ _ _ _ H H0)
          as (added & added0 & H1 & H2 & H3 & H4 & H5).
      * exists ({| utterance := u; index := i; matchCount := count |}
                  :: added),
               ({| utterance := u; index := i; matchCount := count |}
                  :: added0).
        repeat split.
        -- now rewrite H1, <- app_assoc.
        -- now rewrite H2, <- app_assoc.
        -- simpl. now rewrite Ep, H3.
        -- rewrite H4. simpl. lia.
        -- rewrite H5. simpl. lia.
      * exists added,
               ({| utterance := u; index := i; matchCount := count |}
                  :: added0).
        repeat split.
        -- exact H1.
        -- now rewrite H2, <- app_assoc.
        -- simpl. now rewrite Ep.
        -- exact H4.
        -- rewrite H5. simpl. lia.
    + destruct (passesFilterb speakerFilter u); cbn [negb];
        intros H H0; exact (IH _ _ _ _ _ H H0).
Qed.

Lemma scanTranscripts_narrowed (fuel : nat) (terms : list SearchTerm)
    (caseSensitive : bool) (speakerFilter : string) (rest : list Transcript)
    (rs rs' rs0 rs0' : list SearchResult) (t t' t0 t0' : nat) :
  scanTranscripts fuel terms speakerFilter caseSensitive rest rs t
  = Some (rs', t') ->
  scanTranscripts fuel terms "all" caseSensitive rest rs0 t0
  = Some (rs0', t0') ->
  exists added added0,
    rs' = rs ++ added /\ rs0' = rs0 ++ added0 /\
    t' = t + list_sum (map totalMatches added) /\
    t0' = t0 + list_sum (map totalMatches added0) /\
    list_sum (map totalMatches added) <= list_sum (map totalMatches added0) /\
    List.length added <= List.length added0 /\
    Forall (fun r => exists r0, In r0 added0 /\ narrowedFrom speakerFilter r r0)
           added.
Proof.
  revert rs t rs0 t0.
  induction rest as [|tr rest IH]; intros rs t rs0 t0.
  - intros [= <- <-] [= <- <-]. exists [], []. rewrite !app_nil_r. simpl.
    repeat split; try lia. constructor.
  - cbn [scanTranscripts].
    destruct (scanUtterances fuel terms speakerFilter caseSensitive
                (utterances tr) 0 [] 0) as [[m tm]|] eqn:E; [|discriminate].
    destruct (scanUtterances fuel terms "all" caseSensitive
                (utterances tr) 0 [] 0) as [[m0 tm0]|] eqn:E0; [|discriminate].
    destruct (scanUtterances_narrowed _ _ _ _ _ _ _ _ _ _ _ _ _ _ E E0)
      as (a & a0 & Ha & Ha0 & Hf & Ht & Ht0).
    simpl in Ha, Ha0, Ht, Ht0. subst a a0 tm tm0.
    pose proof (list_sum_filter_le matchCount
                  (fun e => passesFilterb speakerFilter (utterance e)) m0)
      as Hle.
    rewrite <- Hf in Hle.
    assert (Hweaken : forall added added0 r0,
      Forall (fun r => exists r1, In r1 added0 /\
                         narrowedFrom speakerFilter r r1) added ->
      Forall (fun r => exists r1, In r1 (r0 :: added0) /\
                         narrowedFrom speakerFilter r r1) added).
    { intros added added0 r0. apply Forall_impl.
      intros r (r1 & Hin & Hn). exists r1. split; [now right | exact Hn]. }
    destruct (0 <? List.length m)%nat eqn:Em.
    + assert (Em0 : (0 <? List.length m0)%nat = true).
      { apply Nat.ltb_lt in Em. apply Nat.ltb_lt.
        destruct m0; [subst m; simpl in Em; lia | simpl; lia]. }
      rewrite Em0. intros H H0.
      destruct (IH _ _ _ _ H H0)
        as (added & added0 & H1 & H2 & H3 & H4 & H5 & H6 & H7).
      exists ({| transcript := tr; matchingUtterances := m;
                 totalMatches := list_sum (map matchCount m) |} :: added),
             ({| transcript := tr; matchingUtterances := m0;
                 totalMatches := list_sum (map matchCount m0) |} :: added0).
      repeat split.
      * now rewrite H1, <- app_assoc.
      * now rewrite H2, <- app_assoc.
      * rewrite H3. simpl. lia.
      * rewrite H4. simpl. lia.
      * simpl. lia.
      * simpl. lia.
      * constructor; [|now apply Hweaken].
        eexists. split; [now left|]. now repeat split.
    + destruct (0 <? List.length m0)%nat; intros H H0;
        destruct (IH _ _ _ _ H H0)
          as (added & added0 & H1 & H2 & H3 & H4 & H5 & H6 & H7).
      * exists added,
               ({| transcript := tr; matchingUtterances := m0;
                   totalMatches := list_sum (map matchCount m0) |}
                  :: added0).
        repeat split.
        -- exact H1.
        -- now rewrite H2, <- app_assoc.
        -- exact H3.
        -- rewrite H4. simpl. lia.
        -- simpl. lia.
        -- simpl. lia.
        -- now apply Hweaken.
      * exists added, added0. now repeat split.
Qed.

End SearchExact.

(** X9.  For a query with at least one parsed term, and fuel beyond the
    length of every text, the search returns results, and they are exactly
    these: the transcripts of the corpus that have an utterance passing
    the speaker filter and matching all terms, in the order of the corpus
    (no transcript twice, none re-ordered); in each result the matching
    utterances are the utterances of the transcript that pass the filter
    and match, in their order; the index of an entry is the position of its
    utterance in the transcript, and its match count is what [countMatches]
    returns for its text. *)
Theorem results_are_the_filtered_corpus
    (fuel : nat) (TRANSCRIPTS : list Transcript) (speakerFilter : string)
    (caseSensitive : bool) (searchInput : string) :
  parseSearchQuery (trim searchInput) <> [] ->
  textsShorterThan fuel TRANSCRIPTS ->
  exists results total html,
    performSearch fuel TRANSCRIPTS speakerFilter caseSensitive searchInput
    = Some (ShowResults results total html) /\
    map transcript results
    = filter (fun t =>
                existsb (qualifiesb (parseSearchQuery (trim searchInput))
                           speakerFilter caseSensitive) (utterances t))
        TRANSCRIPTS /\
    forall r, In r results ->
      map utterance (matchingUtterances r)
      = filter (qualifiesb (parseSearchQuery (trim searchInput))
                  speakerFilter caseSensitive)
          (utterances (transcript r)) /\
      Forall (fun m =>
                nth_error (utterances (transcript r)) (index m)
                = Some (utterance m) /\
                countMatches fuel (text (utterance m))
                  (parseSearchQuery (trim searchInput)) caseSensitive
                = Some (matchCount m))
             (matchingUtterances r).
Proof.
  intros Hterms Hfuel.
  destruct (performSearch_shows_results fuel TRANSCRIPTS speakerFilter
              caseSensitive searchInput Hterms Hfuel)
    as (results & total & Hscan & Hsearch).
  eexists results, total, _. split; [exact Hsearch|].
  destruct (scanTranscripts_exact _ _ _ _ _ _ _ _ _ Hscan)
    as (added & Hadd & Hfilter).
  simpl in Hadd. subst added. split; [exact Hfilter|].
  destruct (scanTranscripts_added _ _ _ _ _ _ _ _ _ Hscan)
    as (added & Hadd & _ & Hadded & _).
  simpl in Hadd. subst added. rewrite Forall_forall in Hadded.
  intros r Hr. destruct (Hadded r Hr) as (_ & _ & Hr_scan).
  destruct (scanUtterances_exact _ _ _ _ _ _ _ _ _ _ Hr_scan)
    as (entries & He & _ & Hu & Hentries).
  simpl in He. subst entries. split; [exact Hu|].
  eapply Forall_impl; [|exact Hentries].
  intros m (_ & Hnth & Hcount). rewrite Nat.sub_0_r in Hnth. now split.
Qed.

Lemma results_are_the_filtered_corpus_witness :
  parseSearchQuery (trim "hello") <> [] /\
  textsShorterThan 30 [helpCall; thanksCall] /\
  exists results total html,
    performSearch 30 [helpCall; thanksCall] "customer" false "hello"
    = Some (ShowResults results total html) /\
    map transcript results
    = filter (fun t =>
                existsb (qualifiesb (parseSearchQuery (trim "hello"))
                           "customer" false) (utterances t))
        [helpCall; thanksCall] /\
    forall r, In r results ->
      map utterance (matchingUtterances r)
      = filter (qualifiesb (parseSearchQuery (trim "hello")) "customer" false)
          (utterances (transcript r)) /\
      Forall (fun m =>
                nth_error (utterances (transcript r)) (index m)
                = Some (utterance m) /\
                countMatches 30 (text (utterance m))
                  (parseSearchQuery (trim "hello")) false
                = Some (matchCount m))
             (matchingUtterances r).
Proof.
  assert (H1 : parseSearchQuery (trim "hello") <> [])
    by (vm_compute; discriminate).
  assert (H2 : textsShorterThan 30 [helpCall; thanksCall]).
  { intros t u [<- | [<- | []]] [<- | [<- | []]]; simpl; lia. }
  split; [exact H1|]. split; [exact H2|].
  exact (results_are_the_filtered_corpus 30 _ "customer" false "hello" H1 H2).
Defined.

(** X10.  Narrowing the speaker filter never adds anything.  For a query
    with at least one term, the search under any speaker filter and the
    search under the filter all both return; the filtered search has at
    most as many results and at most as large a match total; and each of
    its results stands for a transcript that the unfiltered search also
    shows, with exactly the entries of the utterances that pass the
    filter, and a match total that is not larger. *)
Theorem narrowing_the_filter_adds_nothing
    (fuel : nat) (TRANSCRIPTS : list Transcript) (speakerFilter : string)
    (caseSensitive : bool) (searchInput : string) :
  parseSearchQuery (trim searchInput) <> [] ->
  textsShorterThan fuel TRANSCRIPTS ->
  exists results total html results0 total0 html0,
    performSearch fuel TRANSCRIPTS speakerFilter caseSensitive searchInput
    = Some (ShowResults results total html) /\
    performSearch fuel TRANSCRIPTS "all" caseSensitive searchInput
    = Some (ShowResults results0 total0 html0) /\
    List.length results <= List.length results0 /\
    total <= total0 /\
    forall r, In r results ->
      exists r0, In r0 results0 /\ narrowedFrom speakerFilter r r0.
Proof.
  intros Hterms Hfuel.
  destruct (performSearch_shows_results fuel TRANSCRIPTS speakerFilter
              caseSensitive searchInput Hterms Hfuel)
    as (results & total & Hscan & Hsearch).
  destruct (performSearch_shows_results fuel TRANSCRIPTS "all"
              caseSensitive searchInput Hterms Hfuel)
    as (results0 & total0 & Hscan0 & Hsearch0).
  eexists results, total, _, results0, total0, _.
  split; [exact Hsearch|]. split; [exact Hsearch0|].
  destruct (scanTranscripts_narrowed _ _ _ _ _ _ _ _ _ _ _ _ _ Hscan Hscan0)
    as (added & added0 & H1 & H2 & H3 & H4 & H5 & H6 & H7).
  simpl in H1, H2, H3, H4. subst added added0 total total0.
  split; [exact H6|]. split; [exact H5|].
  now apply Forall_forall.
Qed.

Lemma narrowing_the_filter_adds_nothing_witness :
  parseSearchQuery (trim "hello") <> [] /\
  textsShorterThan 30 [helpCall; thanksCall] /\
  exists results total html results0 total0 html0,
    performSearch 30 [helpCall; thanksCall] "agent" false "hello"
    = Some (ShowResults results total html) /\
    performSearch 30 [helpCall; thanksCall] "all" false "hello"
    = Some (ShowResults results0 total0 html0) /\
    List.length results <= List.length results0 /\
    total <= total0 /\
    forall r, In r results ->
      exists r0, In r0 results0 /\ narrowedFrom "agent" r r0.
Proof.
  assert (H1 : parseSearchQuery (trim "hello") <> [])
    by (vm_compute; discriminate).
  assert (H2 : textsShorterThan 30 [helpCall; thanksCall]).
  { intros t u [<- | [<- | []]] [<- | [<- | []]]; simpl; lia. }
  split; [exact H1|]. split; [exact H2|].
  exact (narrowing_the_filter_adds_nothing 30 _ "agent" false "hello" H1 H2).
Defined.

Section SearchCounts.

Lemma list_sum_at_least {A : Type} (g : A -> nat) (k : nat) (l : list A) :
  Forall (fun a => k <= g a) l -> k * List.length l <= list_sum (map g l).
Proof.
  induction 1 as [|a l Ha _ IH]; simpl; [lia|].
  rewrite Nat.mul_succ_r. lia.
Qed.



(** The pieces that the loop of [renderUtterances] appends. *)
Lemma renderUtterances_for_pieces (highlightRegex : RegExp)
    (matching : list MatchingUtterance) (html : list HtmlPiece)
    (prevIndex : Z) :
  exists pieces,
    renderUtterances_for highlightRegex matching html prevIndex
    = html ++ pieces /\
    filter isUtterancePiece pieces
    = map (utteranceHtml highlightRegex) matching /\
    List.length pieces <= 2 * List.length matching /\
    ((prevIndex < 0)%Z -> matching <> [] ->
     List.length pieces < 2 * List.length matching /\
     hd_error pieces <> Some ContextIndicator).
Proof.
  revert html prevIndex.
  induction matching as [|u matching IH]; intros html prevIndex.
  - exists []. simpl. rewrite app_nil_r.
    split; [reflexivity|]. split; [reflexivity|]. split; [lia | easy].
  - cbn [renderUtterances_for].
    fold (utteranceHtml highlightRegex u).
    destruct (IH ((if (Z.of_nat (index u) >? prevIndex + 1)%Z
                      && (prevIndex >=? 0)%Z
                   then html ++ [ContextIndicator] else html)
                  ++ [utteranceHtml highlightRegex u])
                (Z.of_nat (index u)))
      as (pieces & Hout & Hfilter & Hlen & _).
    rewrite Hout.
    destruct ((Z.of_nat (index u) >? prevIndex + 1)%Z
              && (prevIndex >=? 0)%Z) eqn:Egap.
    + exists (ContextIndicator :: utteranceHtml highlightRegex u :: pieces).
      split; [now rewrite <- !app_assoc|].
      split; [simpl; now rewrite Hfilter|].
      split; [simpl; lia|].
      apply andb_true_iff in Egap. destruct Egap as [_ Hge].
      apply Z.geb_le in Hge. lia.
    + exists (utteranceHtml highlightRegex u :: pieces).
      split; [now rewrite <- !app_assoc|].
      split; [simpl; now rewrite Hfilter|].
      split; [simpl; lia|].
      intros _ _. split; [simpl; lia | simpl; discriminate].
Qed.

End SearchCounts.



(** X12.  The counters agree with each other.  For a query with at least
    one term, in what the search returns every matching utterance has a
    match count of at least the number of terms (so at least one), every
    result has a match total of at least the number of terms times the
    number of its matching utterances, and the global match total is at
    least the number of results. *)
Theorem match_counts_cover_the_results
    (fuel : nat) (TRANSCRIPTS : list Transcript) (speakerFilter : string)
    (caseSensitive : bool) (searchInput : string) :
  parseSearchQuery (trim searchInput) <> [] ->
  textsShorterThan fuel TRANSCRIPTS ->
  exists results total html,
    performSearch fuel TRANSCRIPTS speakerFilter caseSensitive searchInput
    = Some (ShowResults results total html) /\
    (forall r m, In r results -> In m (matchingUtterances r) ->
       List.length (parseSearchQuery (trim searchInput)) <= matchCount m) /\
    (forall r, In r results ->
       List.length (parseSearchQuery (trim searchInput))
       * List.length (matchingUtterances r) <= totalMatches r) /\
    List.length results <= total.
Proof.
  intros Hterms Hfuel.
  destruct (performSearch_shows_results fuel TRANSCRIPTS speakerFilter
              caseSensitive searchInput Hterms Hfuel)
    as (results & total & Hscan & Hsearch).
  eexists results, total, _. split; [exact Hsearch|].
  set (terms := parseSearchQuery (trim searchInput)) in *.
  assert (Hlen : 1 <= List.length terms)
    by (destruct terms; [congruence | simpl; lia]).
  destruct (scanTranscripts_added _ _ _ _ _ _ _ _ _ Hscan)
    as (a & Ha & Htotal & Hadded & _).
  simpl in Ha, Htotal. subst a. rewrite Forall_forall in Hadded.
  assert (Hentries : forall r, In r results ->
            totalMatches r
            = list_sum (map matchCount (matchingUtterances r)) /\
            matchingUtterances r <> [] /\
            Forall (fun m => List.length terms <= matchCount m)
                   (matchingUtterances r)).
  { intros r Hr. destruct (Hadded r Hr) as (Hin & Hne & Hr_scan).
    destruct (scanUtterances_exact _ _ _ _ _ _ _ _ _ _ Hr_scan)
      as (e & He & Hsum & Hu & Hcounts).
    simpl in He, Hsum. subst e. repeat split; [exact Hsum | exact Hne |].
    apply Forall_forall. intros m Hm.
    rewrite Forall_forall in Hcounts.
    destruct (Hcounts m Hm) as (_ & _ & Hcount).
    assert (Hq : In (utterance m)
                   (filter (qualifiesb terms speakerFilter caseSensitive)
                      (utterances (transcript r))))
      by (rewrite <- Hu; now apply in_map).
    apply filter_In in Hq. destruct Hq as [Hu_in Hq].
    unfold qualifiesb in Hq. apply andb_true_iff in Hq.
    destruct Hq as [_ Hmatch].
    destruct (countMatches_bounds fuel (text (utterance m)) terms
                caseSensitive (parseSearchQuery_valuesNonEmpty _)
                (Hfuel _ _ Hin Hu_in)) as (n & Hn & _ & Hlow & _).
    rewrite Hcount in Hn. injection Hn as <-. now apply Hlow. }
  split; [|split].
  - intros r m Hr Hm. destruct (Hentries r Hr) as (_ & _ & Hall).
    rewrite Forall_forall in Hall. now apply Hall.
  - intros r Hr. destruct (Hentries r Hr) as (Hsum & _ & Hall).
    rewrite Hsum. now apply list_sum_at_least.
  - rewrite Htotal. clear Hscan Hsearch Htotal Hadded.
    induction results as [|r results IH]; simpl; [lia|].
    assert (1 <= totalMatches r).
    { destruct (Hentries r ltac:(now left)) as (Hsum & Hne & Hall).
      rewrite Hsum. destruct (matchingUtterances r) as [|m ms];
        [congruence|].
      inversion Hall; subst. simpl. lia. }
    assert (List.length results <= list_sum (map totalMatches results))
      by (apply IH; intros r' Hr'; apply Hentries; now right).
    lia.
Qed.

Lemma match_counts_cover_the_results_witness :
  parseSearchQuery (trim "hello;the") <> [] /\
  textsShorterThan 30 [helpCall; thanksCall] /\
  exists results total html,
    performSearch 30 [helpCall; thanksCall] "all" false "hello;the"
    = Some (ShowResults results total html) /\
    (forall r m, In r results -> In m (matchingUtterances r) ->
       List.length (parseSearchQuery (trim "hello;the")) <= matchCount m) /\
    (forall r, In r results ->
       List.length (parseSearchQuery (trim "hello;the"))
       * List.length (matchingUtterances r) <= totalMatches r) /\
    List.length results <= total.
Proof.
  assert (H1 : parseSearchQuery (trim "hello;the") <> [])
    by (vm_compute; discriminate).
  assert (H2 : textsShorterThan 30 [helpCall; thanksCall]).
  { intros t u [<- | [<- | []]] [<- | [<- | []]]; simpl; lia. }
  split; [exact H1|]. split; [exact H2|].
  exact (match_counts_cover_the_results 30 _ "all" false "hello;the" H1 H2).
Defined.

(** X13.  The three outcomes of a search are told apart by the query and
    the corpus alone.  The empty state is shown exactly when the trimmed
    input parses to no term.  With at least one term and no utterance in
    the corpus that passes the filter and matches (an empty corpus is such
    a corpus), the search returns with any fuel: no result, a match total
    of zero, and the page that says no matches were found.  And whenever
    results are shown, that page stands there exactly when the result list
    is empty. *)
Theorem search_outcomes
    (fuel : nat) (TRANSCRIPTS : list Transcript) (speakerFilter : string)
    (caseSensitive : bool) (searchInput : string) :
  (performSearch fuel TRANSCRIPTS speakerFilter caseSensitive searchInput
   = Some ShowEmptyState <->
   parseSearchQuery (trim searchInput) = []) /\
  (parseSearchQuery (trim searchInput) <> [] ->
   (forall t, In t TRANSCRIPTS ->
      existsb (qualifiesb (parseSearchQuery (trim searchInput))
                 speakerFilter caseSensitive) (utterances t) = false) ->
   performSearch fuel TRANSCRIPTS speakerFilter caseSensitive searchInput
   = Some (ShowResults [] 0 NoMatchesFound)) /\
  (forall results total html,
     performSearch fuel TRANSCRIPTS speakerFilter caseSensitive searchInput
     = Some (ShowResults results total html) ->
     (html = NoMatchesFound <-> results = [])).
Proof.
  split; [|split].
  - split; [|apply performSearch_no_terms].
    intros H.
    destruct (parseSearchQuery (trim searchInput)) as [|term terms] eqn:E;
      [reflexivity|].
    assert (Hne : parseSearchQuery (trim searchInput) <> [])
      by (rewrite E; discriminate).
    rewrite (performSearch_with_terms _ _ _ _ _ Hne) in H.
    destruct (scanTranscripts _ _ _ _ _ _ _) as [[results total]|];
      discriminate.
  - intros Hne Hnone.
    rewrite (performSearch_with_terms _ _ _ _ _ Hne).
    now rewrite scanTranscripts_none.
  - intros results total html H.
    destruct (parseSearchQuery (trim searchInput)) as [|term terms] eqn:E.
    + rewrite performSearch_no_terms in H by exact E. discriminate.
    + assert (Hne : parseSearchQuery (trim searchInput) <> [])
        by (rewrite E; discriminate).
      rewrite (performSearch_with_terms _ _ _ _ _ Hne) in H.
      destruct (scanTranscripts _ _ _ _ _ _ _) as [[results0 total0]|];
        [|discriminate].
      injection H as <- <- <-.
      destruct results0; simpl; split; congruence.
Qed.

Lemma search_outcomes_witness :
  parseSearchQuery (trim "refund") <> [] /\
  (forall t, In t [helpCall] ->
     existsb (qualifiesb (parseSearchQuery (trim "refund")) "all" false)
       (utterances t) = false) /\
  performSearch 0 [helpCall] "all" false "refund"
  = Some (ShowResults [] 0 NoMatchesFound).
Proof.
  assert (H1 : parseSearchQuery (trim "refund") <> [])
    by (vm_compute; discriminate).
  assert (H2 : forall t, In t [helpCall] ->
     existsb (qualifiesb (parseSearchQuery (trim "refund")) "all" false)
       (utterances t) = false).
  { intros t [<- | []]. reflexivity. }
  split; [exact H1|]. split; [exact H2|].
  exact (proj1 (proj2 (search_outcomes 0 [helpCall] "all" false "refund"))
           H1 H2).
Defined.

(** X14.  Whatever the list of matching utterances (in index order or
    not), [renderUtterances] renders every one of them once, in the order
    of the list: without the gap markers its output is the list of their
    blocks.  It never starts with a gap marker, and it holds fewer markers
    than blocks. *)
Theorem every_match_is_rendered_once (transcript : Transcript)
    (matching : list MatchingUtterance) (highlightRegex : RegExp) :
  filter isUtterancePiece (renderUtterances transcript matching highlightRegex)
  = map (utteranceHtml highlightRegex) matching /\
  hd_error (renderUtterances transcript matching highlightRegex)
  <> Some ContextIndicator /\
  List.length (renderUtterances transcript matching highlightRegex)
  <= 2 * List.length matching - 1.
Proof.
  unfold renderUtterances.
  destruct (renderUtterances_for_pieces highlightRegex matching [] (-2)%Z)
    as (pieces & -> & Hfilter & Hlen & Hfirst).
  simpl. split; [exact Hfilter|].
  destruct matching as [|u matching].
  - simpl in *. destruct pieces; [split; [easy | simpl; lia]|].
    simpl in Hlen. lia.
  - destruct (Hfirst ltac:(lia) ltac:(discriminate)) as [Hlt Hhd].
    split; [exact Hhd | lia].
Qed.

(** * Further properties of the highlighter *)

Section HighlightFacts.






Lemma sameCodeUnit_true (ignoringCase : bool) (a b : ascii) :
  sameCodeUnit ignoringCase a b = true ->
  if ignoringCase then lowerChar a = lowerChar b else a = b.
Proof.
  unfold sameCodeUnit. destruct ignoringCase; apply Ascii.eqb_eq.
Qed.



Lemma drop_length (n : nat) (s : string) :
  String.length (drop n s) = String.length s - n.
Proof.
  revert s. induction n as [|n IH]; intros s; simpl.
  - now rewrite Nat.sub_0_r.
  - destruct s as [|c s]; [reflexivity | apply IH].
Qed.

Lemma drop_all (s : string) : drop (String.length s) s = EmptyString.
Proof. induction s as [|c s IH]; [reflexivity | exact IH]. Qed.












End HighlightFacts.







(** * Properties of the transcript modal *)

Section ModalFacts.

Lemma dropLast_snoc (s : string) (c : ascii) :
  dropLast (s ++ String c EmptyString) = s.
Proof.
  induction s as [|d s IH]; [reflexivity|].
  cbn [append dropLast]. rewrite IH.
  now destruct s.
Qed.

Lemma slice_quoted (match1 : string) : slice_1_m1 (quoted match1) = match1.
Proof. unfold slice_1_m1, quoted. cbn [drop]. apply dropLast_snoc. Qed.

(** The loop of the search parser does what the modal does in two
    steps. *)
Lemma extractPhrases_matchQuoted (fuel : nat) (unread : string)
    (terms : list SearchTerm) (remaining : string) :
  extractPhrases fuel unread terms remaining
  = match matchQuoted_fuel fuel unread with
    | None => None
    | Some matches =>
        Some (terms ++ map phraseTerm (map slice_1_m1 matches),
              fold_left removeFirst matches remaining)
    end.
Proof.
  revert unread terms remaining.
  induction fuel as [|fuel IH]; intros unread terms remaining; simpl;
    [reflexivity|].
  destruct (quoteRegex_exec unread) as [[match1 unread']|].
  - rewrite IH. destruct (matchQuoted_fuel fuel unread') as [matches|];
      [|reflexivity].
    cbn [option_map map fold_left]. rewrite slice_quoted, <- app_assoc.
    reflexivity.
  - simpl. now rewrite app_nil_r.
Qed.

Lemma matchQuoted_fuel_total (fuel : nat) (unread : string) :
  String.length unread < fuel ->
  exists matches, matchQuoted_fuel fuel unread = Some matches.
Proof.
  intros Hfuel.
  destruct (extractPhrases_total fuel unread [] unread Hfuel) as [out Hout].
  rewrite extractPhrases_matchQuoted in Hout.
  destruct (matchQuoted_fuel fuel unread) as [matches|]; [|discriminate].
  now exists matches.
Qed.

Lemma matchQuoted_fuel_more (fuel fuel' : nat) (unread : string)
    (matches : list string) :
  matchQuoted_fuel fuel unread = Some matches ->
  fuel <= fuel' ->
  matchQuoted_fuel fuel' unread = Some matches.
Proof.
  revert fuel' unread matches.
  induction fuel as [|fuel IH]; intros fuel' unread matches H Hle;
    [discriminate|].
  destruct fuel' as [|fuel']; [lia|].
  simpl in *. destruct (quoteRegex_exec unread) as [[match1 unread']|];
    [|exact H].
  destruct (matchQuoted_fuel fuel unread') as [ms|] eqn:E; [|discriminate].
  now rewrite (IH fuel' _ _ E ltac:(lia)).
Qed.

(** The search for quoted phrases always ends, and more fuel does not
    change what it finds. *)
Lemma matchQuoted_fuel_enough (fuel : nat) (query : string) :
  String.length query < fuel ->
  matchQuoted_fuel fuel query = Some (matchQuoted query).
Proof.
  intros Hfuel. unfold matchQuoted.
  destruct (matchQuoted_fuel_total (S (String.length query)) query
              ltac:(lia)) as [matches E].
  rewrite E. apply (matchQuoted_fuel_more _ _ _ _ E). lia.
Qed.

Lemma modalSearchTerms_parse (searchInput : string) :
  modalSearchTerms searchInput
  = map value (parseSearchQuery (trim searchInput)).
Proof.
  unfold modalSearchTerms.
  destruct (trim searchInput) as [|c query] eqn:Etrim; [reflexivity|].
  cbn [nonEmpty]. rewrite <- Etrim.
  unfold parseSearchQuery, parseSearchQuery_fuel.
  rewrite extractPhrases_matchQuoted.
  rewrite (matchQuoted_fuel_enough _ (trim searchInput)) by lia.
  rewrite pushKeywords_keywordParts, !map_app, !map_map.
  cbn [map app value phraseTerm keywordTerm]. unfold keywordParts.
  now rewrite map_id.
Qed.

Lemma modalBody_for_map (caseSensitive : bool) (searchTerms : list string)
    (rest : list Utterance) (html : list HtmlPiece) :
  modalBody_for caseSensitive searchTerms rest html
  = html ++
    map (fun u =>
           UtteranceHtml (speaker_type u) (start u) (end_ u)
             (highlightTextInModal caseSensitive (text u) searchTerms))
        rest.
Proof.
  revert html. induction rest as [|u rest IH]; intros html; simpl.
  - now rewrite app_nil_r.
  - now rewrite IH, <- app_assoc.
Qed.

Lemma find_none_iff (TRANSCRIPTS : list Transcript) (transcriptId : string) :
  find (fun t => (id t =? transcriptId)%string) TRANSCRIPTS = None <->
  forall t, In t TRANSCRIPTS -> id t <> transcriptId.
Proof.
  split.
  - intros H t Hin Hid. apply (find_none _ _ H) in Hin.
    apply String.eqb_neq in Hin. contradiction.
  - intros H. induction TRANSCRIPTS as [|t ts IH]; [reflexivity|].
    simpl. destruct (String.eqb_spec (id t) transcriptId) as [E | E].
    + exfalso. apply (H t); [now left | exact E].
    + apply IH. intros t' Ht'. apply H. now right.
Qed.

Lemma find_first (before after : list Transcript) (t : Transcript)
    (transcriptId : string) :
  id t = transcriptId ->
  (forall t', In t' before -> id t' <> transcriptId) ->
  find (fun t => (id t =? transcriptId)%string) (before ++ t :: after)
  = Some t.
Proof.
  intros Hid Hbefore. induction before as [|b before IH]; simpl.
  - apply String.eqb_eq in Hid. now rewrite Hid.
  - destruct (String.eqb_spec (id b) transcriptId) as [E | E].
    + exfalso. apply (Hbefore b); [now left | exact E].
    + apply IH. intros t' Ht'. apply Hbefore. now right.
Qed.


End ModalFacts.

(** X18.  The modal searches for what the search searches for.  Whenever
    [openTranscriptModal] opens the modal, the terms it highlights and
    lists in the subtitle, which it computes in its own way (all quoted
    matches at once, then the removals, then the pieces), are the values
    of the terms that [parseSearchQuery] yields for the trimmed input, in
    the same order. *)
Theorem modal_terms_are_the_search_terms
    (TRANSCRIPTS : list Transcript) (caseSensitive : bool)
    (searchInput transcriptId : string) (view : ModalView) :
  openTranscriptModal TRANSCRIPTS caseSensitive searchInput transcriptId
  = Some view ->
  modalSearching view = map value (parseSearchQuery (trim searchInput)).
Proof.
  unfold openTranscriptModal.
  destruct (find _ TRANSCRIPTS) as [transcript|]; [|discriminate].
  intros [= <-]. cbn [modalSearching]. apply modalSearchTerms_parse.
Qed.

Lemma modal_terms_are_the_search_terms_witness :
  exists view,
    openTranscriptModal [helpCall; thanksCall] false "help; thanks" "call-1"
    = Some view /\
    modalSearching view = map value (parseSearchQuery (trim "help; thanks")).
Proof.
  eexists. split; [reflexivity|].
  apply (modal_terms_are_the_search_terms [helpCall; thanksCall] false
           "help; thanks" "call-1").
  reflexivity.
Defined.

(** X19.  The modal shows the whole transcript.  [openTranscriptModal]
    leaves the modal alone exactly when no transcript has the given id.
    Otherwise it shows the first transcript of the corpus with that id:
    its name, the number of its utterances, and one block for every
    utterance, in order, whatever the speaker filter; the text of a block
    is the utterance text highlighted for the terms of the current input,
    and is the utterance text itself when the input parses to no term. *)
Theorem modal_shows_every_utterance
    (TRANSCRIPTS : list Transcript) (caseSensitive : bool)
    (searchInput transcriptId : string) :
  (openTranscriptModal TRANSCRIPTS caseSensitive searchInput transcriptId
   = None <->
   forall t, In t TRANSCRIPTS -> id t <> transcriptId) /\
  (forall before t after,
     TRANSCRIPTS = before ++ t :: after ->
     id t = transcriptId ->
     (forall t', In t' before -> id t' <> transcriptId) ->
     exists view,
       openTranscriptModal TRANSCRIPTS caseSensitive searchInput
         transcriptId = Some view /\
       modalTitle view = name t /\
       modalUtterances view = List.length (utterances t) /\
       modalBody view
       = map (fun u =>
                UtteranceHtml (speaker_type u) (start u) (end_ u)
                  (highlightTextInModal caseSensitive (text u)
                     (map value (parseSearchQuery (trim searchInput)))))
           (utterances t) /\
       (parseSearchQuery (trim searchInput) = [] ->
        map pieceText (modalBody view) = map text (utterances t))).
Proof.
  split.
  - unfold openTranscriptModal. rewrite <- find_none_iff.
    destruct (find _ TRANSCRIPTS); split; congruence.
  - intros before t after -> Hid Hbefore.
    unfold openTranscriptModal.
    rewrite (find_first before after t transcriptId Hid Hbefore).
    eexists. split; [reflexivity|]. cbn [modalTitle modalUtterances modalBody].
    rewrite modalBody_for_map, modalSearchTerms_parse. cbn [app].
    repeat split. intros ->. cbn [map]. rewrite map_map.
    apply map_ext. intros u. reflexivity.
Qed.

Lemma modal_shows_every_utterance_witness :
  [helpCall; thanksCall] = [] ++ helpCall :: [thanksCall] /\
  id helpCall = "call-1" /\
  exists view,
    openTranscriptModal [helpCall; thanksCall] false "help" "call-1"
    = Some view /\
    modalTitle view = name helpCall /\
    modalUtterances view = List.length (utterances helpCall) /\
    modalBody view
    = map (fun u =>
             UtteranceHtml (speaker_type u) (start u) (end_ u)
               (highlightTextInModal false (text u)
                  (map value (parseSearchQuery (trim "help")))))
        (utterances helpCall) /\
    (parseSearchQuery (trim "help") = [] ->
     map pieceText (modalBody view) = map text (utterances helpCall)).
Proof.
  assert (H1 : [helpCall; thanksCall] = [] ++ helpCall :: [thanksCall])
    by reflexivity.
  assert (H2 : id helpCall = "call-1") by reflexivity.
  split; [exact H1|]. split; [exact H2|].
  apply (proj2 (modal_shows_every_utterance [helpCall; thanksCall] false
                  "help" "call-1") [] helpCall [thanksCall] H1 H2).
  intros t' [].
Defined.



(** * Properties of the transcript reader *)

Section ReaderStrings.

(** ** Code points *)




Lemma digit_lowerChar (c : ascii) :
  isdecimal c = true -> lowerChar c = c.
Proof.
  destruct c as [[] [] [] [] [] [] [] []]; vm_compute; congruence.
Qed.

Lemma lowerChar_digit (c : ascii) :
  isdecimal (lowerChar c) = isdecimal c.
Proof. destruct c as [[] [] [] [] [] [] [] []]; reflexivity. Qed.


(** ** Runs of a class *)




Lemma allIn_Digit_lower (s : string) :
  allIn Digit s = true -> lower s = s.
Proof.
  induction s as [|c s IH]; [reflexivity|].
  cbn [allIn]. rewrite andb_true_iff. intros [Hc Hs].
  unfold lower in *. cbn [toLowerCase].
  now rewrite IH, digit_lowerChar.
Qed.

Lemma allIn_Dot_occurs (s : string) :
  allIn Dot s = negb (occurs LF s).
Proof.
  induction s as [|c s IH]; [reflexivity|].
  cbn [allIn occurs inClass]. now rewrite IH, negb_orb.
Qed.

(** ** [substring] and [taken] *)

Lemma substring_prefix (pre rest : string) :
  substring 0 (String.length pre) (pre ++ rest) = pre.
Proof.
  induction pre as [|c pre IH]; simpl.
  - now destruct rest.
  - now rewrite IH.
Qed.

Lemma taken_app (pre rest : string) : taken (pre ++ rest) rest = pre.
Proof.
  unfold taken. rewrite string_length_app.
  replace (String.length pre + String.length rest - String.length rest)
    with (String.length pre) by lia.
  apply substring_prefix.
Qed.


(** ** [strip] *)

Lemma lstrip_first (s : string) : startsOutside Space (lstrip s).
Proof.
  induction s as [|c s IH]; simpl; [exact I|].
  destruct (isspace c) eqn:W; [exact IH | exact W].
Qed.

Lemma lstrip_fixed (s : string) : startsOutside Space s -> lstrip s = s.
Proof. destruct s as [|c s]; simpl; [easy | now intros ->]. Qed.



Lemma rstrip_idempotent (s : string) : rstrip (rstrip s) = rstrip s.
Proof.
  induction s as [|c s IH]; simpl; [reflexivity|].
  destruct (rstrip s) as [|e r] eqn:E.
  - destruct (isspace c) eqn:W; simpl; [reflexivity | now rewrite W].
  - simpl in IH |- *. now rewrite IH.
Qed.

Lemma rstrip_first (c : ascii) (s : string) :
  isspace c = false -> exists r, rstrip (String c s) = String c r.
Proof.
  intros W. simpl. destruct (rstrip s) as [|e r].
  - rewrite W. now exists EmptyString.
  - now exists (String e r).
Qed.

Lemma strip_idempotent (s : string) : strip (strip s) = strip s.
Proof.
  unfold strip. pose proof (lstrip_first s) as Hfirst.
  destruct (lstrip s) as [|c t] eqn:E; [reflexivity|].
  destruct (rstrip_first c t Hfirst) as [r Hr]. rewrite Hr.
  rewrite lstrip_fixed by exact Hfirst.
  rewrite <- Hr. apply rstrip_idempotent.
Qed.



Lemma allIn_lstrip (cl : CharClass) (s : string) :
  allIn cl s = true -> allIn cl (lstrip s) = true.
Proof.
  induction s as [|c s IH]; simpl; [easy|].
  rewrite andb_true_iff. intros [Hc Hs].
  destruct (isspace c); [now apply IH | simpl; now rewrite Hc, Hs].
Qed.

Lemma allIn_rstrip (cl : CharClass) (s : string) :
  allIn cl s = true -> allIn cl (rstrip s) = true.
Proof.
  induction s as [|c s IH]; simpl; [easy|].
  rewrite andb_true_iff. intros [Hc Hs]. specialize (IH Hs).
  destruct (rstrip s) as [|e r].
  - destruct (isspace c); simpl; [reflexivity | now rewrite Hc].
  - cbn [allIn] in *. now rewrite Hc, IH.
Qed.

Lemma allIn_strip (cl : CharClass) (s : string) :
  allIn cl s = true -> allIn cl (strip s) = true.
Proof. intros H. now apply allIn_rstrip, allIn_lstrip. Qed.

Lemma occurs_lstrip (c : ascii) (s : string) :
  occurs c s = false -> occurs c (lstrip s) = false.
Proof.
  induction s as [|d s IH]; simpl; [easy|].
  rewrite orb_false_iff. intros [Hd Hs].
  destruct (isspace d); [now apply IH | simpl; now rewrite Hd, Hs].
Qed.

Lemma occurs_rstrip (c : ascii) (s : string) :
  occurs c s = false -> occurs c (rstrip s) = false.
Proof.
  induction s as [|d s IH]; simpl; [easy|].
  rewrite orb_false_iff. intros [Hd Hs]. specialize (IH Hs).
  destruct (rstrip s) as [|e r].
  - destruct (isspace d); simpl; [reflexivity | now rewrite Hd].
  - cbn [occurs] in *. now rewrite Hd, IH.
Qed.

Lemma occurs_strip (c : ascii) (s : string) :
  occurs c s = false -> occurs c (strip s) = false.
Proof. intros H. now apply occurs_rstrip, occurs_lstrip. Qed.

(** ** [split] *)

Lemma split_nonempty (sep : ascii) (s : string) : split sep s <> [].
Proof.
  destruct s as [|c s]; simpl; [discriminate|].
  destruct (Ascii.eqb c sep); [discriminate|].
  destruct (split sep s); discriminate.
Qed.

Lemma split_app (sep : ascii) (a b : string) :
  split sep (a ++ String sep b) = split sep a ++ split sep b.
Proof.
  induction a as [|c a IH]; simpl.
  - now rewrite Ascii.eqb_refl.
  - rewrite IH. destruct (Ascii.eqb c sep); [reflexivity|].
    pose proof (split_nonempty sep a) as Hne.
    destruct (split sep a) as [|piece pieces]; [easy | reflexivity].
Qed.



Lemma split_occurs (c sep : ascii) (s : string) :
  occurs c s = false ->
  Forall (fun piece => occurs c piece = false) (split sep s).
Proof.
  induction s as [|d s IH]; simpl.
  - intros _. now repeat constructor.
  - rewrite orb_false_iff. intros [Hd Hs]. specialize (IH Hs).
    destruct (Ascii.eqb d sep).
    + constructor; [reflexivity | exact IH].
    + destruct (split sep s) as [|piece pieces].
      * repeat constructor. simpl. now rewrite Hd.
      * inversion IH as [|? ? Hp Hps]; subst.
        constructor; [simpl; now rewrite Hd, Hp | exact Hps].
Qed.

End ReaderStrings.

(** * Properties of the pattern matcher *)

Section MatcherOfPatterns.

Context {A : Type}.

(** ** What a successful match tells *)

Lemma many_sound (cl : CharClass) (s : string) (k : string -> option A)
    (x : A) :
  many cl s k = Some x ->
  exists pre rest,
    s = (pre ++ rest)%string /\ allIn cl pre = true /\ k rest = Some x.
Proof.
  induction s as [|c s IH]; simpl.
  - intros H. now exists EmptyString, EmptyString.
  - destruct (inClass cl c) eqn:Hc.
    + destruct (many cl s k) as [a|] eqn:M.
      * intros [= ->]. destruct (IH eq_refl) as (pre & rest & -> & Hp & Hk).
        exists (String c pre), rest. simpl. now rewrite Hc, Hp.
      * intros H. now exists EmptyString, (String c s).
    + intros H. now exists EmptyString, (String c s).
Qed.

Lemma matchRe_sound (ignoreCase : bool) (r : Regex) (s : string)
    (k : string -> option A) (x : A) :
  matchRe ignoreCase r s k = Some x ->
  exists pre rest,
    s = (pre ++ rest)%string /\ Lang ignoreCase r pre rest /\
    k rest = Some x.
Proof.
  revert s k.
  induction r as [|c|cl|r1 IH1 r2 IH2|r1 IH1 r2 IH2|cl|]; intros s k H;
    cbn [matchRe] in H.
  - now exists EmptyString, s.
  - destruct s as [|d s]; [discriminate|].
    destruct (sameCodeUnit ignoreCase d c) eqn:E; [|discriminate].
    exists (String d EmptyString), s. repeat split; [|exact H].
    now exists d.
  - destruct s as [|d s]; [discriminate|].
    destruct (inClass cl d) eqn:E; [|discriminate].
    exists (String d EmptyString), s. repeat split; [|exact H].
    now exists d.
  - destruct (IH1 _ _ H) as (p1 & rest1 & -> & L1 & H1).
    destruct (IH2 _ _ H1) as (p2 & rest & -> & L2 & H2).
    exists (p1 ++ p2)%string, rest.
    split; [now rewrite string_app_assoc|].
    split; [|exact H2]. now exists p1, p2.
  - destruct (matchRe ignoreCase r1 s k) as [a|] eqn:E.
    + injection H as ->. destruct (IH1 _ _ E) as (pre & rest & -> & L & Hk).
      exists pre, rest. repeat split; [now left | exact Hk].
    + destruct (IH2 _ _ H) as (pre & rest & -> & L & Hk).
      exists pre, rest. repeat split; [now right | exact Hk].
  - destruct (many_sound _ _ _ _ H) as (pre & rest & -> & Hp & Hk).
    now exists pre, rest.
  - destruct (atEnd s) eqn:E; [|discriminate].
    now exists EmptyString, s.
Qed.

(** ** Matches that are found *)




Lemma word_same (w w' rest : string) (k : string -> option A) :
  toLowerCase w' = toLowerCase w ->
  matchRe true (word w) (w' ++ rest) k = k rest.
Proof.
  revert w'. induction w as [|c w IH]; intros [|d w'] H;
    try discriminate; [reflexivity|].
  cbn [toLowerCase] in H. injection H as Hd Hw.
  cbn [word matchRe append]. unfold sameCodeUnit.
  rewrite Hd, Ascii.eqb_refl. now apply IH.
Qed.

Lemma word_exact (w rest : string) (k : string -> option A) :
  matchRe false (word w) (w ++ rest) k = k rest.
Proof.
  induction w as [|c w IH]; [reflexivity|].
  cbn [word matchRe append]. unfold sameCodeUnit.
  now rewrite Ascii.eqb_refl.
Qed.


End MatcherOfPatterns.

Section LanguageOfPatterns.

Lemma word_Lang (w pre rest : string) :
  Lang true (word w) pre rest -> toLowerCase pre = toLowerCase w.
Proof.
  revert pre rest. induction w as [|c w IH]; intros pre rest; cbn [word Lang].
  - now intros ->.
  - intros (p1 & p2 & -> & (d & -> & Hd) & H2).
    apply sameCodeUnit_true in Hd. cbn [append toLowerCase].
    simpl in Hd. rewrite Hd. f_equal. exact (IH _ _ H2).
Qed.

Lemma word_Lang_exact (w pre rest : string) :
  Lang false (word w) pre rest -> pre = w.
Proof.
  revert pre rest. induction w as [|c w IH]; intros pre rest; cbn [word Lang].
  - now intros ->.
  - intros (p1 & p2 & -> & (d & -> & Hd) & H2).
    apply sameCodeUnit_true in Hd. simpl in Hd. subst d.
    cbn [append]. f_equal. exact (IH _ _ H2).
Qed.

Lemma oneOrMore_Lang (ignoreCase : bool) (cl : CharClass)
    (pre rest : string) :
  Lang ignoreCase (oneOrMore cl) pre rest ->
  pre <> EmptyString /\ allIn cl pre = true.
Proof.
  unfold oneOrMore. cbn [Lang].
  intros (p1 & p2 & -> & (d & -> & Hd) & H2).
  split; [discriminate|]. cbn [append allIn]. now rewrite Hd, H2.
Qed.

End LanguageOfPatterns.

(** * Properties of the line pattern *)

Section LinePattern.

Lemma lowerChar_bracket (d : ascii) :
  lowerChar d = "["%char -> d = "["%char.
Proof. destruct d as [[] [] [] [] [] [] [] []]; vm_compute; congruence. Qed.





(** ** Each part of the pattern on a part of a line *)

Context {A : Type}.
Variable k : string -> option A.
Variable x : A.






End LinePattern.

Section LineLayout.



(** ** What a matched line looks like *)

Lemma speaker_Lang (pre rest : string) :
  Lang true speakerPattern pre rest -> isSpeakerLabel pre.
Proof.
  unfold speakerPattern. cbn [Lang].
  intros [H | [H | (p1 & p2 & -> & H1 & H2)]].
  - left. exact (word_Lang _ _ _ H).
  - right. left. exact (word_Lang _ _ _ H).
  - right. right. exists p1, p2. split; [reflexivity|].
    split; [exact (word_Lang _ _ _ H1) | exact (oneOrMore_Lang _ _ _ _ H2)].
Qed.

Lemma time_Lang (pre rest : string) :
  Lang true timePattern pre rest -> isTime pre.
Proof.
  unfold timePattern. cbn [Lang].
  intros (minutes & p2 & -> & Hm & (colon & seconds & -> & (d & -> & Hd) & Hs)).
  apply sameCodeUnit_true in Hd. simpl in Hd.
  assert (d = ":"%char) as ->.
  { revert Hd. destruct d as [[] [] [] [] [] [] [] []]; vm_compute;
      congruence. }
  exists minutes, seconds. split; [reflexivity|].
  split; [exact (oneOrMore_Lang _ _ _ _ Hm)|].
  exact (oneOrMore_Lang _ _ _ _ Hs).
Qed.

Lemma afterSpeaker_Lang (pre rest : string) :
  Lang true afterSpeaker pre rest -> occurs "["%char pre = true.
Proof.
  unfold afterSpeaker. cbn [Lang].
  intros (gap1 & p2 & -> & _ & (kw & gap2 & -> & Hkw & _)).
  apply word_Lang in Hkw. destruct kw as [|d kw]; [discriminate|].
  injection Hkw as Hd _. apply lowerChar_bracket in Hd. subst d.
  rewrite !occurs_app. cbn [occurs]. rewrite Ascii.eqb_refl.
  now rewrite orb_true_r.
Qed.

Lemma match_pattern_sound (line g1 g2 g3 g4 : string) :
  match_pattern line = Some (g1, g2, g3, g4) ->
  isSpeakerLabel g1 /\ isTime g2 /\ isTime g3 /\ allIn Dot g4 = true /\
  occurs "["%char line = true.
Proof.
  unfold match_pattern. intros H.
  apply matchRe_sound in H. destruct H as (p1 & s1 & -> & L1 & H).
  apply matchRe_sound in H. destruct H as (p2 & s2 & -> & L2 & H).
  apply matchRe_sound in H. destruct H as (p3 & s3 & -> & L3 & H).
  apply matchRe_sound in H. destruct H as (p4 & s4 & -> & L4 & H).
  apply matchRe_sound in H. destruct H as (p5 & s5 & -> & L5 & H).
  apply matchRe_sound in H. destruct H as (p6 & s6 & -> & L6 & H).
  apply matchRe_sound in H. destruct H as (p7 & s7 & -> & L7 & H).
  apply matchRe_sound in H. destruct H as (p8 & s8 & -> & L8 & H).
  rewrite !taken_app in H. injection H as <- <- <- <-.
  split; [exact (speaker_Lang _ _ L1)|].
  split; [exact (time_Lang _ _ L3)|].
  split; [exact (time_Lang _ _ L5)|].
  split; [exact L7|].
  rewrite !occurs_app, (afterSpeaker_Lang _ _ L2).
  now rewrite orb_true_r.
Qed.

End LineLayout.

(** * Properties of [parse_transcript] *)

Section ReaderLoop.

Lemma parse_transcript_for_flat (lines : list string)
    (utterances : list Utterance) (full_text_parts : list string) :
  parse_transcript_for lines utterances full_text_parts
  = (utterances ++ utterancesOfLines lines,
     full_text_parts ++ map fullTextPart (utterancesOfLines lines)).
Proof.
  revert utterances full_text_parts.
  induction lines as [|line lines IH]; intros utterances full_text_parts.
  - simpl. now rewrite !app_nil_r.
  - cbn [parse_transcript_for utterancesOfLines flat_map].
    fold (utterancesOfLines lines). unfold utteranceOfLine.
    destruct (negb (nonEmpty (strip line))); [apply IH|].
    destruct (match_pattern (strip line)) as [[[[g1 g2] g3] g4]|];
      [|apply IH].
    rewrite IH. cbn [optionToList app map]. now rewrite <- !app_assoc.
Qed.

Lemma parse_transcript_eq (filepath : Path.t) (content : string) :
  parse_transcript filepath content
  = {| id := Path.stem filepath;
       name := without_extension (without_prefix (Path.stem filepath));
       filename := Path.name filepath;
       utterances := utterancesOfLines (split LF content);
       full_text :=
         String.concat (String LF EmptyString)
           (map fullTextPart (utterancesOfLines (split LF content)));
       utterance_count :=
         List.length (utterancesOfLines (split LF content)) |}.
Proof.
  unfold parse_transcript. now rewrite parse_transcript_for_flat.
Qed.

Lemma utterancesOfLines_app (lines1 lines2 : list string) :
  utterancesOfLines (lines1 ++ lines2)
  = utterancesOfLines lines1 ++ utterancesOfLines lines2.
Proof. apply flat_map_app. Qed.

(** ** Lines in the layout *)









(** ** What a line adds *)

Lemma utteranceOfLine_WellFormed (line : string) (u : Utterance) :
  utteranceOfLine line = Some u ->
  WellFormed u /\ occurs "["%char (strip line) = true.
Proof.
  unfold utteranceOfLine.
  destruct (negb (nonEmpty (strip line))); [discriminate|].
  destruct (match_pattern (strip line)) as [[[[g1 g2] g3] g4]|] eqn:E;
    [|discriminate].
  intros [= <-].
  destruct (match_pattern_sound _ _ _ _ _ E) as (H1 & H2 & H3 & H4 & H5).
  split; [|exact H5].
  repeat split; cbn [speaker start end_ text speaker_type];
    [exact H1 | exact H2 | exact H3 | apply strip_idempotent
     | now apply allIn_strip].
Qed.

Lemma utteranceOfLine_no_bracket (line : string) :
  occurs "["%char line = false -> utteranceOfLine line = None.
Proof.
  intros H. destruct (utteranceOfLine line) as [u|] eqn:E; [|reflexivity].
  apply utteranceOfLine_WellFormed in E. destruct E as [_ E].
  now rewrite (occurs_strip _ _ H) in E.
Qed.

Lemma utterancesOfLines_no_bracket (lines : list string) :
  Forall (fun line => occurs "["%char line = false) lines ->
  utterancesOfLines lines = [].
Proof.
  induction 1 as [|line lines Hline _ IH]; [reflexivity|].
  cbn [utterancesOfLines flat_map]. fold (utterancesOfLines lines).
  now rewrite (utteranceOfLine_no_bracket _ Hline), IH.
Qed.

Lemma utterancesOfLines_WellFormed (lines : list string) (u : Utterance) :
  In u (utterancesOfLines lines) -> WellFormed u.
Proof.
  unfold utterancesOfLines. rewrite in_flat_map. intros (line & _ & Hu).
  destruct (utteranceOfLine line) as [v|] eqn:E; [|contradiction].
  destruct Hu as [<- | []]. now apply (utteranceOfLine_WellFormed line).
Qed.

End ReaderLoop.

(** * The display name *)

Section DisplayName.

Lemma without_prefix_prefixed (rest : string) :
  without_prefix ("audio_Call1-" ++ rest) = rest.
Proof. unfold without_prefix. now rewrite word_exact. Qed.

Lemma sub_empty_inside (ignoreCase : bool) (r : Regex) (s : string)
    (inside : nat) :
  String.length s <= inside -> sub_empty ignoreCase r s inside = EmptyString.
Proof.
  revert inside. induction s as [|c s IH]; intros inside H; [reflexivity|].
  destruct inside as [|inside]; simpl in *; [lia|]. apply IH. lia.
Qed.

Lemma atEnd_true (s : string) :
  atEnd s = true -> s = EmptyString \/ s = String LF EmptyString.
Proof.
  destruct s as [|c [|d s]]; simpl; [now left | | discriminate].
  intros H. apply Ascii.eqb_eq in H. subst c. now right.
Qed.

Lemma extension_length (ext : string) :
  lower ext = ".mp3" -> String.length ext = 4.
Proof.
  intros H. unfold lower in H.
  now rewrite <- (toLowerCase_length ext), H.
Qed.

Lemma extension_match (ext : string) :
  lower ext = ".mp3" ->
  matchLength true (Cat (word ".MP3") EndOfString) ext = Some 4.
Proof.
  intros H. unfold matchLength. rewrite <- (string_app_nil_r ext) at 1.
  cbn [matchRe]. rewrite (word_same ".MP3" ext) by exact H.
  cbn [atEnd String.length]. now rewrite Nat.sub_0_r, (extension_length _ H).
Qed.

(** Before the extension at the end of the name the pattern does not
    match. *)
Lemma extension_no_match (c : ascii) (base ext : string) :
  lower ext = ".mp3" ->
  matchLength true (Cat (word ".MP3") EndOfString) (String c (base ++ ext))
  = None.
Proof.
  intros H.
  destruct (matchLength true (Cat (word ".MP3") EndOfString)
              (String c (base ++ ext))) as [n|] eqn:E; [exfalso|reflexivity].
  unfold matchLength in E. apply matchRe_sound in E.
  destruct E as (pre & rest & Hs & L & _). cbn [Lang] in L.
  destruct L as (p1 & p2 & -> & L1 & -> & Hend).
  apply word_Lang in L1. rewrite string_app_nil_r in Hs.
  assert (Hp1 : String.length p1 = 4)
    by now rewrite <- (toLowerCase_length p1), L1.
  pose proof (extension_length _ H) as Hext.
  pose proof (f_equal String.length Hs) as Hlen.
  cbn [String.length] in Hlen. rewrite !string_length_app in Hlen.
  destruct (atEnd_true _ Hend) as [-> | ->]; simpl in Hlen; [lia|].
  destruct base as [|b base]; [|simpl in Hlen; lia].
  destruct ext as [|e1 [|e2 [|e3 [|e4 [|e5 ext]]]]]; try discriminate.
  destruct p1 as [|q1 [|q2 [|q3 [|q4 [|q5 p1]]]]]; try discriminate.
  simpl in Hs. injection Hs as _ _ _ _ He4. subst e4.
  unfold lower in H. simpl in H. discriminate.
Qed.

Lemma without_extension_ext (base ext : string) :
  lower ext = ".mp3" -> without_extension (base ++ ext) = base.
Proof.
  intros H. unfold without_extension.
  induction base as [|c base IH].
  - pose proof (extension_length _ H) as Hlen.
    pose proof (extension_match _ H) as Hmatch.
    destruct ext as [|e ext']; [discriminate|].
    cbn [append sub_empty]. rewrite Hmatch.
    apply sub_empty_inside. simpl in Hlen. lia.
  - cbn [append sub_empty]. rewrite (extension_no_match c base ext H).
    now rewrite IH.
Qed.

End DisplayName.

(** * The properties of the reader *)



(** X22.  What the reader returns is well formed.  For every file,
    every utterance that [parse_transcript] returns has a speaker that is
    Agent, Customer or Speaker with a number (in any case), two times that
    are a number, a colon and a number, a text on one line without white
    space at its ends, and the speaker type agent when the speaker in lower
    case is agent or speaker 2, customer otherwise. *)
Theorem read_utterances_are_well_formed
    (filepath : Path.t) (content : string) (u : Utterance) :
  In u (utterances (parse_transcript filepath content)) -> WellFormed u.
Proof.
  rewrite parse_transcript_eq. cbn [utterances].
  apply utterancesOfLines_WellFormed.
Qed.

Lemma read_utterances_are_well_formed_witness :
  In agentHello (utterances (parse_transcript callPath agentLine)) /\
  WellFormed agentHello.
Proof.
  assert (H : In agentHello (utterances (parse_transcript callPath agentLine)))
    by (vm_compute; now left).
  split; [exact H|].
  exact (read_utterances_are_well_formed callPath agentLine agentHello H).
Defined.

(** X23.  The reader works line by line.  For every two texts, the
    utterances read from the first, a line feed and the second are the
    utterances read from the first followed by those read from the second,
    and the counts add up. *)
Theorem reading_is_line_by_line
    (filepath : Path.t) (content1 content2 : string) :
  utterances
    (parse_transcript filepath (content1 ++ String LF content2))
  = utterances (parse_transcript filepath content1)
    ++ utterances (parse_transcript filepath content2) /\
  utterance_count
    (parse_transcript filepath (content1 ++ String LF content2))
  = utterance_count (parse_transcript filepath content1)
    + utterance_count (parse_transcript filepath content2).
Proof.
  rewrite !parse_transcript_eq. cbn [utterances utterance_count].
  rewrite split_app, utterancesOfLines_app, length_app. now split.
Qed.

(** X24.  Text that is not in the layout is dropped without an error.  For
    every file whose text has no opening square bracket,
    [parse_transcript] returns a transcript without utterances: the list
    is empty, the count is 0 and [full_text] is empty. *)
Theorem text_without_layout_has_no_utterances
    (filepath : Path.t) (content : string) :
  occurs "["%char content = false ->
  utterances (parse_transcript filepath content) = [] /\
  utterance_count (parse_transcript filepath content) = 0 /\
  full_text (parse_transcript filepath content) = EmptyString.
Proof.
  intros H. rewrite parse_transcript_eq.
  cbn [utterances utterance_count full_text].
  now rewrite (utterancesOfLines_no_bracket _ (split_occurs _ LF _ H)).
Qed.

Lemma text_without_layout_has_no_utterances_witness :
  occurs "["%char plainNotes = false /\
  utterances (parse_transcript callPath plainNotes) = [] /\
  utterance_count (parse_transcript callPath plainNotes) = 0 /\
  full_text (parse_transcript callPath plainNotes) = EmptyString.
Proof.
  assert (H : occurs "["%char plainNotes = false) by reflexivity.
  split; [exact H|].
  exact (text_without_layout_has_no_utterances callPath plainNotes H).
Defined.

(** X25.  The name shown for a recording.  For every file whose stem is
    audio_Call1- followed by a base name and the extension .mp3 in any
    case, [parse_transcript] gives the transcript the whole stem as [id],
    the base name alone as [name], and the name of the file as
    [filename]. *)
Theorem display_name_of_a_recording
    (filepath : Path.t) (content base ext : string) :
  Path.stem filepath = ("audio_Call1-" ++ base ++ ext)%string ->
  lower ext = ".mp3" ->
  id (parse_transcript filepath content) = Path.stem filepath /\
  name (parse_transcript filepath content) = base /\
  filename (parse_transcript filepath content) = Path.name filepath.
Proof.
  intros Hstem Hext. rewrite parse_transcript_eq. cbn [id name filename].
  rewrite Hstem, without_prefix_prefixed, (without_extension_ext _ _ Hext).
  now repeat split.
Qed.

Lemma display_name_of_a_recording_witness :
  Path.stem callPath = ("audio_Call1-" ++ "0001" ++ ".MP3")%string /\
  lower ".MP3" = ".mp3" /\
  id (parse_transcript callPath agentLine) = Path.stem callPath /\
  name (parse_transcript callPath agentLine) = "0001" /\
  filename (parse_transcript callPath agentLine) = Path.name callPath.
Proof.
  assert (H1 : Path.stem callPath = ("audio_Call1-" ++ "0001" ++ ".MP3")%string)
    by reflexivity.
  assert (H2 : lower ".MP3" = ".mp3") by reflexivity.
  split; [exact H1|]. split; [exact H2|].
  exact (display_name_of_a_recording callPath agentLine "0001" ".MP3" H1 H2).
Defined.

(** * The search on a corpus that was read *)

Section ReadCorpus.

Lemma list_sum_split {B : Type} (g : B -> nat) (p q : B -> bool)
    (l : list B) :
  (forall b, In b l -> p b = negb (q b)) ->
  list_sum (map g l)
  = list_sum (map g (filter p l)) + list_sum (map g (filter q l)).
Proof.
  induction l as [|b l IH]; intros H; [reflexivity|].
  cbn [map filter]. rewrite (H b) by now left.
  change (list_sum (g b :: map g l)) with (g b + list_sum (map g l)).
  rewrite IH by (intros b' Hb'; apply H; now right).
  destruct (q b); cbn [negb map];
    [change (list_sum (g b :: map g (filter q l)))
       with (g b + list_sum (map g (filter q l)))
    |change (list_sum (g b :: map g (filter p l)))
       with (g b + list_sum (map g (filter p l)))]; lia.
Qed.

Lemma filters_exclusive (u : Utterance) :
  speaker_type u = "agent" \/ speaker_type u = "customer" ->
  passesFilterb "agent" u = negb (passesFilterb "customer" u).
Proof. unfold passesFilterb. now intros [-> | ->]. Qed.

Variable fuel : nat.
Variable terms : list SearchTerm.
Variable caseSensitive : bool.

(** On utterances of the two speaker types, the count without filter is
    the sum of the counts under the two filters. *)
Lemma scanUtterances_split (rest : list Utterance)
    (m0 mA mC : list MatchingUtterance) (t0 tA tC : nat) :
  (forall u, In u rest ->
     speaker_type u = "agent" \/ speaker_type u = "customer") ->
  scanUtterances fuel terms "all" caseSensitive rest 0 [] 0 = Some (m0, t0) ->
  scanUtterances fuel terms "agent" caseSensitive rest 0 [] 0
  = Some (mA, tA) ->
  scanUtterances fuel terms "customer" caseSensitive rest 0 [] 0
  = Some (mC, tC) ->
  t0 = tA + tC.
Proof.
  intros Htypes H0 HA HC.
  destruct (scanUtterances_narrowed _ _ _ _ _ _ _ _ _ _ _ _ _ _ HA H0)
    as (addedA & added0 & _ & E0 & FA & TA & T0).
  destruct (scanUtterances_narrowed _ _ _ _ _ _ _ _ _ _ _ _ _ _ HC H0)
    as (addedC & added0' & _ & E0' & FC & TC & _).
  simpl in E0, E0'. subst m0. subst added0'.
  destruct (scanUtterances_exact _ _ _ _ _ _ _ _ _ _ H0)
    as (added & E & _ & Hu & _).
  simpl in E. subst added.
  rewrite T0, TA, TC, FA, FC. simpl.
  apply list_sum_split. intros e He. apply filters_exclusive, Htypes.
  assert (Hin : In (utterance e) (map utterance added0))
    by now apply in_map.
  rewrite Hu in Hin. now apply filter_In in Hin.
Qed.

(** The total of a run is the sum of the counts of the transcripts: a
    transcript that is left out of the results has the count 0. *)
Lemma scanTranscripts_sum (speakerFilter : string) (rest : list Transcript)
    (results results' : list SearchResult) (total total' : nat) :
  scanTranscripts fuel terms speakerFilter caseSensitive rest results total
  = Some (results', total') ->
  total'
  = total
    + list_sum (map (transcriptTotal fuel terms speakerFilter caseSensitive)
                  rest).
Proof.
  revert results total.
  induction rest as [|t rest IH]; intros results total.
  - intros [= _ <-]. simpl. lia.
  - cbn [scanTranscripts map]. unfold transcriptTotal at 1.
    destruct (scanUtterances fuel terms speakerFilter caseSensitive
                (utterances t) 0 [] 0) as [[matching tm]|] eqn:E;
      [|discriminate].
    destruct (scanUtterances_exact _ _ _ _ _ _ _ _ _ _ E)
      as (added & Em & Et & _ & _).
    simpl in Em, Et. subst added.
    change (list_sum (tm :: ?l)) with (tm + list_sum l).
    destruct (0 <? List.length matching)%nat eqn:Elen; intros H;
      rewrite (IH _ _ H).
    + change (list_sum
                (tm :: map (transcriptTotal fuel terms speakerFilter
                              caseSensitive) rest))
        with (tm + list_sum
                     (map (transcriptTotal fuel terms speakerFilter
                             caseSensitive) rest)).
      lia.
    + apply Nat.ltb_ge in Elen. destruct matching; [|simpl in Elen; lia].
      simpl in Et. subst tm. reflexivity.
Qed.

Lemma transcriptTotal_split (rest : list Transcript) :
  valuesNonEmpty terms -> textsShorterThan fuel rest ->
  twoSpeakerTypes rest ->
  list_sum (map (transcriptTotal fuel terms "all" caseSensitive) rest)
  = list_sum (map (transcriptTotal fuel terms "agent" caseSensitive) rest)
    + list_sum (map (transcriptTotal fuel terms "customer" caseSensitive)
                  rest).
Proof.
  intros Hterms. induction rest as [|t rest IH]; intros Hlen Htypes;
    [reflexivity|].
  assert (Hlen' : textsShorterThan fuel rest)
    by (intros t' u Ht' Hu; apply (Hlen t' u); [now right | exact Hu]).
  assert (Htypes' : twoSpeakerTypes rest)
    by (intros t' u Ht' Hu; apply (Htypes t' u); [now right | exact Hu]).
  assert (Ht : forall u, In u (utterances t) -> String.length (text u) < fuel)
    by (intros u Hu; apply (Hlen t u); [now left | exact Hu]).
  destruct (scanUtterances_total fuel terms "all" caseSensitive
              (utterances t) 0 [] 0 Hterms Ht) as [[m0 t0] E0].
  destruct (scanUtterances_total fuel terms "agent" caseSensitive
              (utterances t) 0 [] 0 Hterms Ht) as [[mA tA] EA].
  destruct (scanUtterances_total fuel terms "customer" caseSensitive
              (utterances t) 0 [] 0 Hterms Ht) as [[mC tC] EC].
  assert (Hsplit : t0 = tA + tC).
  { apply (scanUtterances_split (utterances t) m0 mA mC); [|assumption..].
    intros u Hu. apply (Htypes t u); [now left | exact Hu]. }
  cbn [map]. unfold transcriptTotal at 1 3 5. rewrite E0, EA, EC.
  specialize (IH Hlen' Htypes'). simpl. simpl in IH. lia.
Qed.

End ReadCorpus.

Section ReadCorpusTypes.

Lemma speakerTypeOf_two (label : string) :
  speakerTypeOf label = "agent" \/ speakerTypeOf label = "customer".
Proof.
  unfold speakerTypeOf.
  destruct ((lower label =? "agent")%string
            || (lower label =? "speaker 2")%string); [now left | now right].
Qed.

Lemma corpusOf_twoSpeakerTypes (files : list (Path.t * string)) :
  twoSpeakerTypes (corpusOf files).
Proof.
  intros t u Ht Hu. unfold corpusOf in Ht. apply in_map_iff in Ht.
  destruct Ht as ([filepath content] & <- & _).
  rewrite parse_transcript_eq in Hu. cbn [utterances fst snd] in Hu.
  apply utterancesOfLines_WellFormed in Hu.
  destruct Hu as (_ & _ & _ & _ & ->). apply speakerTypeOf_two.
Qed.

End ReadCorpusTypes.

(** X26.  On a corpus that was read from files, the two speaker filters
    split the matches.  For every list of files, case flag and input that
    parses to at least one term, with enough fuel for the texts: the
    search shows results under each of the filters all, agent and
    customer, and the number of matches without filter is the number of
    matches among the agent utterances plus the number of matches among
    the customer utterances. *)
Theorem speaker_filters_split_the_matches
    (fuel : nat) (files : list (Path.t * string)) (caseSensitive : bool)
    (searchInput : string) :
  parseSearchQuery (trim searchInput) <> [] ->
  textsShorterThan fuel (corpusOf files) ->
  exists results0 total0 html0 resultsA totalA htmlA resultsC totalC htmlC,
    performSearch fuel (corpusOf files) "all" caseSensitive searchInput
    = Some (ShowResults results0 total0 html0) /\
    performSearch fuel (corpusOf files) "agent" caseSensitive searchInput
    = Some (ShowResults resultsA totalA htmlA) /\
    performSearch fuel (corpusOf files) "customer" caseSensitive searchInput
    = Some (ShowResults resultsC totalC htmlC) /\
    total0 = totalA + totalC.
Proof.
  intros Hterms Hlen.
  destruct (performSearch_shows_results fuel (corpusOf files) "all"
              caseSensitive searchInput Hterms Hlen)
    as (results0 & total0 & S0 & P0).
  destruct (performSearch_shows_results fuel (corpusOf files) "agent"
              caseSensitive searchInput Hterms Hlen)
    as (resultsA & totalA & SA & PA).
  destruct (performSearch_shows_results fuel (corpusOf files) "customer"
              caseSensitive searchInput Hterms Hlen)
    as (resultsC & totalC & SC & PC).
  exists results0, total0. eexists. exists resultsA, totalA. eexists.
  exists resultsC, totalC. eexists.
  split; [exact P0|]. split; [exact PA|]. split; [exact PC|].
  apply scanTranscripts_sum in S0, SA, SC. rewrite S0, SA, SC. simpl.
  apply transcriptTotal_split;
    [apply parseSearchQuery_valuesNonEmpty | exact Hlen
    | apply corpusOf_twoSpeakerTypes].
Qed.

Lemma speaker_filters_split_the_matches_witness :
  parseSearchQuery (trim "hello") <> [] /\
  textsShorterThan 30 (corpusOf exampleFiles) /\
  exists results0 total0 html0 resultsA totalA htmlA resultsC totalC htmlC,
    performSearch 30 (corpusOf exampleFiles) "all" false "hello"
    = Some (ShowResults results0 total0 html0) /\
    performSearch 30 (corpusOf exampleFiles) "agent" false "hello"
    = Some (ShowResults resultsA totalA htmlA) /\
    performSearch 30 (corpusOf exampleFiles) "customer" false "hello"
    = Some (ShowResults resultsC totalC htmlC) /\
    total0 = totalA + totalC.
Proof.
  assert (H1 : parseSearchQuery (trim "hello") <> [])
    by (vm_compute; discriminate).
  assert (H2 : textsShorterThan 30 (corpusOf exampleFiles)).
  { intros t u Ht Hu. vm_compute in Ht. destruct Ht as [<- | []].
    vm_compute in Hu. destruct Hu as [<- | [<- | []]]; simpl; lia. }
  split; [exact H1|]. split; [exact H2|].
  exact (speaker_filters_split_the_matches 30 exampleFiles false "hello"
           H1 H2).
Defined.

(** * Properties of the assistant server *)

Section ServerReader.

Lemma load_transcripts_lines_eq (lines : list string)
    (utterances : list ServerUtterance.t) :
  load_transcripts_lines lines utterances
  = utterances ++ map serverUtterance (utterancesOfLines lines).
Proof.
  revert utterances. induction lines as [|line lines IH]; intros utterances.
  - simpl. now rewrite app_nil_r.
  - cbn [load_transcripts_lines utterancesOfLines flat_map].
    fold (utterancesOfLines lines). unfold utteranceOfLine.
    destruct (negb (nonEmpty (strip line))); [apply IH|].
    destruct (match_pattern (strip line)) as [[[[g1 g2] g3] g4]|];
      [|apply IH].
    rewrite IH. cbn [optionToList app map]. now rewrite <- app_assoc.
Qed.

Lemma condensedPart_serverUtterance (us : list Utterance) :
  map condensedPart (map serverUtterance us) = map fullTextPart us.
Proof. rewrite map_map. now apply map_ext. Qed.

Lemma load_transcripts_for_eq (files : list (Path.t * string))
    (TRANSCRIPTS : list ServerTranscript.t) :
  exists loaded,
    load_transcripts_for files TRANSCRIPTS = TRANSCRIPTS ++ loaded /\
    map serverSummary loaded
    = map pageSummary
        (filter (fun t => (0 <? utterance_count t)%nat) (corpusOf files)) /\
    map ServerTranscript.utterances loaded
    = map (fun t => map serverUtterance (utterances t))
        (filter (fun t => (0 <? utterance_count t)%nat) (corpusOf files)) /\
    Forall (fun t => ServerTranscript.char_count t
                     = Z.of_nat (String.length (ServerTranscript.text t)))
           loaded.
Proof.
  revert TRANSCRIPTS.
  induction files as [|[filepath content] files IH]; intros TRANSCRIPTS.
  - exists []. simpl. now rewrite app_nil_r.
  - cbn [load_transcripts_for corpusOf map fst snd filter].
    fold (corpusOf files).
    rewrite load_transcripts_lines_eq, parse_transcript_eq.
    cbn [app utterance_count].
    destruct (utterancesOfLines (split LF content)) as [|u us] eqn:E.
    + cbn [map List.length Nat.ltb Nat.leb]. apply IH.
    + change (0 <? List.length (u :: us))%nat with true. cbv iota.
      destruct (IH (TRANSCRIPTS ++
         [{| ServerTranscript.id := Path.stem filepath;
             ServerTranscript.name :=
               without_extension (without_prefix (Path.stem filepath));
             ServerTranscript.utterances := map serverUtterance (u :: us);
             ServerTranscript.text :=
               String.concat (String LF EmptyString)
                 (map condensedPart (map serverUtterance (u :: us)));
             ServerTranscript.char_count :=
               Z.of_nat
                 (String.length
                    (String.concat (String LF EmptyString)
                       (map condensedPart (map serverUtterance (u :: us)))))
          |}])) as (loaded & H1 & H2 & H3 & H4).
      eexists (_ :: loaded).
      split; [rewrite H1, <- app_assoc; reflexivity|].
      split; [|split].
      * cbn [map]. rewrite H2. f_equal.
        unfold serverSummary, pageSummary.
        cbn [ServerTranscript.id ServerTranscript.name ServerTranscript.text
             id name full_text].
        now rewrite condensedPart_serverUtterance.
      * cbn [map]. now rewrite H3.
      * constructor; [reflexivity | exact H4].
Qed.

End ServerReader.

Section Selection.

Lemma everyNth_nth {T : Type} (step wait : nat) (l : list T) (j : nat) :
  1 <= step ->
  nth_error (everyNth step wait l) j = nth_error l (wait + j * step).
Proof.
  intros Hstep. revert wait j.
  induction l as [|x l IH]; intros wait j.
  - simpl. now destruct j, (wait + _).
  - destruct wait as [|wait]; cbn [everyNth].
    + destruct j as [|j]; [reflexivity|].
      cbn [nth_error]. rewrite IH.
      replace (0 + S j * step) with (S (step - 1 + j * step)) by lia.
      reflexivity.
    + rewrite IH. reflexivity.
Qed.

Lemma everyNth_incl {T : Type} (step wait : nat) (l : list T) :
  incl (everyNth step wait l) l.
Proof.
  revert wait. induction l as [|x l IH]; intros wait; [easy|].
  destruct wait as [|wait]; cbn [everyNth].
  - intros y [<- | Hy]; [now left | right; now apply (IH (step - 1))].
  - intros y Hy. right. now apply (IH wait).
Qed.

Lemma totalChars_app (a b : list ServerTranscript.t) :
  totalChars (a ++ b) = (totalChars a + totalChars b)%Z.
Proof.
  induction a as [|t a IH]; simpl; [reflexivity|]. rewrite IH. lia.
Qed.

(** What the loop takes: the candidates up to the first one that does not
    fit. *)
Lemma select_within_spec (max_chars : Z)
    (candidates selected : list ServerTranscript.t) (total_chars : Z) :
  exists taken rest,
    select_within max_chars candidates selected total_chars
    = selected ++ taken /\
    candidates = taken ++ rest /\
    (taken = [] \/ (total_chars + totalChars taken <= max_chars)%Z) /\
    match rest with
    | [] => True
    | t :: _ =>
        (total_chars + totalChars taken + ServerTranscript.char_count t
         > max_chars)%Z
    end.
Proof.
  revert selected total_chars.
  induction candidates as [|t candidates IH]; intros selected total_chars.
  - exists [], []. simpl. now rewrite app_nil_r; repeat split; try left.
  - cbn [select_within].
    destruct (total_chars + ServerTranscript.char_count t >? max_chars)%Z
      eqn:E.
    + exists [], (t :: candidates). rewrite app_nil_r.
      repeat split; [now left|]. simpl. lia.
    + destruct (IH (selected ++ [t])
                  (total_chars + ServerTranscript.char_count t)%Z)
        as (taken & rest & H1 & H2 & H3 & H4).
      exists (t :: taken), rest.
      split; [now rewrite H1, <- app_assoc|].
      split; [now rewrite H2|].
      split.
      * right. cbn [totalChars fold_right]. fold (totalChars taken).
        destruct H3 as [-> | H3]; simpl; lia.
      * destruct rest as [|r rest]; [exact I|].
        cbn [totalChars fold_right]. fold (totalChars taken). lia.
Qed.

(** ** The sort *)

Lemma insert_by_score_Permutation (x : nat * ServerTranscript.t)
    (sorted : list (nat * ServerTranscript.t)) :
  Permutation (insert_by_score x sorted) (x :: sorted).
Proof.
  induction sorted as [|y sorted IH]; simpl; [reflexivity|].
  destruct (fst x <? fst y)%nat; [|reflexivity].
  rewrite IH. apply perm_swap.
Qed.

Lemma sort_by_score_Permutation (scored : list (nat * ServerTranscript.t)) :
  Permutation (sort_by_score scored) scored.
Proof.
  induction scored as [|x scored IH]; simpl; [reflexivity|].
  now rewrite insert_by_score_Permutation, IH.
Qed.

Lemma insert_by_score_Sorted (x : nat * ServerTranscript.t)
    (sorted : list (nat * ServerTranscript.t)) :
  Sorted (fun a b => fst b <= fst a) sorted ->
  Sorted (fun a b => fst b <= fst a) (insert_by_score x sorted).
Proof.
  induction 1 as [|y sorted Hsorted IH Hhd]; simpl.
  - now repeat constructor.
  - destruct (fst x <? fst y)%nat eqn:E.
    + constructor; [exact IH|].
      destruct sorted as [|z sorted]; simpl.
      * constructor. apply Nat.ltb_lt in E. lia.
      * destruct (fst x <? fst z)%nat.
        -- constructor. now inversion Hhd.
        -- constructor. apply Nat.ltb_lt in E. lia.
    + constructor; [now constructor|].
      constructor. apply Nat.ltb_ge in E. exact E.
Qed.

Lemma sort_by_score_Sorted (scored : list (nat * ServerTranscript.t)) :
  StronglySorted (fun a b => fst b <= fst a) (sort_by_score scored).
Proof.
  apply Sorted_StronglySorted.
  - intros a b c Hab Hbc. lia.
  - induction scored as [|x scored IH]; simpl; [constructor|].
    now apply insert_by_score_Sorted.
Qed.

Lemma StronglySorted_prefix {T : Type} (R : T -> T -> Prop) (l1 l2 : list T) :
  StronglySorted R (l1 ++ l2) -> StronglySorted R l1.
Proof.
  induction l1 as [|x l1 IH]; simpl; intros H; [constructor|].
  inversion H as [|? ? Hs Hall]; subst. constructor; [now apply IH|].
  now apply Forall_app in Hall.
Qed.

Lemma StronglySorted_scores (keywords : list string)
    (scored : list (nat * ServerTranscript.t)) :
  Forall (fun p => fst p = score_of keywords (snd p)) scored ->
  StronglySorted (fun a b => fst b <= fst a) scored ->
  StronglySorted
    (fun a b => score_of keywords b <= score_of keywords a) (map snd scored).
Proof.
  intros Hscore Hsorted. induction Hsorted as [|p scored Hs IH Hall].
  - constructor.
  - inversion Hscore as [|? ? Hp Hrest]; subst.
    cbn [map]. constructor; [now apply IH|].
    apply Forall_map. rewrite Forall_forall in *.
    intros q Hq. rewrite <- Hp, <- (Hrest q Hq). now apply Hall.
Qed.

Lemma score_for_eq (keywords : list string)
    (rest : list ServerTranscript.t)
    (scored : list (nat * ServerTranscript.t)) :
  score_for keywords rest scored
  = scored ++
    map (fun t => (score_of keywords t, t))
      (filter (fun t => (0 <? score_of keywords t)%nat) rest).
Proof.
  revert scored. induction rest as [|t rest IH]; intros scored; simpl.
  - now rewrite app_nil_r.
  - destruct (0 <? score_of keywords t)%nat; rewrite IH; [|reflexivity].
    now rewrite <- app_assoc.
Qed.

(** The candidates of a specific question: every one has a keyword, they
    come from the corpus, and they are in the order of their scores. *)
Lemma keyword_candidates (TRANSCRIPTS : list ServerTranscript.t)
    (keywords : list string) :
  let candidates :=
    map snd (sort_by_score (score_for keywords TRANSCRIPTS [])) in
  Forall (fun t => 0 < score_of keywords t) candidates /\
  incl candidates TRANSCRIPTS /\
  StronglySorted
    (fun a b => score_of keywords b <= score_of keywords a) candidates.
Proof.
  intros candidates. subst candidates. rewrite score_for_eq. cbn [app].
  set (scored := map (fun t => (score_of keywords t, t))
                   (filter (fun t => (0 <? score_of keywords t)%nat)
                      TRANSCRIPTS)).
  assert (Hin : forall p, In p (sort_by_score scored) ->
            fst p = score_of keywords (snd p) /\
            0 < fst p /\ In (snd p) TRANSCRIPTS).
  { intros p Hp.
    apply (Permutation_in _ (sort_by_score_Permutation scored)) in Hp.
    unfold scored in Hp. apply in_map_iff in Hp.
    destruct Hp as (t & <- & Ht). apply filter_In in Ht.
    destruct Ht as [Ht Hscore]. apply Nat.ltb_lt in Hscore.
    now repeat split. }
  split; [|split].
  - apply Forall_map, Forall_forall. intros p Hp.
    destruct (Hin p Hp) as (H1 & H2 & _). now rewrite <- H1.
  - intros t Ht. apply in_map_iff in Ht. destruct Ht as (p & <- & Hp).
    apply (Hin p Hp).
  - apply StronglySorted_scores; [|apply sort_by_score_Sorted].
    apply Forall_forall. intros p Hp. apply (Hin p Hp).
Qed.

(** ** The calls of [find_relevant_transcripts] *)

Lemma find_relevant_transcripts_eq (TRANSCRIPTS : list ServerTranscript.t)
    (question : string) (max_chars : Z) :
  find_relevant_transcripts TRANSCRIPTS question max_chars
  = if is_aggregate_question question
    then sample_evenly TRANSCRIPTS max_chars
    else
      match select_by_keywords TRANSCRIPTS (lower question) max_chars with
      | [] => sample_evenly TRANSCRIPTS max_chars
      | t :: selected => t :: selected
      end.
Proof.
  unfold find_relevant_transcripts, is_aggregate_question.
  cbn [find_relevant_transcripts_fuel].
  destruct (existsb _ aggregate_keywords); [reflexivity|].
  destruct (select_by_keywords TRANSCRIPTS (lower question) max_chars);
    reflexivity.
Qed.

(** Two levels of calls are enough, and more change nothing. *)
Lemma find_relevant_transcripts_enough (fuel : nat)
    (TRANSCRIPTS : list ServerTranscript.t) (question : string)
    (max_chars : Z) :
  2 <= fuel ->
  find_relevant_transcripts_fuel fuel TRANSCRIPTS question max_chars
  = Some (find_relevant_transcripts TRANSCRIPTS question max_chars).
Proof.
  intros Hfuel. rewrite find_relevant_transcripts_eq.
  destruct fuel as [|[|fuel]]; [lia | lia |].
  unfold is_aggregate_question. cbn [find_relevant_transcripts_fuel].
  destruct (existsb _ aggregate_keywords); [reflexivity|].
  destruct (select_by_keywords TRANSCRIPTS (lower question) max_chars);
    reflexivity.
Qed.

Lemma sample_evenly_spec (TRANSCRIPTS : list ServerTranscript.t)
    (max_chars : Z) :
  exists rest,
    everyNth (Nat.max 1 (List.length TRANSCRIPTS / 30)) 0 TRANSCRIPTS
    = sample_evenly TRANSCRIPTS max_chars ++ rest /\
    (sample_evenly TRANSCRIPTS max_chars = [] \/
     (totalChars (sample_evenly TRANSCRIPTS max_chars) <= max_chars)%Z) /\
    match rest with
    | [] => True
    | t :: _ =>
        (totalChars (sample_evenly TRANSCRIPTS max_chars)
         + ServerTranscript.char_count t > max_chars)%Z
    end.
Proof.
  unfold sample_evenly.
  destruct (select_within_spec max_chars
              (everyNth (Nat.max 1 (List.length TRANSCRIPTS / 30)) 0
                 TRANSCRIPTS) [] 0)
    as (taken & rest & H1 & H2 & H3 & H4).
  cbn [app] in H1. rewrite H1. exists rest.
  split; [exact H2|]. split.
  - destruct H3 as [H3 | H3]; [now left | right; lia].
  - destruct rest; [exact I | lia].
Qed.

Lemma select_by_keywords_spec (TRANSCRIPTS : list ServerTranscript.t)
    (question : string) (max_chars : Z) :
  let selected := select_by_keywords TRANSCRIPTS (lower question) max_chars in
  (selected = [] \/ (totalChars selected <= max_chars)%Z) /\
  incl selected TRANSCRIPTS /\
  Forall (fun t => 0 < score_of (keywordsOf question) t) selected /\
  StronglySorted
    (fun a b => score_of (keywordsOf question) b
                <= score_of (keywordsOf question) a) selected.
Proof.
  intros selected. subst selected. unfold select_by_keywords.
  fold (keywordsOf question).
  destruct (keyword_candidates TRANSCRIPTS (keywordsOf question))
    as (Hscore & Hincl & Hsorted).
  destruct (select_within_spec max_chars
              (map snd (sort_by_score
                          (score_for (keywordsOf question) TRANSCRIPTS [])))
              [] 0)
    as (taken & rest & H1 & H2 & H3 & _).
  cbn [app] in H1. rewrite H1. rewrite H2 in Hscore, Hincl, Hsorted.
  split; [destruct H3 as [H3 | H3]; [now left | right; lia]|].
  split; [intros t Ht; apply Hincl, in_or_app; now left|].
  split; [now apply Forall_app in Hscore|].
  now apply StronglySorted_prefix in Hsorted.
Qed.

End Selection.

Section SelectionFacts.

Lemma sample_evenly_incl (TRANSCRIPTS : list ServerTranscript.t)
    (max_chars : Z) :
  incl (sample_evenly TRANSCRIPTS max_chars) TRANSCRIPTS.
Proof.
  destruct (sample_evenly_spec TRANSCRIPTS max_chars) as (rest & H & _).
  intros t Ht.
  apply (everyNth_incl (Nat.max 1 (List.length TRANSCRIPTS / 30)) 0).
  rewrite H. apply in_or_app. now left.
Qed.

Lemma fallback_is_the_sample (TRANSCRIPTS : list ServerTranscript.t)
    (max_chars : Z) :
  find_relevant_transcripts TRANSCRIPTS "summarize main issues" max_chars
  = sample_evenly TRANSCRIPTS max_chars.
Proof. now rewrite find_relevant_transcripts_eq. Qed.

End SelectionFacts.

(** * The properties of the assistant server *)

(** X27.  The server reads what the page reads.  For every list of files,
    the transcripts that [load_transcripts] keeps are, in order, those
    that [parse_transcript] reads with at least one utterance: with the
    same [id] and [name], with the [full_text] of the page as condensed
    [text], with the speakers and texts of the same utterances, and with
    the length of the condensed text as [char_count]. *)
Theorem server_reads_what_the_page_reads (files : list (Path.t * string)) :
  map serverSummary (load_transcripts files)
  = map pageSummary
      (filter (fun t => (0 <? utterance_count t)%nat) (corpusOf files)) /\
  map ServerTranscript.utterances (load_transcripts files)
  = map (fun t => map serverUtterance (utterances t))
      (filter (fun t => (0 <? utterance_count t)%nat) (corpusOf files)) /\
  Forall (fun t => ServerTranscript.char_count t
                   = Z.of_nat (String.length (ServerTranscript.text t)))
         (load_transcripts files).
Proof.
  unfold load_transcripts.
  destruct (load_transcripts_for_eq files []) as (loaded & -> & H).
  exact H.
Qed.

(** X28.  The selection stays within the budget and within the corpus.
    For every corpus, question and budget [max_chars], the transcripts
    that [find_relevant_transcripts] returns are transcripts of the
    corpus, and unless none is returned the sum of their [char_count] is
    at most [max_chars]. *)
Theorem selection_stays_within_budget
    (TRANSCRIPTS : list ServerTranscript.t) (question : string)
    (max_chars : Z) :
  (find_relevant_transcripts TRANSCRIPTS question max_chars = [] \/
   (totalChars (find_relevant_transcripts TRANSCRIPTS question max_chars)
    <= max_chars)%Z) /\
  incl (find_relevant_transcripts TRANSCRIPTS question max_chars)
    TRANSCRIPTS.
Proof.
  rewrite find_relevant_transcripts_eq.
  destruct (sample_evenly_spec TRANSCRIPTS max_chars) as (rest & _ & Hs & _).
  pose proof (sample_evenly_incl TRANSCRIPTS max_chars) as Hincl.
  destruct (is_aggregate_question question); [now split|].
  destruct (select_by_keywords_spec TRANSCRIPTS question max_chars)
    as (Hk & Hkincl & _).
  destruct (select_by_keywords TRANSCRIPTS (lower question) max_chars);
    now split.
Qed.

(** X29.  What a specific question selects.  For every corpus and budget
    and every question without an aggregate keyword: either every
    transcript that [find_relevant_transcripts] returns contains a keyword
    of the question (a word of more than three code points, in lower
    case, searched in the text in lower case) and the transcripts come by
    descending number of keywords found, or the result is the one of the
    question that the function falls back to. *)
Theorem specific_question_selects_by_keywords
    (TRANSCRIPTS : list ServerTranscript.t) (question : string)
    (max_chars : Z) :
  is_aggregate_question question = false ->
  (Forall (fun t => 0 < score_of (keywordsOf question) t)
     (find_relevant_transcripts TRANSCRIPTS question max_chars) /\
   StronglySorted
     (fun a b => score_of (keywordsOf question) b
                 <= score_of (keywordsOf question) a)
     (find_relevant_transcripts TRANSCRIPTS question max_chars)) \/
  find_relevant_transcripts TRANSCRIPTS question max_chars
  = find_relevant_transcripts TRANSCRIPTS "summarize main issues" max_chars.
Proof.
  intros Hq. rewrite fallback_is_the_sample.
  rewrite (find_relevant_transcripts_eq TRANSCRIPTS question), Hq.
  destruct (select_by_keywords_spec TRANSCRIPTS question max_chars)
    as (_ & _ & Hscore & Hsorted).
  destruct (select_by_keywords TRANSCRIPTS (lower question) max_chars);
    [now right | left; now split].
Qed.

Lemma specific_question_selects_by_keywords_witness :
  is_aggregate_question "billing statement error" = false /\
  ((Forall (fun t => 0 < score_of (keywordsOf "billing statement error") t)
      (find_relevant_transcripts [greetingEntry; billingEntry]
         "billing statement error" 100) /\
    StronglySorted
      (fun a b => score_of (keywordsOf "billing statement error") b
                  <= score_of (keywordsOf "billing statement error") a)
      (find_relevant_transcripts [greetingEntry; billingEntry]
         "billing statement error" 100)) \/
   find_relevant_transcripts [greetingEntry; billingEntry]
     "billing statement error" 100
   = find_relevant_transcripts [greetingEntry; billingEntry]
       "summarize main issues" 100).
Proof.
  assert (H : is_aggregate_question "billing statement error" = false)
    by reflexivity.
  split; [exact H|].
  exact (specific_question_selects_by_keywords [greetingEntry; billingEntry]
           "billing statement error" 100 H).
Defined.

(** X30.  What an aggregate question selects.  For every corpus and budget
    and every question with an aggregate keyword, with [step] the larger
    of 1 and the number of transcripts divided by 30: the transcript
    returned at place [j] is the transcript of the corpus at place
    [j * step], and when the corpus has a transcript at the place after
    the last one returned, that transcript does not fit in what is left of
    the budget; the selection ends there even when later transcripts would
    fit. *)
Theorem aggregate_question_samples_evenly
    (TRANSCRIPTS : list ServerTranscript.t) (question : string)
    (max_chars : Z) :
  is_aggregate_question question = true ->
  (forall j t,
     nth_error (find_relevant_transcripts TRANSCRIPTS question max_chars) j
     = Some t ->
     nth_error TRANSCRIPTS (j * Nat.max 1 (List.length TRANSCRIPTS / 30))
     = Some t) /\
  (forall t,
     nth_error TRANSCRIPTS
       (List.length (find_relevant_transcripts TRANSCRIPTS question max_chars)
        * Nat.max 1 (List.length TRANSCRIPTS / 30))
     = Some t ->
     (totalChars (find_relevant_transcripts TRANSCRIPTS question max_chars)
      + ServerTranscript.char_count t > max_chars)%Z).
Proof.
  intros Hq. rewrite find_relevant_transcripts_eq, Hq.
  destruct (sample_evenly_spec TRANSCRIPTS max_chars)
    as (rest & Hsample & _ & Hrest).
  assert (Hnth : forall j,
            nth_error (sample_evenly TRANSCRIPTS max_chars ++ rest) j
            = nth_error TRANSCRIPTS
                (j * Nat.max 1 (List.length TRANSCRIPTS / 30))).
  { intros j. rewrite <- Hsample, everyNth_nth by lia. reflexivity. }
  split.
  - intros j t Hj. rewrite <- Hnth.
    rewrite nth_error_app1; [exact Hj|].
    apply nth_error_Some. congruence.
  - intros t Ht. rewrite <- Hnth in Ht.
    rewrite nth_error_app2, Nat.sub_diag in Ht by lia.
    destruct rest as [|r rest]; [discriminate|].
    injection Ht as <-. exact Hrest.
Qed.

Lemma aggregate_question_samples_evenly_witness :
  is_aggregate_question "What are the main issues?" = true /\
  (forall j t,
     nth_error (find_relevant_transcripts [billingEntry; greetingEntry]
                  "What are the main issues?" 50) j
     = Some t ->
     nth_error [billingEntry; greetingEntry]
       (j * Nat.max 1 (List.length [billingEntry; greetingEntry] / 30))
     = Some t) /\
  (forall t,
     nth_error [billingEntry; greetingEntry]
       (List.length (find_relevant_transcripts [billingEntry; greetingEntry]
                       "What are the main issues?" 50)
        * Nat.max 1 (List.length [billingEntry; greetingEntry] / 30))
     = Some t ->
     (totalChars (find_relevant_transcripts [billingEntry; greetingEntry]
                    "What are the main issues?" 50)
      + ServerTranscript.char_count t > 50)%Z).
Proof.
  assert (H : is_aggregate_question "What are the main issues?" = true)
    by reflexivity.
  split; [exact H|].
  exact (aggregate_question_samples_evenly [billingEntry; greetingEntry]
           "What are the main issues?" 50 H).
Defined.
